(** * 泊松生成器: a shallow embedding of [include/泊松生成器.h]

    The header is a single C++ namespace: a one-word linear generator
    ([DefaultPRNG]), a point type with two region predicates, an acceleration
    grid, and four samplers.  Every real number in it is an IEEE-754 binary32
    [float] (binary64 in the two places where the source computes in
    [double]); they are modelled with the Standard Library's executable
    IEEE-754 specification [SpecFloat], instantiated at precision 24 and
    exponent bound 128 (respectively 53 and 1024), rounding to nearest, ties
    to even.  Unsigned 32-bit integers are integers of [Z] with the
    wrap-around written out.

    Conventions taken where the C++ text leaves a choice:
    - the header calls [sqrt], [ceil], [cos] and [sin] unqualified and
      includes no math header itself, so the overload is chosen by what the
      including file declares.  The embedding takes the [float] overloads
      for a [float] argument (those of <cmath>, as a file that includes
      <math.h> of a C++ library sees them) and the [double] overload for an
      integer argument.  Where only [double sqrt(double)] is declared, the
      estimated minimal distance and the cell size can differ in the last
      bit: that reading is [有效最小距离_双精度], [单格尺寸_双精度] and
      [获取距离_双精度] below;
    - the two arguments of the constructor call
      [点(randomFloat(), randomFloat())] are evaluated left to right;
    - [cos] and [sin] come from the platform's libm, which is not part of the
      repository: they are parameters of the embedding ([Libm]). *)

From Stdlib Require Import ZArith List Bool Lia Znumtheory.
From Stdlib Require Import Floats.SpecFloat.
Import ListNotations.

Local Open Scope Z_scope.

(* ------------------------------------------------------------------ *)
(** ** Machine integers *)

Definition wrap32 (n : Z) : Z := n mod 2 ^ 32.

(** Conversion to a signed 32-bit [int] (modular, as C++20 defines it). *)
Definition to_signed32 (n : Z) : Z :=
  let m := wrap32 n in if m <? 2 ^ 31 then m else m - 2 ^ 32.

(* ------------------------------------------------------------------ *)
(** ** IEEE-754 arithmetic *)

Definition float := spec_float.

(** The integer part of a finite float, rounded toward zero; [None] for an
    infinity or a NaN. *)
Definition ftrunc (x : float) : option Z :=
  match x with
  | S754_zero _ => Some 0
  | S754_finite s m e => Some (cond_Zopp s (Z.shiftl (Zpos m) e))
  | _ => None
  end.

(** [static_cast<int>(x)], [(int)x]: undefined when the integer part does not
    fit. *)
Definition to_int (x : float) : option Z :=
  match ftrunc x with
  | Some z => if (- 2 ^ 31 <=? z) && (z <? 2 ^ 31) then Some z else None
  | None => None
  end.

(** [uint32_t(x)]. *)
Definition to_u32 (x : float) : option Z :=
  match ftrunc x with
  | Some z => if (0 <=? z) && (z <? 2 ^ 32) then Some z else None
  | None => None
  end.

Section Format.
  Variables prec emax : Z.

  (** Conversion of an integer (exact when it fits the mantissa). *)
Definition SFof_Z (n : Z) : float := binary_normalize prec emax n 0 false.

  (** Conversion of a float of another format. *)
Definition SFof_float (x : float) : float :=
    match x with
    | S754_finite s m e => binary_round prec emax s m e
    | _ => x
    end.

  (** [ceil]: the least integral float not below [x]. *)
Definition SFceil (x : float) : float :=
    match x with
    | S754_finite s m (Zneg p) =>
        let q := - ((- cond_Zopp s (Zpos m)) / 2 ^ Zpos p) in
        binary_normalize prec emax q 0 s
    | _ => x
    end.
End Format.

(** binary32, the source's [float]. *)
Module F32.
Definition prec := 24.
Definition emax := 128.
Definition add : float -> float -> float := SFadd prec emax.
Definition sub : float -> float -> float := SFsub prec emax.
Definition mul : float -> float -> float := SFmul prec emax.
Definition div : float -> float -> float := SFdiv prec emax.
Definition sqrt : float -> float := SFsqrt prec emax.
Definition ceil : float -> float := SFceil prec emax.
Definition of_Z : Z -> float := SFof_Z prec emax.
Definition of_float : float -> float := SFof_float prec emax.
End F32.

(** binary64, the source's [double]. *)
Module F64.
Definition prec := 53.
Definition emax := 1024.
Definition mul : float -> float -> float := SFmul prec emax.
Definition div : float -> float -> float := SFdiv prec emax.
Definition sqrt : float -> float := SFsqrt prec emax.
Definition of_Z : Z -> float := SFof_Z prec emax.
Definition of_float : float -> float := SFof_float prec emax.
End F64.

(** Comparisons do not depend on the format.  [x >= y] is [fle y x]. *)
Definition flt : float -> float -> bool := SFltb.
Definition fle : float -> float -> bool := SFleb.

(** The float whose bit pattern is the 32-bit word [a] (the cast
    [*((float* )&a)]). *)
Definition float_of_bits (a : Z) : float :=
  let s := Z.testbit a 31 in
  let e := Z.land (Z.shiftr a 23) 255 in
  let m := Z.land a 8388607 in
  if e =? 255 then (if m =? 0 then S754_infinity s else S754_nan)
  else if e =? 0 then
    match m with Zpos p => S754_finite s p (-149) | _ => S754_zero s end
  else
    match Z.lor m 8388608 with
    | Zpos p => S754_finite s p (e - 150)
    | _ => S754_nan
    end.

(** Literals of the source, as [mantissa * 2 ^ exponent]. *)
Definition f_zero : float := S754_zero false.
Definition f_half : float := S754_finite false 8388608 (-24).     (* 0.5f *)
Definition f_quarter : float := S754_finite false 8388608 (-25).  (* 0.25f *)
Definition f_one : float := S754_finite false 8388608 (-23).      (* 1.0f *)
Definition f_two : float := S754_finite false 8388608 (-22).      (* 2.0f *)
Definition f_pi : float := S754_finite false 13176795 (-22).      (* 3.141592653589f *)
Definition f_golden : float := S754_finite false 10066330 (-22).  (* 2.4f *)
Definition f_180 : float := S754_finite false 11796480 (-16).     (* 180.0f *)
Definition f_jitter : float := S754_finite false 8589935 (-31).   (* 0.004f *)
Definition f_minus_one : float := S754_finite true 8388608 (-23). (* -1.0f *)
(** 0.785398163397448309616 and 2.3283064365386963e-10, as doubles. *)
Definition d_Pi_4 : float := S754_finite false 7074237752028440 (-53).
Definition d_2p_32 : float := S754_finite false 4503599627370496 (-84).

(* ------------------------------------------------------------------ *)
(** ** Outcomes and the generator-passing monad

    A sampler either returns, or runs into behaviour the C++ standard leaves
    undefined (an index outside a vector, a float-to-integer conversion that
    does not fit, a vector resized to a negative length), or is still
    looping when the model's fuel is spent. *)

Inductive result (A : Type) : Type :=
| Ok (a : A)
| Undefined
| OutOfFuel.
Arguments Ok {A} a.
Arguments Undefined {A}.
Arguments OutOfFuel {A}.

Definition M (G A : Type) : Type := G -> result (A * G).

Definition ret {G A} (a : A) : M G A := fun g => Ok (a, g).

Definition bind {G A B} (m : M G A) (k : A -> M G B) : M G B :=
  fun g => match m g with
           | Ok (a, g') => k a g'
           | Undefined => Undefined
           | OutOfFuel => OutOfFuel
           end.

Definition defined {G A} (o : option A) : M G A :=
  fun g => match o with Some a => Ok (a, g) | None => Undefined end.

Declare Scope sampler_scope.
Delimit Scope sampler_scope with sampler.
Notation "x <- m ;; k" := (bind m (fun x => k))
  (at level 61, m at next level, right associativity) : sampler_scope.
Notation "' pat <- m ;; k" := (bind m (fun x => match x with pat => k end))
  (at level 61, pat pattern, m at next level, right associativity) : sampler_scope.

(* ------------------------------------------------------------------ *)
(** ** The generator *)

(** What the samplers, templates over [PRNG], ask of a generator. *)
Class PRNG (G : Type) : Type := {
  randomFloat : G -> float * G;
  randomInt : Z -> G -> option Z * G
}.

Module DefaultPRNG.
Record t : Type := Build { seed_ : Z }.

  (** The default member initializer [seed_ = 7133167]. *)
Definition default : t := Build 7133167.

Definition randomFloat (g : t) : float * t :=
    let seed := wrap32 (seed_ g * 521167) in
    let a := Z.lor (Z.land seed 0x007fffff) 0x40000000 in
    (F32.mul f_half (F32.sub (float_of_bits a) f_two), Build seed).

Definition randomInt (maxInt : Z) (g : t) : option Z * t :=
    let (f, g') := randomFloat g in
    (to_u32 (F32.mul f (F32.of_Z maxInt)), g').

Definition getSeed (g : t) : Z := seed_ g.
End DefaultPRNG.

#[export] Instance DefaultPRNG_PRNG : PRNG DefaultPRNG.t := {
  randomFloat := DefaultPRNG.randomFloat;
  randomInt := DefaultPRNG.randomInt
}.

Definition draw_float {G} `{PRNG G} : M G float := fun g => Ok (randomFloat g).

Definition draw_int {G} `{PRNG G} (maxInt : Z) : M G Z :=
  fun g => let (r, g') := randomInt maxInt g in
           match r with Some v => Ok (v, g') | None => Undefined end.

(* ------------------------------------------------------------------ *)
(** ** The platform's [cos] and [sin]

    Only what ISO C (Annex F.10.1) fixes exactly is assumed of them:
    [cos(+0) = 1] and [sin(+0) = +0]. *)

Record Libm : Type := {
  cosf : float -> float;
  sinf : float -> float;
  cosf_zero : cosf f_zero = f_one;
  sinf_zero : sinf f_zero = f_zero
}.

(* ------------------------------------------------------------------ *)
(** ** Points *)

Record 点 : Type := 新点 { 点_x : float; 点_y : float; 是有效的 : bool }.

(** [点()] and [点(X, Y)]. *)
Definition 空点 : 点 := 新点 f_zero f_zero false.
Definition 点_of (X Y : float) : 点 := 新点 X Y true.

Definition 要是在矩形内 (p : 点) : bool :=
  fle f_zero (点_x p) && fle f_zero (点_y p)
  && fle (点_x p) f_one && fle (点_y p) f_one.

Definition 要是在圆形内 (p : 点) : bool :=
  let fx := F32.sub (点_x p) f_half in
  let fy := F32.sub (点_y p) f_half in
  fle (F32.add (F32.mul fx fx) (F32.mul fy fy)) f_quarter.

(** [operator+] and [operator-] update the left operand, whose validity
    flag stays. *)
Definition 点_加 (a p : 点) : 点 :=
  新点 (F32.add (点_x a) (点_x p)) (F32.add (点_y a) (点_y p)) (是有效的 a).
Definition 点_减 (a p : 点) : 点 :=
  新点 (F32.sub (点_x a) (点_x p)) (F32.sub (点_y a) (点_y p)) (是有效的 a).

(** The region test the samplers apply: [是圆形 ? 要是在圆形内 : 要是在矩形内]. *)
Definition 在区域内 (是圆形 : bool) (p : 点) : bool :=
  if 是圆形 then 要是在圆形内 p else 要是在矩形内 p.

Record 网格点 : Type := 新网格点 { 格_x : Z; 格_y : Z }.

Definition 获取距离 (起点 终点 : 点) : float :=
  let dx := F32.sub (点_x 起点) (点_x 终点) in
  let dy := F32.sub (点_y 起点) (点_y 终点) in
  F32.sqrt (F32.add (F32.mul dx dx) (F32.mul dy dy)).

Definition 图像到网格 (P : 点) (单格 : float) : option 网格点 :=
  match to_int (F32.div (点_x P) 单格), to_int (F32.div (点_y P) 单格) with
  | Some X, Some Y => Some (新网格点 X Y)
  | _, _ => None
  end.

(* ------------------------------------------------------------------ *)
(** ** Vectors indexed by machine integers

    [operator[]] is unchecked: an index outside the vector is [None]. *)

Definition vec_get {A} (v : list A) (i : Z) : option A :=
  if i <? 0 then None else nth_error v (Z.to_nat i).

Fixpoint list_set {A} (v : list A) (n : nat) (a : A) : option (list A) :=
  match v, n with
  | [], _ => None
  | _ :: t, O => Some (a :: t)
  | h :: t, S n' => option_map (cons h) (list_set t n' a)
  end.

Definition vec_set {A} (v : list A) (i : Z) (a : A) : option (list A) :=
  if i <? 0 then None else list_set v (Z.to_nat i) a.

(** [v.erase(v.begin() + i)]. *)
Definition vec_erase {A} (v : list A) (i : Z) : list A :=
  firstn (Z.to_nat i) v ++ skipn (S (Z.to_nat i)) v.

(* ------------------------------------------------------------------ *)
(** ** The acceleration grid *)

Record 网格 : Type := 新网格 {
  宽_ : Z;
  高_ : Z;
  单格_ : float;
  网格_ : list (list 点)
}.

(** The constructor: [高] rows of [宽] empty points. *)
Definition 网格_构造 (宽 高 : Z) (单格 : float) : option 网格 :=
  if (0 <=? 宽) && (0 <=? 高)
  then Some (新网格 宽 高 单格 (repeat (repeat 空点 (Z.to_nat 宽)) (Z.to_nat 高)))
  else None.

Definition 要插入 (格 : 网格) (此点 : 点) : option 网格 :=
  match 图像到网格 此点 (单格_ 格) with
  | None => None
  | Some g =>
      match vec_get (网格_ 格) (格_x g) with
      | None => None
      | Some row =>
          match vec_set row (格_y g) 此点 with
          | None => None
          | Some row' =>
              option_map (新网格 (宽_ 格) (高_ 格) (单格_ 格))
                         (vec_set (网格_ 格) (格_x g) row')
          end
      end
  end.

(** The number of neighbouring cells scanned on each side. *)
Definition D : Z := 5.

(** [c - D, ..., c + D], in the order the loops visit them. *)
Definition 邻域 (c : Z) : list Z :=
  map (fun k => c - D + Z.of_nat k) (seq 0 (Z.to_nat (2 * D + 1))).

Fixpoint 扫描 (格 : 网格) (此点 : 点) (最小距离 : float) (cells : list (Z * Z))
  : option bool :=
  match cells with
  | [] => Some false
  | (i, j) :: rest =>
      if (0 <=? i) && (i <? 宽_ 格) && (0 <=? j) && (j <? 高_ 格) then
        match vec_get (网格_ 格) i with
        | None => None
        | Some row =>
            match vec_get row j with
            | None => None
            | Some P =>
                if 是有效的 P && flt (获取距离 P 此点) 最小距离 then Some true
                else 扫描 格 此点 最小距离 rest
            end
        end
      else 扫描 格 此点 最小距离 rest
  end.

(** The counter of [for (int i = c - D; i <= c + D; i++)] is an [int]: it
    starts at [c - D], is compared with [c + D] and leaves the loop at
    [c + D + 1].  Signed overflow is undefined, so the loop is defined when
    these fit the type.  (A scan that returns early does not reach the last
    increment; the difference shows at [c + D = INT_MAX] only, and an index
    computed by [图像到网格] is at most [2 ^ 31 - 128], lemma
    [图像到网格_范围].) *)
Definition 计数器有定义 (c : Z) : bool :=
  (- 2 ^ 31 <=? c - D) && (c + D + 1 <? 2 ^ 31).

Definition 要是在邻近区域内 (格 : 网格) (此点 : 点) (最小距离 单格尺寸 : float)
  : option bool :=
  match 图像到网格 此点 单格尺寸 with
  | None => None
  | Some g =>
      if 计数器有定义 (格_x g) && 计数器有定义 (格_y g)
      then 扫描 格 此点 最小距离 (list_prod (邻域 (格_x g)) (邻域 (格_y g)))
      else None
  end.

(* ------------------------------------------------------------------ *)
(** ** The Poisson-disk sampler *)

Section Samplers.
  Context {G : Type} `{PRNG G}.
  Variable libm : Libm.

  Local Open Scope sampler_scope.

Definition 随机取出 (点集 : list 点) : M G (点 * list 点) :=
    v <- draw_int (wrap32 (to_signed32 (Z.of_nat (length 点集)) - 1)) ;;
    let 索引 := to_signed32 v in
    p <- defined (vec_get 点集 索引) ;;
    ret (p, vec_erase 点集 索引).

Definition 在周围生成随机点 (中心点 : 点) (最小距离 : float) : M G 点 :=
    R1 <- draw_float ;;
    R2 <- draw_float ;;
    let 半径 := F32.mul 最小距离 (F32.add R1 f_one) in
    let 角度 := F32.mul (F32.mul (F32.of_Z 2) f_pi) R2 in
    let x := F32.add (点_x 中心点) (F32.mul 半径 (cosf libm 角度)) in
    let y := F32.add (点_y 中心点) (F32.mul 半径 (sinf libm 角度)) in
    ret (点_of x y).

  (** [点数量 *= 2], then the [PI/4] estimate under [!是圆形]. *)
Definition 目标点数 (点数量 : Z) (是圆形 : bool) : option Z :=
    let n := wrap32 (点数量 * 2) in
    if negb 是圆形
    then option_map wrap32 (to_int (F64.mul d_Pi_4 (F64.of_Z n)))
    else Some n.

  (** The minimal distance in force: a negative argument selects the
      estimate [sqrt(n) / n]. *)
Definition 有效最小距离 (n : Z) (最小距离 : float) : float :=
    if flt 最小距离 f_zero
    then F32.div (F32.sqrt (F32.of_Z n)) (F32.of_Z n)
    else 最小距离.

Definition 单格尺寸_of (最小距离 : float) : float :=
    F32.div 最小距离 (F32.sqrt f_two).

Definition 网格边长 (单格尺寸 : float) : option Z :=
    to_int (F32.ceil (F32.div f_one 单格尺寸)).

  (** The [do ... while] that draws the first point. *)
Fixpoint 首个点 (fuel : nat) (是圆形 : bool) : M G 点 :=
    match fuel with
    | O => fun _ => OutOfFuel
    | S fuel' =>
        X <- draw_float ;;
        Y <- draw_float ;;
        let p := 点_of X Y in
        if 在区域内 是圆形 p then ret p else 首个点 fuel' 是圆形
    end.

  (** The three containers the main loop updates. *)
Record 状态 : Type := 新状态 {
    待处理列表 : list 点;
    采样点集 : list 点;
    网格值 : 网格
  }.

  (** One pass of the [for] body: a candidate around [当前点], kept when it
      is in the region and no grid point of its neighbourhood is closer
      than [最小距离]. *)
Definition 尝试新点 (是圆形 : bool) (最小距离 单格尺寸 : float) (当前点 : 点)
             (st : 状态) : M G 状态 :=
    新点 <- 在周围生成随机点 当前点 最小距离 ;;
    if 在区域内 是圆形 新点 then
      near <- defined (要是在邻近区域内 (网格值 st) 新点 最小距离 单格尺寸) ;;
      if negb near then
        格 <- defined (要插入 (网格值 st) 新点) ;;
        ret (新状态 (待处理列表 st ++ [新点]) (采样点集 st ++ [新点]) 格)
      else ret st
    else ret st.

  (** [for (uint32_t i = 0; i < 新增点数量; i++)]. *)
Fixpoint 新增循环 (i : nat) (是圆形 : bool) (最小距离 单格尺寸 : float)
           (当前点 : 点) (st : 状态) : M G 状态 :=
    match i with
    | O => ret st
    | S i' =>
        st' <- 尝试新点 是圆形 最小距离 单格尺寸 当前点 st ;;
        新增循环 i' 是圆形 最小距离 单格尺寸 当前点 st'
    end.

  (** [while (!待处理列表.empty() && 采样点集.size() <= 点数量)]. *)
Definition 继续 (点数量 : Z) (st : 状态) : bool :=
    negb (Nat.eqb (length (待处理列表 st)) 0)
    && (Z.of_nat (length (采样点集 st)) <=? 点数量).

Fixpoint 主循环 (fuel : nat) (点数量 : Z) (是圆形 : bool) (新增点数量 : Z)
           (最小距离 单格尺寸 : float) (st : 状态) : M G (list 点) :=
    if 继续 点数量 st then
      match fuel with
      | O => fun _ => OutOfFuel
      | S fuel' =>
          ' (当前点, rest) <- 随机取出 (待处理列表 st) ;;
          st' <- 新增循环 (Z.to_nat 新增点数量) 是圆形 最小距离 单格尺寸 当前点
                   (新状态 rest (采样点集 st) (网格值 st)) ;;
          主循环 fuel' 点数量 是圆形 新增点数量 最小距离 单格尺寸 st'
      end
    else ret (采样点集 st).

Definition 生成泊松点集 (fuel : nat) (点数量 : Z) (是圆形 : bool)
             (新增点数量 : Z) (最小距离 : float) : M G (list 点) :=
    n <- defined (目标点数 点数量 是圆形) ;;
    let 最小距离 := 有效最小距离 n 最小距离 in
    if n =? 0 then ret []
    else
      let 单格尺寸 := 单格尺寸_of 最小距离 in
      网格宽 <- defined (网格边长 单格尺寸) ;;
      网格高 <- defined (网格边长 单格尺寸) ;;
      格 <- defined (网格_构造 网格宽 网格高 单格尺寸) ;;
      首个 <- 首个点 fuel 是圆形 ;;
      格 <- defined (要插入 格 首个) ;;
      主循环 fuel n 是圆形 新增点数量 最小距离 单格尺寸
        (新状态 [首个] [首个] 格).

  (* ---------------------------------------------------------------- *)
  (** ** Vogel disk *)

Definition 采样Vogel盘 (索引 点数量 : Z) (角度 : float) : 点 :=
    let 半径 := F32.div (F32.sqrt (F32.add (F32.of_Z 索引) f_half))
                        (F32.sqrt (F32.of_Z 点数量)) in
    let 新角度 := F32.add (F32.mul (F32.of_Z 索引) f_golden) 角度 in
    点_of (F32.mul 半径 (cosf libm 新角度)) (F32.mul 半径 (sinf libm 新角度)).

  (** The indices [0, ..., n - 1] of a loop [for (i = 0; i != n; i++)]. *)
Definition 下标 (n : Z) : list Z := map Z.of_nat (seq 0 (Z.to_nat n)).

Definition 生成Vogel点集 (点数量 : Z) (是圆形 : bool) (角度 : float)
             (中心点 : 点) : list 点 :=
    let 采样数 := if 是圆形 then wrap32 (4 * 点数量) else 点数量 in
    map (fun i =>
           点_加 (采样Vogel盘 i 采样数 (F32.div (F32.mul 角度 f_pi) f_180)) 中心点)
        (下标 点数量).

  (* ---------------------------------------------------------------- *)
  (** ** Jittered grid *)

  (** The [do ... while] that jitters the cell [(x, y)] until the point
      falls in the unit square. *)
Fixpoint 抖动 (fuel : nat) (x y 网格尺寸 : Z) (抖动半径 : float) (中心点 : 点)
    : M G 点 :=
    match fuel with
    | O => fun _ => OutOfFuel
    | S fuel' =>
        r <- 在周围生成随机点 (点_of f_zero f_zero) 抖动半径 ;;
        let 偏移点 := 点_加 (点_减 r 中心点) (点_of f_half f_half) in
        let 新点 := 点_加 (点_of (F32.div (F32.of_Z x) (F32.of_Z 网格尺寸))
                                 (F32.div (F32.of_Z y) (F32.of_Z 网格尺寸)))
                          偏移点 in
        if 要是在矩形内 新点 then ret 新点
        else 抖动 fuel' x y 网格尺寸 抖动半径 中心点
    end.

  (** The two nested loops, over the cells in the order they are visited. *)
Fixpoint 抖动循环 (fuel : nat) (cells : list (Z * Z)) (网格尺寸 : Z)
           (是圆形 : bool) (抖动半径 : float) (中心点 : 点) (采样点集 : list 点)
    : M G (list 点) :=
    match cells with
    | [] => ret 采样点集
    | (x, y) :: rest =>
        新点 <- 抖动 fuel x y 网格尺寸 抖动半径 中心点 ;;
        抖动循环 fuel rest 网格尺寸 是圆形 抖动半径 中心点
          (if 是圆形 && negb (要是在圆形内 新点) then 采样点集
           else 采样点集 ++ [新点])
    end.

Definition 生成抖动网格点集 (fuel : nat) (点数量 : Z) (是圆形 : bool)
             (抖动半径 : float) (中心点 : 点) : M G (list 点) :=
    网格尺寸 <- defined (to_u32 (F64.sqrt (F64.of_Z 点数量))) ;;
    抖动循环 fuel (list_prod (下标 网格尺寸) (下标 网格尺寸)) 网格尺寸
      是圆形 抖动半径 中心点 [].
End Samplers.

(** *** With [double sqrt(double)] alone

    The three expressions of the header that call [sqrt] on a [float],
    read with the [double] function: the argument is converted, a division
    by the root is done in [double], and the value is rounded when it is
    stored in, or returned as, a [float]. *)
Definition 获取距离_双精度 (起点 终点 : 点) : float :=
  let dx := F32.sub (点_x 起点) (点_x 终点) in
  let dy := F32.sub (点_y 起点) (点_y 终点) in
  F32.of_float (F64.sqrt (F64.of_float (F32.add (F32.mul dx dx) (F32.mul dy dy)))).

Definition 有效最小距离_双精度 (n : Z) (最小距离 : float) : float :=
  if flt 最小距离 f_zero
  then F32.of_float (F64.div (F64.sqrt (F64.of_float (F32.of_Z n)))
                             (F64.of_float (F32.of_Z n)))
  else 最小距离.

Definition 单格尺寸_双精度 (最小距离 : float) : float :=
  F32.of_float (F64.div (F64.of_float 最小距离) (F64.sqrt (F64.of_float f_two))).

(* ------------------------------------------------------------------ *)
(** ** Hammersley points *)

Definition radicalInverse_VdC (bits : Z) : float :=
  let bits := wrap32 (Z.lor (Z.shiftl bits 16) (Z.shiftr bits 16)) in
  let bits := wrap32 (Z.lor (Z.shiftl (Z.land bits 0x55555555) 1)
                            (Z.shiftr (Z.land bits 0xAAAAAAAA) 1)) in
  let bits := wrap32 (Z.lor (Z.shiftl (Z.land bits 0x33333333) 2)
                            (Z.shiftr (Z.land bits 0xCCCCCCCC) 2)) in
  let bits := wrap32 (Z.lor (Z.shiftl (Z.land bits 0x0F0F0F0F) 4)
                            (Z.shiftr (Z.land bits 0xF0F0F0F0) 4)) in
  let bits := wrap32 (Z.lor (Z.shiftl (Z.land bits 0x00FF00FF) 8)
                            (Z.shiftr (Z.land bits 0xFF00FF00) 8)) in
  F32.of_float (F64.mul (F32.of_Z bits) d_2p_32).

Definition hammersley2d (i N : Z) : 点 :=
  点_of (F32.div (F32.of_Z i) (F32.of_Z N)) (radicalInverse_VdC i).

Definition 生成Hammersley点集 (点数量 : Z) : list 点 :=
  map (fun i => hammersley2d i 点数量) (下标 点数量).

(* ------------------------------------------------------------------ *)
(** ** A libm for concrete runs

    Closed statements need some [Libm].  This one has the values Annex F
    fixes (at zeros, infinities and NaN) and the leading terms of the Taylor
    series elsewhere.  The runs evaluated below consult [cos] and [sin] at
    +0 only, where every [Libm] agrees (see [生成泊松点集_seed0] and
    [生成Vogel点集_one]). *)

Definition cos_model (x : float) : float :=
  match x with
  | S754_zero _ => f_one
  | S754_finite _ _ _ => F32.sub f_one (F32.mul f_half (F32.mul x x))
  | _ => S754_nan
  end.

Definition sin_model (x : float) : float :=
  match x with
  | S754_zero _ => x
  | S754_finite _ _ _ =>
      F32.sub x (F32.div (F32.mul x (F32.mul x x)) (F32.of_Z 6))
  | _ => S754_nan
  end.

Definition libm_model : Libm :=
  {| cosf := cos_model; sinf := sin_model;
     cosf_zero := eq_refl; sinf_zero := eq_refl |}.

(** [DefaultPRNG(0)]: the multiplicative step keeps the seed 0, and every
    draw is 0. *)
Definition seed0 : DefaultPRNG.t := DefaultPRNG.Build 0.

(* ------------------------------------------------------------------ *)
(** ** Specification-level definitions

    What the theorems below compare the code with: the arithmetic of
    rounding to nearest even, the mantissa and exponent of a converted
    integer, the reversal of a word, and the predicates of the claims. *)

(** Round to nearest, ties to even, of [m / 2 ^ n] (for [1 <= n]). *)
Definition rne (m n : Z) : Z :=
  let q := m / 2 ^ n in
  let r := m mod 2 ^ n in
  if (2 ^ (n - 1) <? r) || ((r =? 2 ^ (n - 1)) && Z.odd q) then q + 1 else q.

(** The final case analysis of [binary_round_aux]. *)
Definition mk_float (prec emax : Z) (s : bool) (M E : Z) : float :=
  match M with
  | Z0 => S754_zero s
  | Zpos q => if E <=? emax - prec then S754_finite s q E else S754_infinity s
  | Zneg _ => S754_nan
  end.

(** The 23 low bits of the updated seed: the mantissa [randomFloat] uses. *)
Definition mantissa (g : DefaultPRNG.t) : Z :=
  Z.land (wrap32 (DefaultPRNG.seed_ g * 521167)) 0x007fffff.

(** Mantissa and exponent of [float(b)], for [0 < b < 2 ^ 32]. *)
Definition norm32 (b : Z) : Z * Z :=
  let d := Z.log2 b + 1 in
  if d <=? 24 then (b * 2 ^ (24 - d), d - 24)
  else
    let M := rne b (d - 24) in
    if M <? 2 ^ 24 then (M, d - 24) else (2 ^ 23, d - 23).

(** The mantissa of a normal binary32 number. *)
Definition normal32 (p : positive) : Prop := 2 ^ 23 <= Zpos p < 2 ^ 24.

(** [0 <= x <= 1], with the comparisons of the code. *)
Definition le_one (x : float) : Prop := fle f_zero x = true /\ fle x f_one = true.

(** The scaling [float(float(bits) * 2.3283064365386963e-10)] that ends
    [radicalInverse_VdC]. *)
Definition scale32 (bits : Z) : float :=
  F32.of_float (F64.mul (F32.of_Z bits) d_2p_32).

(** The [w]-bit word [b] with its bits in the opposite order. *)
Fixpoint bitrev (w : nat) (b : Z) : Z :=
  match w with
  | O => 0
  | S w' => Z.lor (Z.shiftl (Z.b2z (Z.testbit b 0)) (Z.of_nat w'))
                  (bitrev w' (Z.shiftr b 1))
  end.

(** The five stages of the swap network of [radicalInverse_VdC]. *)
Definition swap16 (x : Z) : Z := wrap32 (Z.lor (Z.shiftl x 16) (Z.shiftr x 16)).

Definition swap (lo hi s x : Z) : Z :=
  wrap32 (Z.lor (Z.shiftl (Z.land x lo) s) (Z.shiftr (Z.land x hi) s)).

(** The mantissa of the double [Pi_4]: [Pi_4 = Pi_4_mantissa / 2 ^ 53]. *)
Definition Pi_4_mantissa : Z := 7074237752028440.

(** Every point of a sequence passes the region test. *)
Definition 全在区域内 (c : bool) (l : list 点) : Prop :=
  Forall (fun p => 在区域内 c p = true) l.

(** What the jittered grid keeps: points of the unit square, and of the
    circle when [是圆形]. *)
Definition 保留 (c : bool) (p : 点) : Prop :=
  要是在矩形内 p = true /\ 在区域内 c p = true.

(** The point [(0.5 + sqrt(0.5), 0.5)] of the Vogel spiral. *)
Definition Vogel_第一点 : 点 := 点_of (S754_finite false 10125946 (-23)) f_half.

Definition f_three_quarters : float := S754_finite false 12582912 (-24).

(** *** Tactics for bit-level goals *)

(** Evaluates the closed indices of [Z.testbit]. *)
Ltac closed_index :=
  repeat match goal with
  | |- context [Z.testbit ?a (?k - ?s)] =>
      let n := eval vm_compute in (k - s) in change (k - s) with n
  | |- context [Z.testbit ?a (?k + ?s)] =>
      let n := eval vm_compute in (k + s) in change (k + s) with n
  | |- context [Z.testbit ?a (Z.lxor ?k ?s)] =>
      let n := eval vm_compute in (Z.lxor k s) in change (Z.lxor k s) with n
  end.

(** Evaluates the bits of constant masks and the bits of negative index. *)
Ltac closed_mask :=
  repeat match goal with
  | |- context [Z.testbit (Zpos ?p) ?n] =>
      let v := eval vm_compute in (Z.testbit (Zpos p) n) in
      change (Z.testbit (Zpos p) n) with v
  | |- context [Z.testbit ?a (Zneg ?p)] =>
      rewrite (Z.testbit_neg_r a (Zneg p)) by lia
  end.

(** One goal for each bit position of a 32-bit word. *)
Ltac each_bit k :=
  let H := fresh in
  assert (H : k = 0 \/ k = 1 \/ k = 2 \/ k = 3 \/ k = 4 \/ k = 5 \/ k = 6 \/ k = 7
           \/ k = 8 \/ k = 9 \/ k = 10 \/ k = 11 \/ k = 12 \/ k = 13 \/ k = 14
           \/ k = 15 \/ k = 16 \/ k = 17 \/ k = 18 \/ k = 19 \/ k = 20 \/ k = 21
           \/ k = 22 \/ k = 23 \/ k = 24 \/ k = 25 \/ k = 26 \/ k = 27 \/ k = 28
           \/ k = 29 \/ k = 30 \/ k = 31) by lia;
  repeat (destruct H as [H|H]; [subst k|]); [..|subst k].

(* ------------------------------------------------------------------ *)
(** ** The grid, the sample set and the generator stream

    Definitions for the properties of the last part of the file. *)

(** The cell [网格_[i][j]], when it is allocated. *)
Definition 格子 (格 : 网格) (i j : Z) : option 点 :=
  match vec_get (网格_ 格) i with
  | Some row => vec_get row j
  | None => None
  end.

(** The grids the Poisson sampler builds: [n] rows of [n] cells, and both
    recorded dimensions equal to [n]. *)
Definition 方阵 (n : Z) (格 : 网格) : Prop :=
  宽_ 格 = n /\ 高_ 格 = n
  /\ Z.of_nat (length (网格_ 格)) = n
  /\ Forall (fun row => Z.of_nat (length row) = n) (网格_ 格).

(** The cells the scan around the cell [(cx, cy)] looks at: the 11 x 11
    window, cut by the test [i >= 0 && i < 宽_ && j >= 0 && j < 高_]. *)
Definition 窗口内 (格 : 网格) (cx cy i j : Z) : Prop :=
  cx - D <= i <= cx + D /\ cy - D <= j <= cy + D
  /\ 0 <= i < 宽_ 格 /\ 0 <= j < 高_ 格.

(** A valid sample stored in the cell [(i, j)] that the distance test of
    the scan finds closer than [最小距离] to [此点]. *)
Definition 过近 (格 : 网格) (此点 : 点) (最小距离 : float) (i j : Z) : Prop :=
  exists P, 格子 格 i j = Some P /\ 是有效的 P = true
            /\ flt (获取距离 P 此点) 最小距离 = true.

(** The separation the grid records: two valid samples stored in different
    cells that the scan of one would reach from the other are not closer
    than [最小距离], as the code measures it. *)
Definition 分离 (最小距离 : float) (格 : 网格) : Prop :=
  forall i j i' j' P Q,
    格子 格 i j = Some P -> 格子 格 i' j' = Some Q ->
    是有效的 P = true -> 是有效的 Q = true ->
    (i, j) <> (i', j') ->
    窗口内 格 i j i' j' -> 窗口内 格 i' j' i j ->
    flt (获取距离 P Q) 最小距离 = false.

(** A 2 x 2 grid of cells of size 0.5, and the point (0.25, 0.75). *)
Definition 小网格 : 网格 :=
  新网格 2 2 f_half [[空点; 空点]; [空点; 空点]].
Definition 小点 : 点 := 点_of f_quarter (S754_finite false 12582912 (-24)).

(** The point (- 2 ^ 30, 0), far to the left: with cells of size 0.5 its
    row index is [- 2 ^ 31], the least [int]. *)
Definition 远点 : 点 := 点_of (S754_finite true 8388608 7) f_zero.

(** The point falls in one of the [n] x [n] cells of size [cell]. *)
Definition 在网格内 (n : Z) (cell : float) (p : 点) : Prop :=
  exists c, 图像到网格 p cell = Some c
            /\ 0 <= 格_x c < n /\ 0 <= 格_y c < n.

(** What the main loop of the Poisson sampler keeps of its sample set and
    its grid. *)
Definition 采样不变式 (n : Z) (d cell : float) (out : list 点) (格 : 网格)
  : Prop :=
  方阵 n 格 /\ 单格_ 格 = cell /\ 分离 d 格
  /\ Forall (fun p => 是有效的 p = true /\ 在网格内 n cell p) out
  /\ (NoDup (map (fun p => 图像到网格 p cell) out) ->
      forall p c, In p out -> 图像到网格 p cell = Some c ->
                  格子 格 (格_x c) (格_y c) = Some p).

(** The generator after [n] calls of [randomFloat]. *)
Definition 连续取 (n : nat) (g : DefaultPRNG.t) : DefaultPRNG.t :=
  Nat.iter n (fun g => snd (DefaultPRNG.randomFloat g)) g.

(** [a ^ (2 ^ k) mod m], by [k] squarings. *)
Fixpoint 连续平方 (k : nat) (a m : Z) : Z :=
  match k with
  | O => a mod m
  | S k' => let x := 连续平方 k' a m in (x * x) mod m
  end.

(* ================================================================== *)
(** * Reasoning in the monad, and the structure of the samplers *)

(** ** Reasoning in the monad *)

Lemma bind_Ok {G A B} (m : M G A) (k : A -> M G B) g r :
  bind m k g = Ok r -> exists a g', m g = Ok (a, g') /\ k a g' = Ok r.
Proof.
  unfold bind. destruct (m g) as [[a g']| |]; intros E; try discriminate.
  now exists a, g'.
Qed.

Lemma ret_Ok {G A} (a : A) (g : G) r : ret a g = Ok r -> (a, g) = r.
Proof. unfold ret. now intros [= <-]. Qed.

Lemma defined_Ok {G A} (o : option A) (g : G) a g' :
  defined o g = Ok (a, g') -> o = Some a /\ g' = g.
Proof. unfold defined. destruct o; intros [= <- <-]; auto. Qed.

Tactic Notation "bind_inv" hyp(E) "as" simple_intropattern(pat) :=
  apply bind_Ok in E as pat; cbv beta zeta in *.

Section Structure.
  Context {G : Type} `{PRNG G}.
  Variable libm : Libm.

  (** *** The first point *)

Lemma 首个点_在区域内 fuel c g p g' :
    首个点 fuel c g = Ok (p, g') -> 在区域内 c p = true.
  Proof.
    revert g. induction fuel as [|fuel IH]; intros g E; cbn [首个点] in E;
      [discriminate|].
    bind_inv E as (X & g1 & _ & E). bind_inv E as (Y & g2 & _ & E).
    revert E; destruct (在区域内 c (点_of X Y)) eqn:R; intros E; [|eauto].
    apply ret_Ok in E. now injection E as <- <-.
  Qed.

Lemma 首个点_mono fuel fuel' c g r :
    (fuel <= fuel')%nat -> 首个点 fuel c g = Ok r -> 首个点 fuel' c g = Ok r.
  Proof.
    revert fuel' g. induction fuel as [|fuel IH]; intros fuel' g Hle E;
      cbn [首个点] in E; [discriminate|].
    destruct fuel' as [|fuel']; [lia|]. cbn [首个点].
    unfold bind in *. destruct (draw_float g) as [[X g1]| |]; try discriminate.
    destruct (draw_float g1) as [[Y g2]| |]; try discriminate.
    destruct (在区域内 c (点_of X Y)); [assumption|]. apply IH; [lia|assumption].
  Qed.

Lemma 尝试新点_spec c d cell cur st g st' g' :
    尝试新点 libm c d cell cur st g = Ok (st', g') ->
    st' = st \/
    exists p 格, 在区域内 c p = true
      /\ 要是在邻近区域内 (网格值 st) p d cell = Some false
      /\ 要插入 (网格值 st) p = Some 格
      /\ st' = 新状态 (待处理列表 st ++ [p]) (采样点集 st ++ [p]) 格.
  Proof.
    unfold 尝试新点. intros E. bind_inv E as (p & g1 & _ & E).
    revert E; destruct (在区域内 c p) eqn:R; intros E.
    - bind_inv E as (near & g2 & E1 & E). apply defined_Ok in E1 as [E1 _].
      destruct near; cbn [negb] in E |- *.
      + apply ret_Ok in E. left. now injection E.
      + bind_inv E as (格 & g3 & E2 & E). apply defined_Ok in E2 as [E2 _].
        apply ret_Ok in E. injection E as <- <-.
        right. exists p, 格. auto.
    - apply ret_Ok in E. left. now injection E.
  Qed.

Lemma 新增循环_spec i c d cell cur : forall st g st' g',
    新增循环 libm i c d cell cur st g = Ok (st', g') ->
    (length (采样点集 st) <= length (采样点集 st') <= length (采样点集 st) + i)%nat
    /\ (全在区域内 c (采样点集 st) -> 全在区域内 c (采样点集 st')).
  Proof.
    induction i as [|i IH]; intros st g st' g' E; cbn [新增循环] in E.
    - apply ret_Ok in E. injection E as <- <-. repeat split; auto; lia.
    - bind_inv E as (st1 & g1 & E0 & E1).
      apply IH in E1. destruct E1 as (Hlen & Hreg).
      apply 尝试新点_spec in E0. destruct E0 as [->|(p & 格 & R & _ & _ & ->)].
      + repeat split; auto; lia.
      + cbn [采样点集] in *. rewrite !length_app in *. cbn [length] in *.
        repeat split; try lia.
        intros Hall. apply Hreg. apply Forall_app. split; auto.
  Qed.

  (** *** The main loop *)

Lemma 主循环_spec fuel n c k d cell : forall st g out g',
    主循环 libm fuel n c k d cell st g = Ok (out, g') ->
    (Z.of_nat (length (采样点集 st)) <= n + Z.of_nat (Z.to_nat k) ->
     Z.of_nat (length out) <= n + Z.of_nat (Z.to_nat k))
    /\ (全在区域内 c (采样点集 st) -> 全在区域内 c out).
  Proof.
    induction fuel as [|fuel IH]; intros st g out g' E; cbn [主循环] in E.
    - destruct (继续 n st); [discriminate|]. apply ret_Ok in E.
      injection E as <- <-. auto.
    - destruct (继续 n st) eqn:C.
      + bind_inv E as ([cur rest] & g1 & _ & E).
        bind_inv E as (st1 & g2 & E1 & E2).
        apply IH in E2. destruct E2 as (Hlen & Hreg).
        apply 新增循环_spec in E1. cbn [采样点集] in E1.
        destruct E1 as (Hl & Hr).
        unfold 继续 in C. apply andb_true_iff in C. destruct C as [_ C].
        apply Z.leb_le in C.
        split; [intros _; apply Hlen; lia | auto].
      + apply ret_Ok in E. injection E as <- <-. auto.
  Qed.

Lemma 主循环_mono fuel n c k d cell : forall fuel' st g r,
    (fuel <= fuel')%nat ->
    主循环 libm fuel n c k d cell st g = Ok r ->
    主循环 libm fuel' n c k d cell st g = Ok r.
  Proof.
    induction fuel as [|fuel IH]; intros fuel' st g r Hle E.
    - cbn [主循环] in E. destruct fuel'; cbn [主循环];
        destruct (继续 n st); try discriminate; auto.
    - destruct fuel' as [|fuel']; [lia|]. cbn [主循环] in E |- *.
      destruct (继续 n st); [|assumption].
      unfold bind in *.
      destruct (随机取出 (待处理列表 st) g) as [[[cur rest] g1]| |]; try discriminate.
      destruct (新增循环 libm (Z.to_nat k) c d cell cur _ g1) as [[st' g2]| |];
        try discriminate.
      apply IH; [lia|assumption].
  Qed.

  (** *** The whole sampler *)

Lemma 生成泊松点集_inv fuel 点数量 c k d g out g' :
    生成泊松点集 libm fuel 点数量 c k d g = Ok (out, g') ->
    exists n, 目标点数 点数量 c = Some n /\
      ((n = 0 /\ out = [] /\ g' = g) \/
       (n <> 0 /\ exists 首个 g1 格,
          首个点 fuel c g = Ok (首个, g1) /\
          主循环 libm fuel n c k (有效最小距离 n d) (单格尺寸_of (有效最小距离 n d))
            (新状态 [首个] [首个] 格) g1 = Ok (out, g'))).
  Proof.
    unfold 生成泊松点集. intros E.
    bind_inv E as (n & g0 & E0 & E). apply defined_Ok in E0 as [E0 ->].
    exists n. split; [assumption|].
    destruct (n =? 0) eqn:Z0.
    - apply Z.eqb_eq in Z0. apply ret_Ok in E. injection E as <- <-. left. auto.
    - apply Z.eqb_neq in Z0. right. split; [assumption|].
      bind_inv E as (w & g1 & E1 & E). apply defined_Ok in E1 as [_ ->].
      bind_inv E as (h & g2 & E2 & E). apply defined_Ok in E2 as [_ ->].
      bind_inv E as (格0 & g3 & E3 & E). apply defined_Ok in E3 as [_ ->].
      bind_inv E as (首个 & g4 & E4 & E).
      bind_inv E as (格 & g5 & E5 & E). apply defined_Ok in E5 as [_ ->].
      exists 首个, g4, 格. auto.
  Qed.

Lemma 生成泊松点集_mono fuel fuel' 点数量 c k d g r :
    (fuel <= fuel')%nat ->
    生成泊松点集 libm fuel 点数量 c k d g = Ok r ->
    生成泊松点集 libm fuel' 点数量 c k d g = Ok r.
  Proof.
    unfold 生成泊松点集. intros Hle E. unfold bind at 1 in E. unfold bind at 1.
    destruct (defined (目标点数 点数量 c) g) as [[n g0]| |]; try discriminate.
    destruct (n =? 0); [assumption|].
    unfold bind in *.
    destruct (defined (网格边长 _) g0) as [[w g1]| |]; try discriminate.
    destruct (defined (网格边长 _) g1) as [[h g2]| |]; try discriminate.
    destruct (defined (网格_构造 w h _) g2) as [[格0 g3]| |]; try discriminate.
    destruct (首个点 fuel c g3) as [[首个 g4]| |] eqn:F; try discriminate.
    rewrite (首个点_mono _ _ _ _ _ Hle F).
    destruct (defined (要插入 格0 首个) g4) as [[格 g5]| |]; try discriminate.
    eapply 主循环_mono; eassumption.
  Qed.
End Structure.

Section Jitter.
  Context {G : Type} `{PRNG G}.
  Variable libm : Libm.

Lemma 抖动_在矩形内 fuel x y size r c : forall g p g',
    抖动 libm fuel x y size r c g = Ok (p, g') -> 要是在矩形内 p = true.
  Proof.
    induction fuel as [|fuel IH]; intros g p g' E; cbn [抖动] in E; [discriminate|].
    bind_inv E as (q & g1 & _ & E).
    match type of E with
    | (if ?b then _ else _) _ = _ => destruct b eqn:R
    end; [|eauto].
    apply ret_Ok in E. now injection E as <- <-.
  Qed.

Lemma 抖动_mono fuel x y size r c : forall fuel' g res,
    (fuel <= fuel')%nat ->
    抖动 libm fuel x y size r c g = Ok res ->
    抖动 libm fuel' x y size r c g = Ok res.
  Proof.
    induction fuel as [|fuel IH]; intros fuel' g res Hle E; cbn [抖动] in E;
      [discriminate|].
    destruct fuel' as [|fuel']; [lia|]. cbn [抖动]. unfold bind in *.
    destruct (在周围生成随机点 libm _ r g) as [[q g1]| |]; try discriminate.
    cbv zeta in *.
    match type of E with
    | (if ?b then _ else _) _ = _ => destruct b
    end; [assumption|]. apply IH; [lia|assumption].
  Qed.

Lemma 抖动循环_spec fuel size c r ctr : forall cells acc g out g',
    抖动循环 libm fuel cells size c r ctr acc g = Ok (out, g') ->
    Forall (保留 c) acc -> Forall (保留 c) out.
  Proof.
    induction cells as [|[x y] cells IH]; intros acc g out g' E Hacc;
      cbn [抖动循环] in E.
    - apply ret_Ok in E. now injection E as <- <-.
    - bind_inv E as (p & g1 & E1 & E). apply 抖动_在矩形内 in E1.
      apply IH in E; [assumption|].
      destruct c; cbn [andb].
      + destruct (要是在圆形内 p) eqn:C; cbn [negb]; [|assumption].
        apply Forall_app. split; [assumption|]. constructor; [|constructor].
        split; assumption.
      + apply Forall_app. split; [assumption|]. constructor; [|constructor].
        split; assumption.
  Qed.

Lemma 抖动循环_mono fuel fuel' size c r ctr : forall cells acc g res,
    (fuel <= fuel')%nat ->
    抖动循环 libm fuel cells size c r ctr acc g = Ok res ->
    抖动循环 libm fuel' cells size c r ctr acc g = Ok res.
  Proof.
    induction cells as [|[x y] cells IH]; intros acc g res Hle E;
      cbn [抖动循环] in E |- *; [assumption|].
    unfold bind in *.
    destruct (抖动 libm fuel x y size r ctr g) as [[p g1]| |] eqn:J; try discriminate.
    rewrite (抖动_mono _ _ _ _ _ _ _ _ _ Hle J). apply IH; assumption.
  Qed.

Lemma 生成抖动网格点集_spec fuel n c r ctr g out g' :
    生成抖动网格点集 libm fuel n c r ctr g = Ok (out, g') -> Forall (保留 c) out.
  Proof.
    unfold 生成抖动网格点集. intros E. bind_inv E as (size & g1 & _ & E).
    eapply 抖动循环_spec; [eassumption|constructor].
  Qed.

Lemma 生成抖动网格点集_mono fuel fuel' n c r ctr g res :
    (fuel <= fuel')%nat ->
    生成抖动网格点集 libm fuel n c r ctr g = Ok res ->
    生成抖动网格点集 libm fuel' n c r ctr g = Ok res.
  Proof.
    unfold 生成抖动网格点集. intros Hle E. unfold bind in *.
    destruct (defined _ g) as [[size g1]| |]; try discriminate.
    eapply 抖动循环_mono; eassumption.
  Qed.
End Jitter.

(* ================================================================== *)
(** * Rounding to nearest even *)

(** ** Digits *)

Lemma digits2_pos_bounds (p : positive) :
  2 ^ (Zpos (digits2_pos p) - 1) <= Zpos p < 2 ^ Zpos (digits2_pos p).
Proof.
  induction p as [p IH|p IH|]; cbn [digits2_pos]; [| |cbn; lia];
    rewrite Pos2Z.inj_succ;
    replace (Z.succ (Zpos (digits2_pos p)) - 1) with (Z.succ (Zpos (digits2_pos p) - 1)) by lia;
    rewrite !Z.pow_succ_r by lia;
    generalize dependent (2 ^ (Zpos (digits2_pos p) - 1));
    generalize dependent (2 ^ Zpos (digits2_pos p)); intros; lia.
Qed.

Lemma digits2_pos_unique (p : positive) (d : Z) :
  2 ^ (d - 1) <= Zpos p < 2 ^ d -> Zpos (digits2_pos p) = d.
Proof.
  intros [Hlo Hhi]. pose proof (digits2_pos_bounds p) as [Blo Bhi].
  assert (0 < d).
  { destruct (Z.ltb_spec 0 d); [assumption|].
    assert (2 ^ d <= 2 ^ 0) by (apply Z.pow_le_mono_r; lia). cbn in *. lia. }
  destruct (Z.lt_trichotomy (Zpos (digits2_pos p)) d) as [L|[E|L]]; [|assumption|].
  - assert (2 ^ Zpos (digits2_pos p) <= 2 ^ (d - 1)) by (apply Z.pow_le_mono_r; lia). lia.
  - assert (2 ^ d <= 2 ^ (Zpos (digits2_pos p) - 1)) by (apply Z.pow_le_mono_r; lia). lia.
Qed.

(** ** Shifting right *)

Lemma iter_pos_nat {A} (f : A -> A) (p : positive) (x : A) :
  iter_pos f p x = Nat.iter (Pos.to_nat p) f x.
Proof.
  revert x. induction p as [p IH|p IH|]; intros x; cbn [iter_pos].
  - rewrite !IH, Pos2Nat.inj_xI.
    replace (S (2 * Pos.to_nat p)) with (Pos.to_nat p + (Pos.to_nat p + 1))%nat by lia.
    rewrite !Nat.iter_add. reflexivity.
  - rewrite !IH, Pos2Nat.inj_xO.
    replace (2 * Pos.to_nat p)%nat with (Pos.to_nat p + Pos.to_nat p)%nat by lia.
    rewrite Nat.iter_add. reflexivity.
  - reflexivity.
Qed.

Lemma shr_1_spec (m : Z) (r s : bool) :
  0 <= m ->
  shr_1 (Build_shr_record m r s) = Build_shr_record (m / 2) (Z.odd m) (r || s).
Proof.
  intros Hm. rewrite <- Z.div2_div.
  destruct m as [|p|p]; [reflexivity| |lia]. destruct p; reflexivity.
Qed.

Lemma mod_pow2_succ (m k : Z) :
  0 <= k ->
  m mod 2 ^ (k + 1) = m mod 2 ^ k + 2 ^ k * (if Z.testbit m k then 1 else 0).
Proof.
  intros Hk. rewrite Z.pow_add_r, Z.pow_1_r by lia.
  rewrite Z.rem_mul_r by lia. f_equal. f_equal.
  rewrite Z.testbit_odd, Z.shiftr_div_pow2 by lia.
  rewrite Zmod_odd. reflexivity.
Qed.

Lemma iter_shr_1 (m : Z) (r s : bool) (k : nat) :
  0 <= m ->
  Nat.iter (S k) shr_1 (Build_shr_record m r s) =
  Build_shr_record (m / 2 ^ Z.of_nat (S k)) (Z.testbit m (Z.of_nat k))
                   (r || s || negb (m mod 2 ^ Z.of_nat k =? 0)).
Proof.
  intros Hm. induction k as [|k IH].
  - cbn [Nat.iter]. rewrite shr_1_spec by assumption.
    change (Z.of_nat 1) with 1. change (Z.of_nat 0) with 0.
    rewrite Z.pow_1_r, Z.pow_0_r, Z.mod_1_r, Z.bit0_odd. cbn. now rewrite orb_false_r.
  - change (Nat.iter (S (S k)) shr_1 ?x) with (shr_1 (Nat.iter (S k) shr_1 x)).
    rewrite IH, shr_1_spec by (apply Z.div_pos; lia).
    replace (Z.of_nat (S (S k))) with (Z.of_nat (S k) + 1) by lia.
    rewrite Z.pow_add_r, Z.pow_1_r, Z.div_div by lia.
    f_equal.
    + rewrite Z.testbit_odd, Z.shiftr_div_pow2 by lia. reflexivity.
    + replace (Z.of_nat (S k)) with (Z.of_nat k + 1) by lia.
      rewrite mod_pow2_succ by lia.
      pose proof (Z.mod_pos_bound m (2 ^ Z.of_nat k) ltac:(lia)).
      assert (0 < 2 ^ Z.of_nat k) by lia.
      destruct (Z.testbit m (Z.of_nat k)).
      * replace (_ + _ * 1 =? 0) with false by (symmetry; apply Z.eqb_neq; lia).
        cbn. now rewrite !orb_true_r.
      * rewrite Z.mul_0_r, Z.add_0_r. reflexivity.
Qed.

(** The rounding that [round_nearest_even] performs on a mantissa shifted
    right by [n >= 1] bits is [rne]. *)
Lemma round_shr (m : Z) (p : positive) :
  0 <= m ->
  let R := iter_pos shr_1 p (Build_shr_record m false false) in
  round_nearest_even (shr_m R) (loc_of_shr_record R) = rne m (Zpos p).
Proof.
  intros Hm R. subst R. rewrite iter_pos_nat.
  destruct (Pos2Nat.is_succ p) as [k Hk]. rewrite Hk.
  rewrite iter_shr_1 by assumption.
  assert (Hp : Zpos p = Z.of_nat k + 1) by lia.
  unfold rne. rewrite Hp. replace (Z.of_nat (S k)) with (Z.of_nat k + 1) by lia.
  replace (Z.of_nat k + 1 - 1) with (Z.of_nat k) by lia.
  rewrite (mod_pow2_succ m (Z.of_nat k)) by lia.
  pose proof (Z.mod_pos_bound m (2 ^ Z.of_nat k) ltac:(lia)) as Hb.
  set (h := 2 ^ Z.of_nat k) in *. set (lo := m mod h) in *.
  set (q := m / (2 ^ (Z.of_nat k + 1))).
  cbn [orb shr_m loc_of_shr_record].
  destruct (Z.testbit m (Z.of_nat k)); destruct (Z.eqb_spec lo 0) as [E|E];
    cbn [negb loc_of_shr_record round_nearest_even].
  - rewrite E, Z.mul_1_r, Z.add_0_l, Z.ltb_irrefl, Z.eqb_refl. cbn [orb andb].
    rewrite <- Z.negb_odd. destruct (Z.odd q); reflexivity.
  - replace (h <? lo + h * 1) with true by (symmetry; apply Z.ltb_lt; lia).
    reflexivity.
  - rewrite E, Z.mul_0_r, Z.add_0_l.
    replace (h <? 0) with false by (symmetry; apply Z.ltb_ge; lia).
    replace (0 =? h) with false by (symmetry; apply Z.eqb_neq; lia). reflexivity.
  - rewrite Z.mul_0_r, Z.add_0_r.
    replace (h <? lo) with false by (symmetry; apply Z.ltb_ge; lia).
    replace (lo =? h) with false by (symmetry; apply Z.eqb_neq; lia). reflexivity.
Qed.

(** ** Properties of [rne] *)

Lemma rne_bounds m n : m / 2 ^ n <= rne m n <= m / 2 ^ n + 1.
Proof. unfold rne. destruct (_ || _); lia. Qed.

Lemma rne_exact m n : 1 <= n -> m mod 2 ^ n = 0 -> rne m n = m / 2 ^ n.
Proof.
  intros Hn E. unfold rne. rewrite E.
  assert (0 < 2 ^ (n - 1)) by (apply Z.pow_pos_nonneg; lia).
  replace (2 ^ (n - 1) <? 0) with false by (symmetry; apply Z.ltb_ge; lia).
  replace (0 =? 2 ^ (n - 1)) with false by (symmetry; apply Z.eqb_neq; lia).
  reflexivity.
Qed.

Lemma rne_mono m m' n : 1 <= n -> m <= m' -> rne m n <= rne m' n.
Proof.
  intros Hn Hle. assert (P : 0 < 2 ^ n) by (apply Z.pow_pos_nonneg; lia).
  pose proof (Z.div_le_mono m m' (2 ^ n) P Hle) as Hq.
  destruct (Z.eq_dec (m / 2 ^ n) (m' / 2 ^ n)) as [E|N].
  - assert (Hr : m mod 2 ^ n <= m' mod 2 ^ n).
    { rewrite !Z.mod_eq by lia. rewrite E. lia. }
    unfold rne. rewrite E. destruct (Z.odd (m' / 2 ^ n));
      repeat match goal with
             | |- context [Z.ltb ?a ?b] => destruct (Z.ltb_spec a b)
             | |- context [Z.eqb ?a ?b] => destruct (Z.eqb_spec a b)
             end; cbn [orb andb]; lia.
  - pose proof (rne_bounds m n). pose proof (rne_bounds m' n). lia.
Qed.

(** The rounded mantissa is within half a unit of the exact quotient. *)
Lemma rne_error m n :
  1 <= n -> - 2 ^ (n - 1) <= 2 ^ n * rne m n - m <= 2 ^ (n - 1).
Proof.
  intros Hn. assert (P : 0 < 2 ^ (n - 1)) by (apply Z.pow_pos_nonneg; lia).
  assert (E2 : 2 ^ n = 2 * 2 ^ (n - 1)).
  { replace n with (Z.succ (n - 1)) at 1 by lia. apply Z.pow_succ_r. lia. }
  pose proof (Z.div_mod m (2 ^ n) ltac:(lia)) as DM.
  pose proof (Z.mod_pos_bound m (2 ^ n) ltac:(lia)) as MB.
  unfold rne.
  destruct (Z.ltb_spec (2 ^ (n - 1)) (m mod 2 ^ n)); cbn [orb]; [nia|].
  destruct (Z.eqb_spec (m mod 2 ^ n) (2 ^ (n - 1))); cbn [andb];
    [destruct (Z.odd _)|]; nia.
Qed.

(** An upper bound that is a multiple of the unit survives rounding. *)
Lemma rne_le_multiple m n K : 1 <= n -> m <= K * 2 ^ n -> rne m n <= K.
Proof.
  intros Hn Hle. assert (P : 0 < 2 ^ n) by (apply Z.pow_pos_nonneg; lia).
  pose proof (rne_mono m (K * 2 ^ n) n Hn Hle) as Hm.
  rewrite (rne_exact (K * 2 ^ n)) in Hm by (try apply Z.mod_mul; lia).
  rewrite Z.div_mul in Hm by lia. assumption.
Qed.

Lemma rne_ge_multiple m n K : 1 <= n -> K * 2 ^ n <= m -> K <= rne m n.
Proof.
  intros Hn Hle. assert (P : 0 < 2 ^ n) by (apply Z.pow_pos_nonneg; lia).
  pose proof (rne_mono (K * 2 ^ n) m n Hn Hle) as Hm.
  rewrite (rne_exact (K * 2 ^ n)) in Hm by (try apply Z.mod_mul; lia).
  rewrite Z.div_mul in Hm by lia. assumption.
Qed.

(** ** [binary_round_aux] *)

Section Round.
  Variables prec emax : Z.
  Hypothesis Hprec : 0 < prec.

    (** A mantissa that needs no shift is kept as it is. *)
Lemma round_aux_noshift s p e :
    fexp prec emax (Zpos (digits2_pos p) + e) <= e ->
    binary_round_aux prec emax s (Zpos p) e loc_Exact = mk_float prec emax s (Zpos p) e.
  Proof.
    intros Hf. unfold binary_round_aux, shr_fexp. cbn [Zdigits2 shr_record_of_loc].
    assert (E : forall x, x <= 0 -> forall R, shr R e x = (R, e)).
    { intros x Hx R. unfold shr. destruct x; try reflexivity. lia. }
    rewrite E by lia. cbn [shr_m loc_of_shr_record round_nearest_even Zdigits2].
    rewrite E by lia. reflexivity.
  Qed.

  (** In the normal range a mantissa of more than [prec] digits is rounded
      to nearest even, and renormalized when the rounding carries. *)
Lemma round_aux_shift s p e n :
    n = Zpos (digits2_pos p) - prec -> 1 <= n -> emin prec emax <= e + n ->
    binary_round_aux prec emax s (Zpos p) e loc_Exact =
    if rne (Zpos p) n <? 2 ^ prec then mk_float prec emax s (rne (Zpos p) n) (e + n)
    else mk_float prec emax s (2 ^ (prec - 1)) (e + n + 1).
  Proof.
    intros Hn Hn1 Hemin.
    pose proof (digits2_pos_bounds p) as [Dlo Dhi].
    set (d := Zpos (digits2_pos p)) in *.
    assert (Hd : d = n + prec) by lia.
    assert (P2n : 0 < 2 ^ n) by (apply Z.pow_pos_nonneg; lia).
    assert (Hq : 2 ^ (prec - 1) <= Zpos p / 2 ^ n < 2 ^ prec).
    { split.
      - apply Z.div_le_lower_bound; [lia|]. rewrite <- Z.pow_add_r by lia.
        replace (n + (prec - 1)) with (d - 1) by lia. assumption.
      - apply Z.div_lt_upper_bound; [lia|]. rewrite <- Z.pow_add_r by lia.
        replace (n + prec) with d by lia. assumption. }
    pose proof (rne_bounds (Zpos p) n) as Hr.
    assert (Ppos : 0 < 2 ^ (prec - 1)) by (apply Z.pow_pos_nonneg; lia).
    unfold binary_round_aux, shr_fexp. cbn [Zdigits2 shr_record_of_loc]. fold d.
    assert (F1 : fexp prec emax (d + e) - e = n) by (unfold fexp; lia).
    rewrite F1. destruct n as [|np|np]; try lia. cbn [shr].
    rewrite round_shr by lia.
    set (M := rne (Zpos p) (Zpos np)) in *.
    destruct M as [|q|q] eqn:EM; try lia.
    cbn [Zdigits2].
    destruct (Z.ltb_spec (Zpos q) (2 ^ prec)) as [L|L].
    - rewrite (digits2_pos_unique q prec) by lia.
      replace (fexp prec emax (prec + (e + Zpos np)) - (e + Zpos np)) with 0
        by (unfold fexp; lia).
      reflexivity.
    - assert (Eq : Zpos q = 2 ^ prec) by lia.
      rewrite (digits2_pos_unique q (prec + 1)).
      2:{ replace (prec + 1 - 1) with prec by lia. rewrite Z.pow_add_r by lia. lia. }
      replace (fexp prec emax (prec + 1 + (e + Zpos np)) - (e + Zpos np)) with 1
        by (unfold fexp; lia).
      cbn [shr iter_pos shr_record_of_loc]. rewrite shr_1_spec by lia.
      cbn [shr_m]. rewrite Eq.
      replace (2 ^ prec) with (2 ^ (prec - 1) * 2).
      2:{ replace prec with (prec - 1 + 1) at 2 by lia. now rewrite Z.pow_add_r by lia. }
      rewrite Z.div_mul by lia. reflexivity.
  Qed.
End Round.

Lemma pos_iter_xO (p k : positive) : Zpos (Pos.iter xO p k) = Zpos p * 2 ^ Zpos k.
Proof.
  induction k as [|k IH] using Pos.peano_ind.
  - cbn [Pos.iter]. rewrite Pos2Z.inj_xO. change (2 ^ 1) with 2. lia.
  - rewrite Pos.iter_succ, Pos2Z.inj_xO, IH, Pos2Z.inj_succ, Z.pow_succ_r by lia. lia.
Qed.

Section Normalize.
  Variables prec emax : Z.
  Hypothesis Hprec : 0 < prec.

  (** A mantissa of at most [prec] digits is normalized without rounding. *)
Lemma binary_round_exact s p e d :
    d = Zpos (digits2_pos p) -> d <= prec -> emin prec emax <= e - (prec - d) ->
    binary_round prec emax s p e =
    mk_float prec emax s (Zpos p * 2 ^ (prec - d)) (e - (prec - d)).
  Proof.
    intros Hd Hle Hemin. pose proof (digits2_pos_bounds p) as [Dlo Dhi].
    unfold binary_round, shl_align. rewrite <- Hd in *.
    assert (F : fexp prec emax (d + e) = d + e - prec) by (unfold fexp; lia).
    rewrite F. destruct (d + e - prec - e) as [|k|k] eqn:K; try lia.
    - assert (d = prec) by lia. subst prec.
      rewrite round_aux_noshift by (rewrite <- Hd, F; lia).
      rewrite Z.sub_diag, Z.pow_0_r, Z.mul_1_r, Z.sub_0_r. reflexivity.
    - assert (Hk : prec - d = Zpos k) by lia.
      assert (P : 0 < 2 ^ Zpos k) by (apply Z.pow_pos_nonneg; lia).
      assert (Dg : Zpos (digits2_pos (Pos.iter xO p k)) = prec).
      { apply digits2_pos_unique. rewrite pos_iter_xO. split.
        - replace (prec - 1) with ((d - 1) + Zpos k) by lia.
          rewrite Z.pow_add_r by lia. nia.
        - replace prec with (d + Zpos k) by lia.
          rewrite Z.pow_add_r by lia. nia. }
      rewrite round_aux_noshift by (rewrite Dg; unfold fexp; lia).
      rewrite pos_iter_xO, Hk. f_equal. lia.
  Qed.

  (** The product of two mantissas whose low bits vanish is exact. *)
Lemma mul_exact s1 p1 e1 s2 p2 e2 n :
    n = Zpos (digits2_pos (p1 * p2)) - prec -> 1 <= n ->
    (Zpos p1 * Zpos p2) mod 2 ^ n = 0 ->
    emin prec emax <= e1 + e2 + n ->
    SFmul prec emax (S754_finite s1 p1 e1) (S754_finite s2 p2 e2) =
    mk_float prec emax (xorb s1 s2) (Zpos p1 * Zpos p2 / 2 ^ n) (e1 + e2 + n).
  Proof.
    intros Hn Hn1 Hmod Hemin. cbn [SFmul].
    rewrite (round_aux_shift prec emax Hprec _ _ _ n) by assumption.
    rewrite Pos2Z.inj_mul, rne_exact by assumption.
    pose proof (digits2_pos_bounds (p1 * p2)) as [_ Dhi].
    rewrite Pos2Z.inj_mul in Dhi.
    replace (Zpos (digits2_pos (p1 * p2))) with (n + prec) in Dhi by lia.
    assert (P : 0 < 2 ^ n) by (apply Z.pow_pos_nonneg; lia).
    replace (_ <? _) with true; [reflexivity|].
    symmetry. apply Z.ltb_lt. apply Z.div_lt_upper_bound; [lia|].
    rewrite <- Z.pow_add_r by lia. assumption.
  Qed.
End Normalize.

Lemma sub_same_exp prec emax p1 p2 e :
  SFsub prec emax (S754_finite false p1 e) (S754_finite false p2 e) =
  binary_normalize prec emax (Zpos p1 - Zpos p2) e false.
Proof.
  unfold SFsub. rewrite Z.min_id. unfold shl_align. rewrite Z.sub_diag. reflexivity.
Qed.

(** ** The generator *)

Lemma mantissa_range g : 0 <= mantissa g < 2 ^ 23.
Proof.
  unfold mantissa. change 0x007fffff with (Z.ones 23).
  rewrite Z.land_ones by lia. apply Z.mod_pos_bound. lia.
Qed.

Lemma lor_disjoint x y : Z.land x y = 0 -> Z.lor x y = x + y.
Proof. intros E. pose proof (Z.add_lor_land x y) as A. rewrite E in A. lia. Qed.

Lemma land_low_high m k : 0 <= m < 2 ^ 23 -> Z.land m (2 ^ 23 * k) = 0.
Proof.
  intros Hm. rewrite <- (Z.mod_small m (2 ^ 23)) by lia.
  rewrite <- Z.land_ones by lia. rewrite <- Z.land_assoc.
  replace (Z.land (Z.ones 23) (2 ^ 23 * k)) with 0; [apply Z.land_0_r|].
  symmetry. rewrite Z.land_comm, Z.land_ones by lia.
  rewrite Z.mul_comm. apply Z.mod_mul. lia.
Qed.

Lemma float_of_bits_2_4 m :
  0 <= m < 2 ^ 23 ->
  float_of_bits (Z.lor m 0x40000000) = S754_finite false (Z.to_pos (m + 2 ^ 23)) (-22).
Proof.
  intros Hm.
  assert (L : Z.lor m 0x40000000 = m + 2 ^ 30).
  { apply lor_disjoint. apply (land_low_high m 128 Hm). }
  unfold float_of_bits. rewrite L.
  assert (T : Z.testbit (m + 2 ^ 30) 31 = false).
  { apply Z.bits_above_log2; [lia|]. apply Z.log2_lt_pow2; lia. }
  assert (S : Z.shiftr (m + 2 ^ 30) 23 = 128).
  { rewrite Z.shiftr_div_pow2 by lia. symmetry.
    apply (Z.div_unique _ _ 128 m); lia. }
  assert (A : Z.land (m + 2 ^ 30) 8388607 = m).
  { change 8388607 with (Z.ones 23). rewrite Z.land_ones by lia.
    symmetry. apply (Z.mod_unique _ _ 128 m); lia. }
  rewrite T, S, A.
  change (Z.land 128 255 =? 255) with false. change (Z.land 128 255 =? 0) with false.
  cbv iota.
  assert (O : Z.lor m 8388608 = m + 2 ^ 23).
  { apply lor_disjoint. apply (land_low_high m 1 Hm). }
  rewrite O. destruct (m + 2 ^ 23) eqn:E; try lia. reflexivity.
Qed.

(** [randomFloat] returns the float [mantissa / 2 ^ 23], exactly. *)
Lemma randomFloat_exact g :
  fst (DefaultPRNG.randomFloat g) =
  match mantissa g with
  | Zpos p =>
      S754_finite false (Z.to_pos (Zpos p * 2 ^ (24 - Zpos (digits2_pos p))))
                  (Zpos (digits2_pos p) - 47)
  | _ => S754_zero false
  end.
Proof.
  pose proof (mantissa_range g) as Hm.
  unfold DefaultPRNG.randomFloat. cbn [fst]. fold (mantissa g).
  rewrite float_of_bits_2_4 by assumption.
  destruct (mantissa g) as [|p|p] eqn:Em; try lia.
  - reflexivity.
  - pose proof (digits2_pos_bounds p) as [Dlo Dhi].
    set (d := Zpos (digits2_pos p)) in *.
    assert (Hd : 1 <= d <= 23).
    { split; [unfold d; lia|].
      destruct (Z.ltb_spec 23 d); [|assumption].
      assert (2 ^ 23 <= 2 ^ (d - 1)) by (apply Z.pow_le_mono_r; lia). lia. }
    assert (P : 0 < 2 ^ (24 - d)) by (apply Z.pow_pos_nonneg; lia).
    (* the subtraction *)
    assert (Sub : F32.sub (S754_finite false (Z.to_pos (Zpos p + 2 ^ 23)) (-22)) f_two
                  = S754_finite false (Z.to_pos (Zpos p * 2 ^ (24 - d))) (d - 46)).
    { unfold F32.sub, f_two. rewrite sub_same_exp.
      rewrite Z2Pos.id by lia.
      replace (Zpos p + 2 ^ 23 - 8388608) with (Zpos p) by (change (2 ^ 23) with 8388608; lia).
      cbn [binary_normalize].
      rewrite (binary_round_exact F32.prec F32.emax ltac:(reflexivity) _ _ _ d)
        by (try reflexivity; unfold F32.prec, F32.emax, emin; lia).
      unfold F32.prec, F32.emax, mk_float.
      destruct (Zpos p * 2 ^ (24 - d)) eqn:E; try lia.
      replace (-22 - (24 - d) <=? 128 - 24) with true by (symmetry; apply Z.leb_le; lia).
      f_equal. lia. }
    rewrite Sub.
    assert (B : 2 ^ 23 <= Zpos p * 2 ^ (24 - d) < 2 ^ 24).
    { split.
      - replace 23 with ((d - 1) + (24 - d)) at 1 by lia. rewrite Z.pow_add_r by lia. nia.
      - replace 24 with (d + (24 - d)) at 2 by lia. rewrite Z.pow_add_r by lia. nia. }
    destruct (Zpos p * 2 ^ (24 - d)) as [|q|q] eqn:Eq; try lia.
    cbn [Z.to_pos]. unfold F32.mul, f_half.
    rewrite (mul_exact F32.prec F32.emax ltac:(reflexivity) _ _ _ _ _ _ 23).
    + unfold mk_float, F32.prec, F32.emax. cbn [xorb].
      change (Zpos 8388608) with (2 ^ 23). rewrite Z.mul_comm, Z.div_mul by lia.
      replace (-24 + (d - 46) + 23 <=? 128 - 24) with true by (symmetry; apply Z.leb_le; lia).
      f_equal. lia.
    + unfold F32.prec. rewrite (digits2_pos_unique _ 47); [reflexivity|].
      rewrite Pos2Z.inj_mul. change (Zpos 8388608) with (2 ^ 23).
      change (2 ^ (47 - 1)) with (2 ^ 23 * 2 ^ 23). change (2 ^ 47) with (2 ^ 23 * 2 ^ 24).
      nia.
    + lia.
    + change (Zpos 8388608) with (2 ^ 23). rewrite Z.mul_comm. apply Z.mod_mul. lia.
    + unfold emin, F32.prec, F32.emax. lia.
Qed.

(* ================================================================== *)
(** * The generator *)

Lemma pow2_pos n : 0 <= n -> 0 < 2 ^ n.
Proof. intros. apply Z.pow_pos_nonneg; lia. Qed.

Lemma pow2_split a b : 0 <= a -> 0 <= b -> 2 ^ (a + b) = 2 ^ a * 2 ^ b.
Proof. intros. apply Z.pow_add_r; assumption. Qed.

(** Cancelling and introducing a positive scale. *)
Lemma scale_le_cancel x y A : 0 < A -> x * A <= y * A -> x <= y.
Proof. intros HA H. apply (Z.mul_le_mono_pos_r _ _ A); assumption. Qed.

Lemma scale_lt_cancel x y A : 0 < A -> x * A < y * A -> x < y.
Proof. intros HA H. apply (Z.mul_lt_mono_pos_r A); assumption. Qed.

Lemma scale_floor t X q C :
  0 < C -> t * X <= q < (t + 1) * X ->
  t * (C * X) <= q * C /\ q * C < (t + 1) * (C * X).
Proof.
  intros HC [Hlo Hhi]. split.
  - replace (t * (C * X)) with (t * X * C) by ring.
    apply Z.mul_le_mono_nonneg_r; lia.
  - replace ((t + 1) * (C * X)) with ((t + 1) * X * C) by ring.
    apply Z.mul_lt_mono_pos_r; lia.
Qed.

(** A fraction below one of a mantissa stays a unit below it. *)
Lemma fraction_below m A B :
  0 <= m < 2 ^ 23 -> 0 < A -> 2 ^ 23 <= B -> m * A * B <= (B - 1) * (2 ^ 23 * A).
Proof.
  intros Hm HA HB. change (2 ^ 23) with 8388608 in *.
  replace (m * A * B) with (m * B * A) by ring.
  replace ((B - 1) * (8388608 * A)) with ((B - 1) * 8388608 * A) by ring.
  apply Z.mul_le_mono_nonneg_r; [lia|].
  assert (m * B <= 8388607 * B) by (apply Z.mul_le_mono_nonneg_r; lia). lia.
Qed.

(** [randomFloat] lies in [0, 1), hence in [-1, 1). *)
Lemma randomFloat_unit g :
  let f := fst (DefaultPRNG.randomFloat g) in
  fle f_zero f = true /\ flt f f_one = true.
Proof.
  cbv zeta. rewrite randomFloat_exact.
  pose proof (mantissa_range g) as Hm.
  destruct (mantissa g) as [|p|p]; [split; reflexivity| |lia].
  pose proof (digits2_pos_bounds p) as [Dlo Dhi].
  set (d := Zpos (digits2_pos p)) in *.
  assert (Hd : d <= 23).
  { destruct (Z.ltb_spec 23 d); [|assumption].
    assert (2 ^ 23 <= 2 ^ (d - 1)) by (apply Z.pow_le_mono_r; lia). lia. }
  split; [reflexivity|].
  unfold flt, SFltb, f_one, SFcompare.
  replace (d - 47 ?= -23) with Lt; [reflexivity|].
  symmetry. apply Z.compare_lt_iff. lia.
Qed.

(** The integer part of a nonnegative float lies below every integer
    above its value. *)
Lemma shiftl_lt M E b K :
  0 <= M -> 0 <= K -> 0 <= E + K -> M * 2 ^ (E + K) < b * 2 ^ K ->
  Z.shiftl M E < b.
Proof.
  intros HM HK HEK Hlt.
  destruct (Z.le_gt_cases 0 E) as [HE|HE].
  - rewrite Z.shiftl_mul_pow2 by assumption.
    rewrite pow2_split in Hlt by lia.
    pose proof (pow2_pos K HK). pose proof (pow2_pos E HE). nia.
  - rewrite Z.shiftl_div_pow2 by lia.
    pose proof (pow2_pos (- E) ltac:(lia)). pose proof (pow2_pos (E + K) HEK).
    apply Z.div_lt_upper_bound; [lia|].
    assert (S : 2 ^ K = 2 ^ (- E) * 2 ^ (E + K)).
    { rewrite <- pow2_split by lia. f_equal. lia. }
    rewrite S in Hlt. nia.
Qed.

(** ** Conversion of an unsigned integer to binary32 *)

Lemma digits_log2 p : Zpos (digits2_pos p) = Z.log2 (Zpos p) + 1.
Proof.
  pose proof (digits2_pos_bounds p) as [Dlo Dhi].
  symmetry. apply Z.add_move_r. apply Z.log2_unique; [lia|].
  replace (Z.succ (Zpos (digits2_pos p) - 1)) with (Zpos (digits2_pos p)) by lia.
  split; assumption.
Qed.

Lemma log2_bounds b : 0 < b -> 2 ^ Z.log2 b <= b < 2 ^ (Z.log2 b + 1).
Proof.
  intros. replace (Z.log2 b + 1) with (Z.succ (Z.log2 b)) by lia.
  apply Z.log2_spec. assumption.
Qed.

Lemma norm32_bounds b :
  0 < b < 2 ^ 32 ->
  let '(p, e) := norm32 b in
  2 ^ 23 <= p < 2 ^ 24 /\ -23 <= e <= 9.
Proof.
  intros Hb. unfold norm32.
  pose proof (log2_bounds b ltac:(lia)) as [Llo Lhi].
  pose proof (Z.log2_nonneg b) as L0.
  assert (L31 : Z.log2 b < 32) by (apply Z.log2_lt_pow2; lia).
  set (l := Z.log2 b) in *.
  destruct (Z.leb_spec (l + 1) 24) as [C|C].
  - replace (24 - (l + 1)) with (23 - l) by lia.
    pose proof (pow2_pos (23 - l) ltac:(lia)).
    assert (E23 : 2 ^ 23 = 2 ^ l * 2 ^ (23 - l)) by (rewrite <- pow2_split by lia; f_equal; lia).
    assert (E24 : 2 ^ 24 = 2 ^ (l + 1) * 2 ^ (23 - l)) by (rewrite <- pow2_split by lia; f_equal; lia).
    rewrite E23, E24. split; [nia|lia].
  - pose proof (rne_bounds b (l + 1 - 24)) as Hr.
    assert (Hq : 2 ^ 23 <= b / 2 ^ (l + 1 - 24)).
    { pose proof (pow2_pos (l + 1 - 24) ltac:(lia)).
      apply Z.div_le_lower_bound; [lia|]. rewrite <- pow2_split by lia.
      replace (l + 1 - 24 + 23) with l by lia. assumption. }
    destruct (Z.ltb_spec (rne b (l + 1 - 24)) (2 ^ 24)); split; lia.
Qed.

Lemma of_Z_norm32 b :
  0 < b < 2 ^ 32 ->
  F32.of_Z b = S754_finite false (Z.to_pos (fst (norm32 b))) (snd (norm32 b)).
Proof.
  intros Hb. pose proof (norm32_bounds b Hb) as NB. unfold norm32 in *.
  destruct b as [|p|p]; try lia.
  unfold F32.of_Z, SFof_Z. cbn [binary_normalize].
  rewrite <- digits_log2 in *.
  pose proof (digits2_pos_bounds p) as [Dlo Dhi].
  set (d := Zpos (digits2_pos p)) in *.
  assert (Hd : 1 <= d <= 32).
  { split; [unfold d; lia|]. destruct (Z.ltb_spec 32 d); [|assumption].
    assert (2 ^ 32 <= 2 ^ (d - 1)) by (apply Z.pow_le_mono_r; lia). lia. }
  destruct (Z.leb_spec d 24) as [C|C].
  - rewrite (binary_round_exact F32.prec F32.emax ltac:(reflexivity) _ _ _ d)
      by (try reflexivity; unfold F32.prec, F32.emax, emin; lia).
    unfold mk_float, F32.prec, F32.emax. cbn [fst snd].
    destruct (Zpos p * 2 ^ (24 - d)) eqn:E; try lia.
    replace (0 - (24 - d) <=? 128 - 24) with true by (symmetry; apply Z.leb_le; lia).
    cbn [Z.to_pos]. f_equal. lia.
  - unfold binary_round, shl_align. fold d.
    replace (fexp F32.prec F32.emax (d + 0) - 0) with (d - 24)
      by (unfold fexp, emin, F32.prec, F32.emax; lia).
    destruct (d - 24) as [|k|k] eqn:K; try lia.
    rewrite (round_aux_shift F32.prec F32.emax ltac:(reflexivity) _ _ _ (Zpos k))
      by (unfold F32.prec, F32.emax, emin; fold d; lia).
    unfold F32.prec, F32.emax, mk_float.
    destruct (Z.ltb_spec (rne (Zpos p) (Zpos k)) (2 ^ 24)) as [L|L]; cbn [fst snd] in *.
    + destruct (rne (Zpos p) (Zpos k)) eqn:E; try lia.
      replace (0 + Zpos k <=? 128 - 24) with true by (symmetry; apply Z.leb_le; lia).
      reflexivity.
    + change (2 ^ (24 - 1)) with (Zpos 8388608).
      cbv iota.
      replace (0 + Zpos k + 1 <=? 128 - 24) with true by (symmetry; apply Z.leb_le; lia).
      change (2 ^ 23) with (Zpos 8388608). cbn [Z.to_pos]. f_equal. lia.
Qed.

(** The float just below [float(b)] is below [b]. *)
Lemma norm32_pred b :
  0 < b < 2 ^ 32 ->
  let '(p, e) := norm32 b in (p - 1) * 2 ^ (e + 23) < b * 2 ^ 23.
Proof.
  intros Hb. unfold norm32.
  pose proof (log2_bounds b ltac:(lia)) as [Llo Lhi].
  pose proof (Z.log2_nonneg b) as L0.
  assert (L31 : Z.log2 b < 32) by (apply Z.log2_lt_pow2; lia).
  set (l := Z.log2 b) in *.
  destruct (Z.leb_spec (l + 1) 24) as [C|C].
  - replace (24 - (l + 1)) with (23 - l) by lia.
    replace (l + 1 - 24 + 23) with l by lia.
    pose proof (pow2_pos (23 - l) ltac:(lia)). pose proof (pow2_pos l L0).
    assert (E23 : 2 ^ 23 = 2 ^ (23 - l) * 2 ^ l) by (rewrite <- pow2_split by lia; f_equal; lia).
    rewrite E23. nia.
  - set (n := l + 1 - 24).
    pose proof (rne_error b n ltac:(lia)) as Her.
    pose proof (pow2_pos (n - 1) ltac:(lia)) as Pn.
    assert (E2 : 2 ^ n = 2 * 2 ^ (n - 1)).
    { replace n with (Z.succ (n - 1)) at 1 by lia. apply Z.pow_succ_r. lia. }
    destruct (Z.ltb_spec (rne b n) (2 ^ 24)) as [L|L].
    + rewrite pow2_split by lia. change (2 ^ 23) with 8388608. nia.
    + replace (l + 1 - 23 + 23) with (n + 1 + 23) by lia.
      rewrite !pow2_split by lia.
      pose proof (rne_bounds b n) as Hr.
      assert (Hq : b / 2 ^ n < 2 ^ 24).
      { apply Z.div_lt_upper_bound; [lia|]. rewrite <- pow2_split by lia.
        replace (n + 24) with (l + 1) by lia. assumption. }
      assert (rne b n = 2 ^ 24) by lia.
      change (2 ^ 1) with 2. change (2 ^ 23) with 8388608 in *.
      change (2 ^ 24) with 16777216 in *. nia.
Qed.

Lemma digits_between p lo hi :
  0 <= lo -> 2 ^ lo <= Zpos p < 2 ^ hi -> lo < Zpos (digits2_pos p) <= hi.
Proof.
  intros Hlo [Plo Phi]. pose proof (digits2_pos_bounds p) as [Dlo Dhi].
  set (d := Zpos (digits2_pos p)) in *. split.
  - destruct (Z.ltb_spec lo d); [assumption|].
    assert (2 ^ d <= 2 ^ lo) by (apply Z.pow_le_mono_r; lia). lia.
  - destruct (Z.leb_spec d hi); [assumption|].
    assert (0 <= hi).
    { destruct (Z.leb_spec 0 hi); [assumption|].
      rewrite (Z.pow_neg_r 2 hi) in Phi by lia. lia. }
    assert (2 ^ hi <= 2 ^ (d - 1)) by (apply Z.pow_le_mono_r; lia). lia.
Qed.

Lemma to_u32_finite p e b :
  0 < b <= 2 ^ 32 -> Z.shiftl (Zpos p) e < b ->
  exists v, to_u32 (S754_finite false p e) = Some v /\ 0 <= v < b.
Proof.
  intros Hb Hlt. unfold to_u32, ftrunc. cbn [cond_Zopp].
  assert (0 <= Z.shiftl (Zpos p) e) by (apply Z.shiftl_nonneg; lia).
  exists (Z.shiftl (Zpos p) e).
  replace (0 <=? _) with true by (symmetry; apply Z.leb_le; lia).
  replace (_ <? 2 ^ 32) with true by (symmetry; apply Z.ltb_lt; lia).
  split; [reflexivity|lia].
Qed.

(** [randomInt bound] is below [bound], whatever the seed. *)
Lemma randomInt_below bound g :
  0 < bound < 2 ^ 32 ->
  exists v, fst (DefaultPRNG.randomInt bound g) = Some v /\ 0 <= v < bound.
Proof.
  intros Hb. unfold DefaultPRNG.randomInt.
  pose proof (randomFloat_exact g) as Hf.
  destruct (DefaultPRNG.randomFloat g) as [f g']. cbn [fst] in *. subst f.
  rewrite (of_Z_norm32 bound Hb).
  pose proof (norm32_bounds bound Hb) as NB. pose proof (norm32_pred bound Hb) as NP.
  destruct (norm32 bound) as [pB eB]. cbn [fst snd]. destruct NB as [HpB HeB].
  pose proof (mantissa_range g) as Hm.
  destruct (mantissa g) as [|p|p]; try lia.
  { exists 0. split; [|lia]. destruct pB; try lia. reflexivity. }
  pose proof (digits2_pos_bounds p) as [Dlo Dhi].
  pose proof (digits_between p 0 23 ltac:(lia) ltac:(lia)) as Hd.
  set (d := Zpos (digits2_pos p)) in *.
  pose proof (pow2_pos (24 - d) ltac:(lia)) as P24.
  assert (Hpf : 2 ^ 23 <= Zpos p * 2 ^ (24 - d) < 2 ^ 24).
  { split.
    - replace 23 with ((d - 1) + (24 - d)) at 1 by lia. rewrite pow2_split by lia. nia.
    - replace 24 with (d + (24 - d)) at 2 by lia. rewrite pow2_split by lia. nia. }
  destruct (Zpos p * 2 ^ (24 - d)) as [|pf|pf] eqn:Epf; try lia.
  destruct pB as [|pB|pB]; try lia. cbn [Z.to_pos].
  unfold F32.mul. cbn [SFmul xorb].
  assert (HP : 2 ^ 46 <= Zpos (pf * pB) < 2 ^ 48).
  { rewrite Pos2Z.inj_mul. change (2 ^ 46) with (2 ^ 23 * 2 ^ 23).
    change (2 ^ 48) with (2 ^ 24 * 2 ^ 24). nia. }
  pose proof (digits_between (pf * pB) 46 48 ltac:(lia) HP) as HdP.
  pose proof (digits2_pos_bounds (pf * pB)) as [DPlo DPhi].
  set (n := Zpos (digits2_pos (pf * pB)) - 24).
  assert (Hn : 23 <= n <= 24) by (unfold n; lia).
  rewrite (round_aux_shift F32.prec F32.emax ltac:(reflexivity) _ _ _ n)
    by (unfold F32.prec, F32.emax, emin; fold n; lia).
  set (E := d - 47 + eB + n).
  (* the rounded product does not exceed the float below [float(bound)] *)
  pose proof (pow2_pos (47 - d - n) ltac:(lia)) as PA.
  assert (HM : rne (Zpos (pf * pB)) n <= (Zpos pB - 1) * 2 ^ (47 - d - n)).
  { apply rne_le_multiple; [lia|].
    rewrite <- Z.mul_assoc, <- pow2_split by lia.
    replace (47 - d - n + n) with (23 + (24 - d)) by lia.
    rewrite pow2_split by lia. rewrite Pos2Z.inj_mul, <- Epf.
    apply fraction_below; lia. }
  assert (HMlo : 2 ^ 23 <= rne (Zpos (pf * pB)) n).
  { apply rne_ge_multiple; [lia|]. rewrite <- pow2_split by lia.
    replace (23 + n) with (Zpos (digits2_pos (pf * pB)) - 1) by (unfold n; lia).
    assumption. }
  assert (HMhi : rne (Zpos (pf * pB)) n <= 2 ^ 24).
  { apply rne_le_multiple; [lia|]. rewrite <- pow2_split by lia.
    replace (24 + n) with (Zpos (digits2_pos (pf * pB))) by (unfold n; lia). lia. }
  set (M2 := rne (Zpos (pf * pB)) n) in *.
  assert (Key : M2 * 2 ^ (E + 46) < bound * 2 ^ 46).
  { pose proof (pow2_pos (E + 46) ltac:(unfold E; lia)) as PE.
    pose proof (pow2_pos (eB + 23) ltac:(lia)) as PB.
    assert (S1 : 2 ^ (47 - d - n) * 2 ^ (E + 46) = 2 ^ (eB + 23) * 2 ^ 23).
    { rewrite <- !pow2_split by (unfold E; lia). f_equal. unfold E. lia. }
    change (2 ^ 46) with (2 ^ 23 * 2 ^ 23). change (2 ^ 23) with 8388608 in *. nia. }
  unfold mk_float, F32.prec, F32.emax.
  destruct (Z.ltb_spec M2 (2 ^ 24)) as [L|L].
  - destruct M2 as [|q|q] eqn:EM; try lia.
    replace (E <=? 128 - 24) with true by (symmetry; apply Z.leb_le; unfold E; lia).
    apply to_u32_finite; [lia|].
    apply (shiftl_lt _ _ _ 46); try (unfold E; lia). exact Key.
  - change (2 ^ (24 - 1)) with (Zpos 8388608). cbv iota.
    replace (E + 1 <=? 128 - 24) with true by (symmetry; apply Z.leb_le; unfold E; lia).
    apply to_u32_finite; [lia|].
    apply (shiftl_lt _ _ _ 46); try (unfold E; lia).
    replace (E + 1 + 46) with (1 + (E + 46)) by lia.
    rewrite pow2_split by (unfold E; lia).
    assert (M2 = 2 ^ 24) by lia. change (2 ^ 1) with 2.
    change (2 ^ 24) with 16777216 in *. lia.
Qed.

Lemma randomInt_zero g : fst (DefaultPRNG.randomInt 0 g) = Some 0.
Proof.
  unfold DefaultPRNG.randomInt.
  pose proof (randomFloat_exact g) as Hf.
  destruct (DefaultPRNG.randomFloat g) as [f g']. cbn [fst] in *. subst f.
  destruct (mantissa g); reflexivity.
Qed.

(* ================================================================== *)
(** * Division, conversion and the Hammersley coordinates *)

Lemma round_nearest_even_bounds m l :
  m <= round_nearest_even m l <= m + 1.
Proof.
  destruct l as [|[]]; cbn [round_nearest_even]; try lia.
  destruct (Z.even m); lia.
Qed.

Section Shape.
  Variables prec emax : Z.
  Hypothesis Hprec : 0 < prec.

  (** Whatever the location of the discarded part, rounding a mantissa of
      [prec + n] digits in the normal range yields a normal float: its
      exponent grows by [n], and by one more when the rounding carries. *)
Lemma round_aux_shape s p e l n :
    n = Zpos (digits2_pos p) - prec -> 0 <= n ->
    emin prec emax <= e + n -> e + n + 1 <= emax - prec ->
    exists m' e',
      binary_round_aux prec emax s (Zpos p) e l = S754_finite s m' e'
      /\ 2 ^ (prec - 1) <= Zpos m' < 2 ^ prec
      /\ (e' = e + n \/ (e' = e + n + 1 /\ Zpos m' = 2 ^ (prec - 1))).
  Proof.
    intros Hn Hn0 Hemin Hemax.
    pose proof (digits2_pos_bounds p) as [Dlo Dhi].
    set (d := Zpos (digits2_pos p)) in *.
    assert (P2n : 0 < 2 ^ n) by (apply Z.pow_pos_nonneg; lia).
    assert (Hq : 2 ^ (prec - 1) <= Zpos p / 2 ^ n < 2 ^ prec).
    { split.
      - apply Z.div_le_lower_bound; [lia|]. rewrite <- Z.pow_add_r by lia.
        replace (n + (prec - 1)) with (d - 1) by lia. assumption.
      - apply Z.div_lt_upper_bound; [lia|]. rewrite <- Z.pow_add_r by lia.
        replace (n + prec) with d by lia. assumption. }
    assert (Ppos : 0 < 2 ^ (prec - 1)) by (apply Z.pow_pos_nonneg; lia).
    unfold binary_round_aux, shr_fexp. cbn [Zdigits2]. fold d.
    assert (F1 : fexp prec emax (d + e) - e = n) by (unfold fexp; lia).
    rewrite F1.
    (* the first shift and the rounding *)
    assert (R1 : exists R, shr (shr_record_of_loc (Zpos p) l) e n = (R, e + n)
                           /\ shr_m R = Zpos p / 2 ^ n).
    { destruct n as [|np|np]; try lia.
      - exists (shr_record_of_loc (Zpos p) l). cbn [shr]. rewrite Z.add_0_r.
        split; [reflexivity|]. rewrite Z.pow_0_r, Z.div_1_r.
        destruct l as [|[]]; reflexivity.
      - exists (iter_pos shr_1 np (shr_record_of_loc (Zpos p) l)). cbn [shr].
        split; [reflexivity|]. rewrite iter_pos_nat.
        destruct (Pos2Nat.is_succ np) as [k Hk]. rewrite Hk.
        replace (Zpos np) with (Z.of_nat (S k)) by lia.
        destruct l as [|[]]; cbn [shr_record_of_loc];
          rewrite iter_shr_1 by lia; reflexivity. }
    destruct R1 as (R & -> & HR).
    pose proof (round_nearest_even_bounds (shr_m R) (loc_of_shr_record R)) as HM.
    set (M := round_nearest_even (shr_m R) (loc_of_shr_record R)) in *.
    rewrite HR in HM.
    destruct M as [|q|q] eqn:EM; try lia.
    cbn [Zdigits2 shr_record_of_loc].
    destruct (Z.ltb_spec (Zpos q) (2 ^ prec)) as [L|L].
    - rewrite (digits2_pos_unique q prec) by lia.
      replace (fexp prec emax (prec + (e + n)) - (e + n)) with 0
        by (unfold fexp; lia).
      cbn [shr shr_m].
      replace (e + n <=? emax - prec) with true by (symmetry; apply Z.leb_le; lia).
      exists q, (e + n). repeat split; auto; lia.
    - assert (Eq : Zpos q = 2 ^ prec) by lia.
      rewrite (digits2_pos_unique q (prec + 1)).
      2:{ replace (prec + 1 - 1) with prec by lia. rewrite Z.pow_add_r by lia. lia. }
      replace (fexp prec emax (prec + 1 + (e + n)) - (e + n)) with 1
        by (unfold fexp; lia).
      cbn [shr iter_pos]. rewrite shr_1_spec by lia.
      cbn [shr_m]. rewrite Eq.
      replace (2 ^ prec) with (2 ^ (prec - 1) * 2).
      2:{ replace prec with (prec - 1 + 1) at 2 by lia. now rewrite Z.pow_add_r by lia. }
      rewrite Z.div_mul by lia.
      destruct (2 ^ (prec - 1)) as [|h|h] eqn:Eh; try lia.
      replace (e + n + 1 <=? emax - prec) with true by (symmetry; apply Z.leb_le; lia).
      exists h, (e + n + 1). repeat split; auto; lia.
  Qed.
End Shape.

Lemma div_core_normal32 p1 e1 p2 e2 :
  normal32 p1 -> normal32 p2 -> -120 <= e1 - e2 ->
  SFdiv_core_binary F32.prec F32.emax (Zpos p1) e1 (Zpos p2) e2 =
  (Zpos p1 * 2 ^ 24 / Zpos p2, e1 - e2 - 24,
   new_location (Zpos p2) (Zpos p1 * 2 ^ 24 mod Zpos p2)).
Proof.
  intros H1 H2 He. unfold normal32 in *.
  unfold SFdiv_core_binary. cbn [Zdigits2].
  rewrite (digits2_pos_unique p1 24), (digits2_pos_unique p2 24) by (cbn; lia).
  replace (Z.min (fexp F32.prec F32.emax (24 + e1 - (24 + e2))) (e1 - e2))
    with (e1 - e2 - 24) by (unfold fexp, emin, F32.prec, F32.emax; lia).
  replace (e1 - e2 - (e1 - e2 - 24)) with 24 by lia.
  rewrite Z.shiftl_mul_pow2 by lia.
  unfold Z.div, Z.modulo.
  destruct (Z.div_eucl (Zpos p1 * 2 ^ 24) (Zpos p2)) as [q r]. reflexivity.
Qed.

Lemma finite_le_one m e :
  normal32 m -> (e < -23 \/ (e = -23 /\ Zpos m = 2 ^ 23)) ->
  le_one (S754_finite false m e).
Proof.
  intros Hm He. split; [reflexivity|].
  unfold fle, SFleb, f_one, SFcompare.
  destruct He as [He|[-> Hm1]].
  - apply Z.compare_lt_iff in He. rewrite He. reflexivity.
  - cbn [Z.compare Pos.compare Z.opp]. rewrite Pos.compare_refl.
    change (2 ^ 23) with (Zpos 8388608) in Hm1. injection Hm1 as ->.
    rewrite Pos.compare_cont_refl. reflexivity.
Qed.

Lemma div_le_one p1 e1 p2 e2 :
  normal32 p1 -> normal32 p2 -> -50 <= e1 <= 50 -> -50 <= e2 <= 50 ->
  e1 < e2 \/ (e1 = e2 /\ Zpos p1 <= Zpos p2) ->
  le_one (F32.div (S754_finite false p1 e1) (S754_finite false p2 e2)).
Proof.
  intros H1 H2 He1 He2 Hle. unfold F32.div, SFdiv.
  rewrite div_core_normal32 by (try assumption; lia). cbn [xorb].
  unfold normal32 in *.
  set (q := Zpos p1 * 2 ^ 24 / Zpos p2).
  assert (Hq : 2 ^ 23 <= q < 2 ^ 25).
  { unfold q. split.
    - apply Z.div_le_lower_bound; [lia|]. change (2 ^ 24) with (2 * 2 ^ 23). nia.
    - apply Z.div_lt_upper_bound; [lia|]. change (2 ^ 25) with (2 * 2 ^ 24).
      change (2 ^ 23) with 8388608 in *. change (2 ^ 24) with 16777216 in *. nia. }
  destruct (Z.eq_dec (Zpos p1) (Zpos p2)) as [Ep|Np].
  - (* equal mantissas: the quotient is a power of two *)
    assert (Eq : q = 2 ^ 24).
    { unfold q. rewrite Ep, Z.mul_comm. apply Z.div_mul. lia. }
    assert (Er : Zpos p1 * 2 ^ 24 mod Zpos p2 = 0).
    { rewrite Ep, Z.mul_comm. apply Z.mod_mul. lia. }
    rewrite Er, Eq.
    replace (new_location (Zpos p2) 0) with loc_Exact
      by (unfold new_location, new_location_even, new_location_odd;
          destruct (Z.even (Zpos p2)); reflexivity).
    change (2 ^ 24) with (Zpos 16777216).
    rewrite (round_aux_shift F32.prec F32.emax ltac:(reflexivity) _ _ _ 1)
      by (try reflexivity; unfold F32.prec, F32.emax, emin; lia).
    change (rne (Zpos 16777216) 1) with (Zpos 8388608).
    change (Zpos 8388608 <? 2 ^ F32.prec) with true. cbv iota.
    unfold mk_float, F32.prec, F32.emax.
    replace (e1 - e2 - 24 + 1 <=? 128 - 24) with true by (symmetry; apply Z.leb_le; lia).
    apply finite_le_one; [unfold normal32; cbn; lia|].
    destruct Hle as [Hl|[-> _]]; [left; lia|right; split; [lia|reflexivity]].
  - destruct q as [|pq|pq] eqn:Eq'; try lia.
    pose proof (digits_between pq 23 25 ltac:(lia) Hq) as Hdq.
    destruct (round_aux_shape F32.prec F32.emax ltac:(reflexivity) false pq
                (e1 - e2 - 24) (new_location (Zpos p2) (Zpos p1 * 2 ^ 24 mod Zpos p2))
                (Zpos (digits2_pos pq) - 24))
      as (m' & e' & -> & Hm' & He');
      try (unfold F32.prec, F32.emax, emin; lia).
    apply finite_le_one; [exact Hm'|].
    unfold F32.prec in *. change (2 ^ (24 - 1)) with (2 ^ 23) in *.
    assert (Hd24 : e1 = e2 -> Zpos (digits2_pos pq) = 24).
    { intros ->. apply digits2_pos_unique. split; [cbn; lia|].
      rewrite <- Eq'. unfold q. apply Z.div_lt_upper_bound; [lia|].
      change (2 ^ 24) with 16777216 in *. nia. }
    destruct Hle as [Hl|[E12 _]].
    + destruct He' as [->|[-> Hm1]]; [left; lia|].
      destruct (Z.eq_dec (e1 - e2 - 24 + (Zpos (digits2_pos pq) - 24) + 1) (-23));
        [right; split; assumption|left; lia].
    + specialize (Hd24 E12). rewrite Hd24 in He'. subst e2.
      destruct He' as [->|[-> Hm1]]; [left; lia|right; split; [lia|assumption]].
Qed.

(** [float(b)] is monotone in [b]: exponents first, then mantissas. *)
Lemma norm32_mono i N :
  0 < i -> i <= N -> N < 2 ^ 32 ->
  let '(p1, e1) := norm32 i in
  let '(p2, e2) := norm32 N in
  e1 < e2 \/ (e1 = e2 /\ p1 <= p2).
Proof.
  intros Hi Hle HN.
  pose proof (norm32_bounds i ltac:(lia)) as B1.
  pose proof (norm32_bounds N ltac:(lia)) as B2.
  pose proof (Z.log2_le_mono i N Hle) as Hl.
  pose proof (Z.log2_nonneg i) as L0.
  unfold norm32 in *.
  set (l1 := Z.log2 i) in *. set (l2 := Z.log2 N) in *.
  destruct (Z.leb_spec (l2 + 1) 24) as [C2|C2].
  - replace (l1 + 1 <=? 24) with true in * by (symmetry; apply Z.leb_le; lia).
    cbv beta iota zeta.
    destruct (Z.eq_dec l1 l2) as [->|Nl]; [right|left; lia].
    split; [reflexivity|]. pose proof (pow2_pos (24 - (l2 + 1)) ltac:(lia)). nia.
  - destruct (Z.leb_spec (l1 + 1) 24) as [C1|C1].
    + destruct (rne N (l2 + 1 - 24) <? 2 ^ 24); cbv beta iota zeta; left; lia.
    + destruct (Z.eq_dec l1 l2) as [E|Nl].
      * rewrite E in *.
        pose proof (rne_mono i N (l2 + 1 - 24) ltac:(lia) Hle) as Hm.
        destruct (Z.ltb_spec (rne i (l2 + 1 - 24)) (2 ^ 24));
          destruct (Z.ltb_spec (rne N (l2 + 1 - 24)) (2 ^ 24));
          cbv beta iota zeta; lia.
      * destruct (Z.ltb_spec (rne i (l1 + 1 - 24)) (2 ^ 24));
          destruct (Z.ltb_spec (rne N (l2 + 1 - 24)) (2 ^ 24));
          cbv beta iota zeta in *; lia.
Qed.

(** Only a mantissa that carried reaches the exponent 9. *)
Lemma norm32_top b :
  0 < b < 2 ^ 32 ->
  let '(p, e) := norm32 b in e <= 8 \/ (e = 9 /\ p = 2 ^ 23).
Proof.
  intros Hb. unfold norm32.
  assert (L31 : Z.log2 b < 32) by (apply Z.log2_lt_pow2; lia).
  destruct (Z.leb_spec (Z.log2 b + 1) 24); [left; lia|].
  destruct (rne b (Z.log2 b + 1 - 24) <? 2 ^ 24); cbv beta iota zeta; [left; lia|].
  destruct (Z.eq_dec (Z.log2 b) 31); [right; split; [lia|reflexivity]|left; lia].
Qed.

(** ** Hammersley coordinates *)

(** Scaling by [2 ^ -32] is exact: only the exponent changes. *)
Lemma scale32_exact bits :
  0 < bits < 2 ^ 32 ->
  scale32 bits =
  S754_finite false (Z.to_pos (fst (norm32 bits))) (snd (norm32 bits) - 32).
Proof.
  intros Hb. unfold scale32. rewrite (of_Z_norm32 bits Hb).
  pose proof (norm32_bounds bits Hb) as NB.
  destruct (norm32 bits) as [p e]. cbn [fst snd]. destruct NB as [Hp He].
  destruct p as [|p|p]; try lia. cbn [Z.to_pos].
  assert (D76 : Zpos (digits2_pos (p * 4503599627370496)) = 76).
  { apply digits2_pos_unique. rewrite Pos2Z.inj_mul.
    change (Zpos 4503599627370496) with (2 ^ 52).
    change (2 ^ (76 - 1)) with (2 ^ 23 * 2 ^ 52). change (2 ^ 76) with (2 ^ 24 * 2 ^ 52).
    nia. }
  unfold F64.mul, d_2p_32.
  rewrite (mul_exact F64.prec F64.emax ltac:(reflexivity) _ _ _ _ _ _ 23);
    try (unfold F64.prec, F64.emax, emin; rewrite ?D76; lia).
  2:{ change (Zpos 4503599627370496) with (2 ^ 29 * 2 ^ 23).
      rewrite Z.mul_assoc. apply Z.mod_mul. lia. }
  change (Zpos 4503599627370496) with (2 ^ 29 * 2 ^ 23).
  rewrite Z.mul_assoc, Z.div_mul by lia.
  unfold mk_float, F64.prec, F64.emax. cbn [xorb].
  pose proof (pow2_pos 29 ltac:(lia)).
  destruct (Zpos p * 2 ^ 29) as [|q|q] eqn:Eq; try lia.
  replace (e + -84 + 23 <=? 1024 - 53) with true by (symmetry; apply Z.leb_le; lia).
  assert (D53 : Zpos (digits2_pos q) = 53).
  { apply digits2_pos_unique. rewrite <- Eq.
    change (2 ^ (53 - 1)) with (2 ^ 23 * 2 ^ 29). change (2 ^ 53) with (2 ^ 24 * 2 ^ 29).
    nia. }
  unfold F32.of_float, SFof_float, binary_round, shl_align. rewrite D53.
  replace (fexp F32.prec F32.emax (53 + (e + -84 + 23)) - (e + -84 + 23)) with 29
    by (unfold fexp, emin, F32.prec, F32.emax; lia).
  rewrite (round_aux_shift F32.prec F32.emax ltac:(reflexivity) _ _ _ 29)
    by (unfold F32.prec, F32.emax, emin; rewrite ?D53; lia).
  rewrite <- Eq, rne_exact by (try apply Z.mod_mul; lia).
  rewrite Z.div_mul by lia.
  replace (Zpos p <? 2 ^ F32.prec) with true by (symmetry; apply Z.ltb_lt; unfold F32.prec; lia).
  unfold mk_float, F32.prec, F32.emax.
  replace (e + -84 + 23 + 29 <=? 128 - 24) with true by (symmetry; apply Z.leb_le; lia).
  f_equal. lia.
Qed.

Lemma scale32_le_one bits : 0 <= bits < 2 ^ 32 -> le_one (scale32 bits).
Proof.
  intros Hb. destruct (Z.eq_dec bits 0) as [->|N]; [split; reflexivity|].
  rewrite scale32_exact by lia.
  pose proof (norm32_bounds bits ltac:(lia)) as NB.
  pose proof (norm32_top bits ltac:(lia)) as NT.
  destruct (norm32 bits) as [p e]. cbn [fst snd]. destruct NB as [Hp He].
  destruct p as [|p|p]; try lia. cbn [Z.to_pos].
  apply finite_le_one; [exact Hp|]. lia.
Qed.

Lemma ratio_le_one i N :
  0 <= i -> i < N -> N < 2 ^ 32 -> le_one (F32.div (F32.of_Z i) (F32.of_Z N)).
Proof.
  intros Hi Hlt HN.
  rewrite (of_Z_norm32 N) by lia.
  pose proof (norm32_bounds N ltac:(lia)) as B2.
  destruct (Z.eq_dec i 0) as [->|Ni].
  { destruct (norm32 N) as [p2 e2]. cbn [fst snd]. destruct B2 as [Hp2 _].
    destruct p2; try lia. split; reflexivity. }
  rewrite (of_Z_norm32 i) by lia.
  pose proof (norm32_bounds i ltac:(lia)) as B1.
  pose proof (norm32_mono i N ltac:(lia) ltac:(lia) HN) as Hm.
  destruct (norm32 i) as [p1 e1], (norm32 N) as [p2 e2]. cbn [fst snd].
  destruct B1 as [Hp1 He1], B2 as [Hp2 He2].
  destruct p1 as [|p1|p1], p2 as [|p2|p2]; try lia. cbn [Z.to_pos].
  apply div_le_one; unfold normal32; try lia.
Qed.

Lemma testbit_b2z (x : bool) k : Z.testbit (Z.b2z x) k = (k =? 0) && x.
Proof.
  destruct (Z.eqb_spec k 0) as [->|N].
  - apply Z.b2z_bit0.
  - destruct x; cbn [Z.b2z andb].
    + destruct k; try contradiction; reflexivity.
    + apply Z.bits_0.
Qed.

Lemma bitrev_spec w : forall b k,
  0 <= k ->
  Z.testbit (bitrev w b) k =
  if k <? Z.of_nat w then Z.testbit b (Z.of_nat w - 1 - k) else false.
Proof.
  induction w as [|w IH]; intros b k Hk.
  - cbn [bitrev]. rewrite Z.bits_0.
    destruct (Z.ltb_spec k (Z.of_nat 0)); [cbn in *; lia|reflexivity].
  - cbn [bitrev]. rewrite Z.lor_spec, Z.shiftl_spec, testbit_b2z, IH by lia.
    destruct (Z.ltb_spec k (Z.of_nat w)); destruct (Z.ltb_spec k (Z.of_nat (S w)));
      destruct (Z.eqb_spec (k - Z.of_nat w) 0); try lia; cbn [andb orb].
    + rewrite Z.shiftr_spec by lia. f_equal. lia.
    + rewrite orb_false_r. f_equal. lia.
Qed.

Lemma testbit_above x n k : 0 <= x < 2 ^ n -> n <= k -> Z.testbit x k = false.
Proof.
  intros Hx Hk. destruct (Z.eq_dec x 0) as [->|N]; [apply Z.bits_0|].
  assert (0 <= n).
  { destruct (Z.leb_spec 0 n); [assumption|]. rewrite Z.pow_neg_r in Hx; lia. }
  apply Z.bits_above_log2; [lia|].
  assert (Z.log2 x < n) by (apply Z.log2_lt_pow2; lia). lia.
Qed.

Lemma bitrev_range w b : 0 <= bitrev w b < 2 ^ Z.of_nat w.
Proof.
  revert b. induction w as [|w IH]; intros b; cbn [bitrev]; [cbn; lia|].
  specialize (IH (Z.shiftr b 1)).
  assert (P : 0 < 2 ^ Z.of_nat w) by (apply Z.pow_pos_nonneg; lia).
  replace (Z.of_nat (S w)) with (Z.of_nat w + 1) by lia.
  rewrite Z.pow_add_r, Z.pow_1_r by lia.
  rewrite Z.shiftl_mul_pow2 by lia.
  rewrite lor_disjoint.
  - destruct (Z.testbit b 0); cbn [Z.b2z]; lia.
  - destruct (Z.testbit b 0); cbn [Z.b2z]; [|reflexivity].
    rewrite Z.mul_1_l. apply Z.bits_inj'. intros k Hk.
    rewrite Z.land_spec, Z.bits_0, Z.pow2_bits_eqb by lia.
    destruct (Z.eqb_spec (Z.of_nat w) k) as [<-|N]; [|reflexivity].
    cbn [andb]. apply (testbit_above _ (Z.of_nat w)); lia.
Qed.

(** *** The swap network of [radicalInverse_VdC] *)

Lemma testbit_high x k : 0 <= x < 2 ^ 32 -> 32 <= k -> Z.testbit x k = false.
Proof. apply testbit_above. Qed.

Lemma swap16_bit x k :
  0 <= x < 2 ^ 32 -> 0 <= k < 32 ->
  Z.testbit (swap16 x) k = Z.testbit x (Z.lxor k 16).
Proof.
  intros Hx Hk. unfold swap16, wrap32.
  rewrite Z.mod_pow2_bits_low, Z.lor_spec, Z.shiftl_spec, Z.shiftr_spec by lia.
  each_bit k; closed_index; closed_mask;
    repeat match goal with
           | |- context [Z.testbit x ?j] => rewrite (testbit_high x j) by lia
           end;
    rewrite ?orb_false_r, ?orb_false_l; reflexivity.
Qed.

Lemma swap_bit lo hi s x k :
  0 <= k < 32 ->
  (lo, hi, s) = (0x55555555, 0xAAAAAAAA, 1) \/
  (lo, hi, s) = (0x33333333, 0xCCCCCCCC, 2) \/
  (lo, hi, s) = (0x0F0F0F0F, 0xF0F0F0F0, 4) \/
  (lo, hi, s) = (0x00FF00FF, 0xFF00FF00, 8) ->
  Z.testbit (swap lo hi s x) k = Z.testbit x (Z.lxor k s).
Proof.
  intros Hk Hs. unfold swap, wrap32.
  rewrite Z.mod_pow2_bits_low by lia.
  rewrite Z.lor_spec, Z.shiftl_spec, Z.shiftr_spec, !Z.land_spec by lia.
  destruct Hs as [E|[E|[E|E]]]; injection E as -> -> ->;
    each_bit k; closed_index; closed_mask;
    rewrite ?andb_false_r, ?andb_true_r, ?orb_false_r, ?orb_false_l; reflexivity.
Qed.

Lemma lxor_range k s : 0 <= k < 32 -> 0 <= s < 32 -> 0 <= Z.lxor k s < 32.
Proof.
  intros Hk Hs. split; [apply Z.lxor_nonneg; lia|].
  destruct (Z.eq_dec (Z.lxor k s) 0) as [->|N]; [lia|].
  apply (Z.log2_lt_cancel _ 32). change (Z.log2 32) with 5.
  assert (Z.log2 k < 5) by (destruct (Z.eq_dec k 0) as [->|]; [cbn; lia|apply Z.log2_lt_pow2; lia]).
  assert (Z.log2 s < 5) by (destruct (Z.eq_dec s 0) as [->|]; [cbn; lia|apply Z.log2_lt_pow2; lia]).
  pose proof (Z.log2_lxor k s ltac:(lia) ltac:(lia)). lia.
Qed.

(** The swap network reverses the 32 bits of its argument. *)
Lemma network_bitrev i :
  0 <= i < 2 ^ 32 ->
  swap 0x00FF00FF 0xFF00FF00 8
    (swap 0x0F0F0F0F 0xF0F0F0F0 4
       (swap 0x33333333 0xCCCCCCCC 2
          (swap 0x55555555 0xAAAAAAAA 1 (swap16 i)))) = bitrev 32 i.
Proof.
  intros Hi. apply Z.bits_inj'. intros k Hk.
  rewrite bitrev_spec by assumption. change (Z.of_nat 32) with 32.
  destruct (Z.ltb_spec k 32) as [L|L].
  - pose proof (lxor_range k 8 ltac:(lia) ltac:(lia)).
    pose proof (lxor_range (Z.lxor k 8) 4 ltac:(lia) ltac:(lia)).
    pose proof (lxor_range (Z.lxor (Z.lxor k 8) 4) 2 ltac:(lia) ltac:(lia)).
    pose proof (lxor_range (Z.lxor (Z.lxor (Z.lxor k 8) 4) 2) 1 ltac:(lia) ltac:(lia)).
    rewrite !swap_bit by (auto 6; lia). rewrite swap16_bit by lia.
    f_equal. each_bit k; reflexivity.
  - unfold swap at 1, wrap32. apply Z.mod_pow2_bits_high. lia.
Qed.

Lemma radicalInverse_VdC_bitrev i :
  0 <= i < 2 ^ 32 -> radicalInverse_VdC i = scale32 (bitrev 32 i).
Proof.
  intros Hi. rewrite <- network_bitrev by assumption.
  unfold radicalInverse_VdC, scale32, swap, swap16. reflexivity.
Qed.

(* ================================================================== *)
(** * The internal target *)

(** ** The internal target *)

(** An integer below [2 ^ 32] converts to binary64 exactly. *)
Lemma F64_of_Z_exact n :
  0 < n < 2 ^ 32 ->
  let d := Z.log2 n + 1 in
  F64.of_Z n = S754_finite false (Z.to_pos (n * 2 ^ (53 - d))) (d - 53).
Proof.
  intros Hn d. subst d. destruct n as [|p|p]; try lia.
  rewrite <- digits_log2.
  pose proof (digits_between p 0 32 ltac:(lia) ltac:(lia)) as Hd.
  pose proof (digits2_pos_bounds p) as [Dlo Dhi].
  set (d := Zpos (digits2_pos p)) in *.
  unfold F64.of_Z, SFof_Z. cbn [binary_normalize].
  rewrite (binary_round_exact F64.prec F64.emax ltac:(reflexivity) _ _ _ d)
    by (try reflexivity; unfold F64.prec, F64.emax, emin; lia).
  unfold mk_float, F64.prec, F64.emax.
  pose proof (pow2_pos (53 - d) ltac:(lia)).
  destruct (Zpos p * 2 ^ (53 - d)) eqn:E; try lia.
  replace (0 - (53 - d) <=? 1024 - 53) with true by (symmetry; apply Z.leb_le; lia).
  cbn [Z.to_pos]. f_equal. lia.
Qed.

Lemma shiftl_floor M E t :
  0 <= M -> E <= 0 -> Z.shiftl M E = t -> t * 2 ^ (- E) <= M < (t + 1) * 2 ^ (- E).
Proof.
  intros HM HE <-. rewrite Z.shiftl_div_pow2 by lia.
  pose proof (pow2_pos (- E) ltac:(lia)) as P.
  pose proof (Z.div_mod M (2 ^ (- E)) ltac:(lia)).
  pose proof (Z.mod_pos_bound M (2 ^ (- E)) P). nia.
Qed.

(** Under [!是圆形] the target is the integer part of the binary64 product
    [Pi_4 * n]: it is within one of [n * Pi_4_mantissa / 2 ^ 53]. *)
Lemma 目标点数_方形 点数量 t :
  目标点数 点数量 false = Some t ->
  let n := wrap32 (点数量 * 2) in
  0 <= t < 2 ^ 31 /\
  2 ^ 53 * t <= Pi_4_mantissa * n + 2 ^ 31 /\
  Pi_4_mantissa * n < 2 ^ 53 * (t + 1) + 2 ^ 31.
Proof.
  unfold 目标点数. cbn [negb]. intros Ht. cbv zeta in *.
  set (n := wrap32 (点数量 * 2)) in *.
  assert (Hn : 0 <= n < 2 ^ 32) by (apply Z.mod_pos_bound; lia).
  destruct (Z.eq_dec n 0) as [E0|N0].
  { rewrite E0 in *. vm_compute in Ht. injection Ht as <-. unfold Pi_4_mantissa. lia. }
  rewrite (F64_of_Z_exact n) in Ht by lia. cbv zeta in Ht.
  pose proof (log2_bounds n ltac:(lia)) as [Llo Lhi].
  assert (Hl : 0 <= Z.log2 n < 32).
  { split; [apply Z.log2_nonneg|apply Z.log2_lt_pow2; lia]. }
  set (d := Z.log2 n + 1) in *.
  pose proof (pow2_pos (53 - d) ltac:(lia)) as P53.
  assert (Hm : 2 ^ 52 <= n * 2 ^ (53 - d) < 2 ^ 53).
  { split.
    - replace 52 with ((d - 1) + (53 - d)) at 1 by lia. rewrite pow2_split by lia.
      replace (d - 1) with (Z.log2 n) by lia. nia.
    - replace 53 with (d + (53 - d)) at 2 by lia. rewrite pow2_split by lia. nia. }
  destruct (n * 2 ^ (53 - d)) as [|pn|pn] eqn:Epn; try lia.
  cbn [Z.to_pos] in Ht. unfold F64.mul, d_Pi_4 in Ht. cbn [SFmul xorb] in Ht.
  assert (HP : 2 ^ 104 <= Zpos (7074237752028440 * pn) < 2 ^ 106).
  { rewrite Pos2Z.inj_mul.
    change (2 ^ 104) with (2 ^ 52 * 2 ^ 52). change (2 ^ 106) with (2 ^ 53 * 2 ^ 53).
    change (2 ^ 52) with 4503599627370496 in *.
    change (2 ^ 53) with 9007199254740992 in *. nia. }
  pose proof (digits_between _ 104 106 ltac:(lia) HP) as HdP.
  pose proof (digits2_pos_bounds (7074237752028440 * pn)) as [DPlo DPhi].
  set (s := Zpos (digits2_pos (7074237752028440 * pn)) - 53) in *.
  assert (Hs : 52 <= s <= 53) by (unfold s; lia).
  rewrite (round_aux_shift F64.prec F64.emax ltac:(reflexivity) _ _ _ s) in Ht
    by (unfold F64.prec, F64.emax, emin; fold s; lia).
  set (P := Zpos (7074237752028440 * pn)) in *.
  assert (EP : P = Pi_4_mantissa * n * 2 ^ (53 - d)).
  { unfold P, Pi_4_mantissa. rewrite Pos2Z.inj_mul, <- Epn. lia. }
  pose proof (rne_error P s ltac:(lia)) as Her.
  assert (HMlo : 2 ^ 52 <= rne P s).
  { apply rne_ge_multiple; [lia|]. rewrite <- pow2_split by lia.
    replace (52 + s) with (Zpos (digits2_pos (7074237752028440 * pn)) - 1)
      by (unfold s; lia). assumption. }
  assert (HMhi : rne P s <= 2 ^ 53).
  { apply rne_le_multiple; [lia|]. rewrite <- pow2_split by lia.
    replace (53 + s) with (Zpos (digits2_pos (7074237752028440 * pn)))
      by (unfold s; lia). lia. }
  set (M2 := rne P s) in *. set (E := -53 + (d - 53) + s) in *.
  assert (HE : -54 <= E <= -21) by (unfold E; lia).
  (* the value [M2 * 2 ^ E], whichever way it is normalized *)
  assert (Val : exists q e, Zpos q * 2 ^ (e - E) = M2 /\ E <= e <= E + 1 /\
            option_map wrap32 (to_int (S754_finite false q e)) = Some t).
  { unfold mk_float, F64.prec, F64.emax in Ht.
    destruct (Z.ltb_spec M2 (2 ^ 53)) as [L|L].
    - destruct M2 as [|q|q] eqn:EM; try lia.
      replace (E <=? 1024 - 53) with true in Ht by (symmetry; apply Z.leb_le; lia).
      exists q, E. rewrite Z.sub_diag, Z.pow_0_r, Z.mul_1_r. repeat split; auto; lia.
    - change (2 ^ (53 - 1)) with (Zpos 4503599627370496) in Ht. cbv iota in Ht.
      replace (E + 1 <=? 1024 - 53) with true in Ht by (symmetry; apply Z.leb_le; lia).
      exists 4503599627370496%positive, (E + 1).
      replace (E + 1 - E) with 1 by lia.
      change (Zpos 4503599627370496 * 2 ^ 1) with (2 ^ 53).
      repeat split; auto; lia. }
  destruct Val as (q & e & Hq & He & Hto).
  unfold to_int, ftrunc in Hto. cbn [cond_Zopp] in Hto.
  destruct ((- 2 ^ 31 <=? Z.shiftl (Zpos q) e) && (Z.shiftl (Zpos q) e <? 2 ^ 31)) eqn:Rg;
    [|discriminate].
  apply andb_true_iff in Rg as [R1 R2]. apply Z.leb_le in R1. apply Z.ltb_lt in R2.
  assert (Hz0 : 0 <= Z.shiftl (Zpos q) e) by (apply Z.shiftl_nonneg; lia).
  cbn [option_map] in Hto. injection Hto as Hto.
  unfold wrap32 in Hto. rewrite Z.mod_small in Hto by lia.
  pose proof (shiftl_floor (Zpos q) e t ltac:(lia) ltac:(lia) Hto) as [Flo Fhi].
  split; [lia|].
  (* bring everything to the scale [2 ^ (53 - d)] *)
  pose proof (pow2_pos (e - E) ltac:(lia)) as PeE.
  pose proof (pow2_pos (- e) ltac:(lia)) as Pe.
  pose proof (pow2_pos (s - 1) ltac:(lia)) as Ps1.
  assert (S1 : 2 ^ (e - E) * 2 ^ (- e) * 2 ^ s = 2 ^ 53 * 2 ^ (53 - d)).
  { rewrite <- !pow2_split by lia. f_equal. unfold E. lia. }
  assert (S2 : 2 ^ (s - 1) <= 2 ^ 31 * 2 ^ (53 - d)).
  { rewrite <- pow2_split by lia. apply Z.pow_le_mono_r; lia. }
  assert (U : t * (2 ^ 53 * 2 ^ (53 - d)) <= M2 * 2 ^ s
              /\ M2 * 2 ^ s < (t + 1) * (2 ^ 53 * 2 ^ (53 - d))).
  { pose proof (pow2_pos s ltac:(lia)) as Ps.
    assert (PC : 0 < 2 ^ (e - E) * 2 ^ s) by (apply Z.mul_pos_pos; assumption).
    destruct (scale_floor t (2 ^ (- e)) (Zpos q) (2 ^ (e - E) * 2 ^ s) PC (conj Flo Fhi))
      as [V1 V2].
    replace (2 ^ 53 * 2 ^ (53 - d)) with (2 ^ (e - E) * 2 ^ s * 2 ^ (- e))
      by (rewrite <- S1; ring).
    replace (M2 * 2 ^ s) with (Zpos q * (2 ^ (e - E) * 2 ^ s)) by (rewrite <- Hq; ring).
    split; assumption. }
  rewrite EP in Her. destruct U as [U1 U2].
  set (A := 2 ^ (53 - d)) in *. set (X := M2 * 2 ^ s) in *.
  replace (2 ^ s * M2) with X in Her by (unfold X; ring).
  set (h := 2 ^ (s - 1)) in *. set (Mn := Pi_4_mantissa * n) in *.
  clearbody A X h Mn. clear - P53 U1 U2 Her S2.
  split.
  - apply (scale_le_cancel _ _ A P53).
    replace (2 ^ 53 * t * A) with (t * (2 ^ 53 * A)) by ring.
    replace ((Mn + 2 ^ 31) * A) with (Mn * A + 2 ^ 31 * A) by ring. lia.
  - apply (scale_lt_cancel _ _ A P53).
    replace ((2 ^ 53 * (t + 1) + 2 ^ 31) * A) with ((t + 1) * (2 ^ 53 * A) + 2 ^ 31 * A)
      by ring. lia.
Qed.

Lemma 目标点数_圆形 点数量 : 目标点数 点数量 true = Some (wrap32 (点数量 * 2)).
Proof. reflexivity. Qed.

(** Below [2 ^ 32 - 128] the conversion to binary32 stays below [2 ^ 32]. *)
Lemma norm32_below b : 0 < b < 2 ^ 32 - 128 -> snd (norm32 b) <= 8.
Proof.
  intros Hb. unfold norm32.
  assert (L31 : Z.log2 b < 32) by (apply Z.log2_lt_pow2; lia).
  destruct (Z.leb_spec (Z.log2 b + 1) 24); cbn [snd]; [lia|].
  destruct (Z.ltb_spec (rne b (Z.log2 b + 1 - 24)) (2 ^ 24)) as [L|L]; cbn [snd]; [lia|].
  destruct (Z.eq_dec (Z.log2 b) 31) as [E|N]; [|lia].
  rewrite E in L. change (31 + 1 - 24) with 8 in L.
  pose proof (rne_error b 8 ltac:(lia)) as Her.
  change (2 ^ (8 - 1)) with 128 in Her. change (2 ^ 8) with 256 in Her.
  change (2 ^ 24) with 16777216 in L. change (2 ^ 32) with 4294967296 in Hb. lia.
Qed.

Lemma scale32_lt_one bits :
  0 <= bits < 2 ^ 32 - 128 -> flt (scale32 bits) f_one = true.
Proof.
  intros Hb. destruct (Z.eq_dec bits 0) as [->|N]; [reflexivity|].
  rewrite scale32_exact by lia.
  pose proof (norm32_below bits ltac:(lia)) as He.
  unfold flt, SFltb, f_one, SFcompare.
  replace (snd (norm32 bits) - 32 ?= -23) with Lt; [reflexivity|].
  symmetry. apply Z.compare_lt_iff. lia.
Qed.

(** A word of 32 bits at or above [2 ^ 32 - 128] has its 25 high bits set. *)
Lemma high_bits_set x j :
  2 ^ 32 - 128 <= x < 2 ^ 32 -> 7 <= j < 32 -> Z.testbit x j = true.
Proof.
  intros Hx Hj.
  replace j with ((j - 7) + 7) by lia. rewrite <- Z.shiftr_spec by lia.
  rewrite Z.shiftr_div_pow2 by lia.
  replace (x / 2 ^ 7) with (Z.ones 25).
  - apply Z.ones_spec_low. lia.
  - change (Z.ones 25) with 33554431. change (2 ^ 7) with 128.
    change (2 ^ 32) with 4294967296 in Hx.
    apply (Z.div_unique x 128 33554431 (x - 4294967168)); lia.
Qed.

Lemma low_bits_set i :
  0 <= i -> (forall k, 0 <= k < 25 -> Z.testbit i k = true) -> 2 ^ 25 - 1 <= i.
Proof.
  intros Hi Hall.
  assert (E : Z.land i (Z.ones 25) = Z.ones 25).
  { apply Z.bits_inj'. intros k Hk. rewrite Z.land_spec.
    destruct (Z.ltb_spec k 25).
    - rewrite Hall, Z.ones_spec_low by lia. reflexivity.
    - rewrite Z.ones_spec_high by lia. apply andb_false_r. }
  rewrite Z.land_ones in E by lia. change (Z.ones 25) with (2 ^ 25 - 1) in E.
  pose proof (Z.mod_le i (2 ^ 25) Hi ltac:(lia)). lia.
Qed.

(** The reversal of an index below [2 ^ 25 - 1] is below [2 ^ 32 - 128]. *)
Lemma bitrev32_below i : 0 <= i < 2 ^ 25 - 1 -> 0 <= bitrev 32 i < 2 ^ 32 - 128.
Proof.
  intros Hi. pose proof (bitrev_range 32 i) as HR. change (Z.of_nat 32) with 32 in HR.
  split; [lia|].
  destruct (Z.lt_ge_cases (bitrev 32 i) (2 ^ 32 - 128)) as [L|L]; [assumption|].
  exfalso. assert (2 ^ 25 - 1 <= i); [|lia].
  apply low_bits_set; [lia|]. intros k Hk.
  pose proof (high_bits_set (bitrev 32 i) (31 - k) ltac:(lia) ltac:(lia)) as Hb.
  rewrite bitrev_spec in Hb by lia. change (Z.of_nat 32) with 32 in Hb.
  replace (31 - k <? 32) with true in Hb by (symmetry; apply Z.ltb_lt; lia).
  replace (32 - 1 - (31 - k)) with k in Hb by lia. assumption.
Qed.

(* ================================================================== *)
(** * Runs from the seed 0 *)

(** ** Runs from the seed 0 do not depend on the libm *)

Lemma draw_float_seed0 : draw_float seed0 = Ok (f_zero, seed0).
Proof. reflexivity. Qed.

Lemma draw_int_seed0 m r g : draw_int m seed0 = Ok (r, g) -> g = seed0.
Proof.
  unfold draw_int. cbn [randomInt DefaultPRNG_PRNG]. unfold DefaultPRNG.randomInt.
  change (DefaultPRNG.randomFloat seed0) with (f_zero, seed0). cbv beta iota.
  destruct (to_u32 _); [|discriminate]. now intros [= _ <-].
Qed.

Lemma 在周围生成随机点_seed0 (L : Libm) c d :
  在周围生成随机点 L c d seed0 =
  Ok (点_of (F32.add (点_x c) (F32.mul (F32.mul d f_one) f_one))
            (F32.add (点_y c) (F32.mul (F32.mul d f_one) f_zero)), seed0).
Proof.
  unfold 在周围生成随机点, bind. rewrite !draw_float_seed0.
  change (F32.mul (F32.mul (F32.of_Z 2) f_pi) f_zero) with f_zero.
  change (F32.add f_zero f_one) with f_one.
  rewrite cosf_zero, sinf_zero. reflexivity.
Qed.

Lemma 尝试新点_seed0 (L : Libm) c d cell cur st :
  尝试新点 L c d cell cur st seed0 = 尝试新点 libm_model c d cell cur st seed0
  /\ forall st' g, 尝试新点 L c d cell cur st seed0 = Ok (st', g) -> g = seed0.
Proof.
  unfold 尝试新点, bind. rewrite !在周围生成随机点_seed0.
  split; [reflexivity|]. intros st' g.
  destruct (在区域内 c _); [|now intros [= _ <-]].
  unfold defined, ret. destruct (要是在邻近区域内 _ _ _ _) as [[]|]; cbn [negb];
    try discriminate; [now intros [= _ <-]|].
  destruct (要插入 _ _); [now intros [= _ <-]|discriminate].
Qed.

Lemma 新增循环_seed0 (L : Libm) i c d cell cur : forall st,
  新增循环 L i c d cell cur st seed0 = 新增循环 libm_model i c d cell cur st seed0
  /\ forall st' g, 新增循环 L i c d cell cur st seed0 = Ok (st', g) -> g = seed0.
Proof.
  induction i as [|i IH]; intros st; cbn [新增循环].
  - split; [reflexivity|]. now intros st' g [= _ <-].
  - unfold bind. destruct (尝试新点_seed0 L c d cell cur st) as [E P]. rewrite <- E.
    destruct (尝试新点 L c d cell cur st seed0) as [[st1 g1]| |] eqn:T;
      [|split; [reflexivity|discriminate]..].
    rewrite (P _ _ eq_refl). apply IH.
Qed.

Lemma 主循环_seed0 (L : Libm) fuel n c k d cell : forall st,
  主循环 L fuel n c k d cell st seed0 = 主循环 libm_model fuel n c k d cell st seed0.
Proof.
  induction fuel as [|fuel IH]; intros st; cbn [主循环]; [reflexivity|].
  destruct (继续 n st); [|reflexivity]. unfold bind.
  destruct (随机取出 (待处理列表 st) seed0) as [[[cur rest] g1]| |] eqn:T; try reflexivity.
  assert (g1 = seed0) as ->.
  { unfold 随机取出, bind in T.
    destruct (draw_int _ seed0) as [[v g]| |] eqn:DI; try discriminate.
    apply draw_int_seed0 in DI. subst g.
    unfold defined, ret in T. destruct (vec_get _ _); [|discriminate].
    now injection T as _ _ <-. }
  destruct (新增循环_seed0 L (Z.to_nat k) c d cell cur (新状态 rest (采样点集 st) (网格值 st)))
    as [E P].
  rewrite <- E.
  destruct (新增循环 L _ c d cell cur _ seed0) as [[st1 g2]| |]; try reflexivity.
  rewrite (P _ _ eq_refl). apply IH.
Qed.

Lemma 首个点_seed0 fuel c p g : 首个点 fuel c seed0 = Ok (p, g) -> g = seed0.
Proof.
  induction fuel as [|fuel IH]; cbn [首个点]; [discriminate|].
  unfold bind. rewrite !draw_float_seed0.
  destruct (在区域内 c _); [now intros [= _ <-]|exact IH].
Qed.

Lemma 生成泊松点集_seed0 (L : Libm) fuel n c k d :
  生成泊松点集 L fuel n c k d seed0 = 生成泊松点集 libm_model fuel n c k d seed0.
Proof.
  unfold 生成泊松点集, bind.
  destruct (defined (目标点数 n c) seed0) as [[t g0]| |] eqn:E0; try reflexivity.
  unfold defined in E0. destruct (目标点数 n c); [|discriminate]. injection E0 as <- <-.
  destruct (z =? 0); [reflexivity|].
  unfold defined. destruct (网格边长 _); [|reflexivity].
  destruct (网格_构造 _ _ _); [|reflexivity].
  destruct (首个点 fuel c seed0) as [[p g]| |] eqn:F; try reflexivity.
  apply 首个点_seed0 in F. subst g.
  destruct (要插入 _ _); [|reflexivity]. apply 主循环_seed0.
Qed.

(* ================================================================== *)
(** * The claims *)

Lemma 下标_In n i : In i (下标 n) <-> 0 <= i < n.
Proof.
  unfold 下标. rewrite in_map_iff. split.
  - intros (k & <- & Hk). apply in_seq in Hk. lia.
  - intros Hi. exists (Z.to_nat i). split; [lia|]. apply in_seq. lia.
Qed.

Lemma 下标_length n : length (下标 n) = Z.to_nat n.
Proof. unfold 下标. now rewrite length_map, length_seq. Qed.

Lemma 下标_nth n i : 0 <= i < n -> nth_error (下标 n) (Z.to_nat i) = Some i.
Proof.
  intros Hi. unfold 下标. rewrite nth_error_map.
  rewrite nth_error_seq.
  replace (Z.to_nat i <? Z.to_nat n)%nat with true by (symmetry; apply Nat.ltb_lt; lia).
  cbn [option_map]. f_equal. lia.
Qed.

Lemma 目标点数_range 点数量 c n : 目标点数 点数量 c = Some n -> 0 <= n < 2 ^ 32.
Proof.
  unfold 目标点数. destruct (negb c).
  - destruct (to_int _); [|discriminate]. intros [= <-]. apply Z.mod_pos_bound. lia.
  - intros [= <-]. apply Z.mod_pos_bound. lia.
Qed.

Lemma hammersley2d_in_square i N :
  0 <= i < N -> N < 2 ^ 32 -> 要是在矩形内 (hammersley2d i N) = true.
Proof.
  intros Hi HN. unfold 要是在矩形内, hammersley2d, 点_of. cbn [点_x 点_y].
  rewrite radicalInverse_VdC_bitrev by lia.
  pose proof (bitrev_range 32 i) as HR. change (Z.of_nat 32) with 32 in HR.
  destruct (ratio_le_one i N ltac:(lia) ltac:(lia) HN) as [X0 X1].
  destruct (scale32_le_one (bitrev 32 i) HR) as [Y0 Y1].
  rewrite X0, X1, Y0, Y1. reflexivity.
Qed.

(* ---------------------------------------------------------------- *)

(** C6: for every generator state, [DefaultPRNG::randomFloat] returns a
    value in [-1, 1).  (It is in fact in [0, 1): [randomFloat_unit].) *)
Theorem randomFloat_range (g : DefaultPRNG.t) :
  fle f_minus_one (fst (DefaultPRNG.randomFloat g)) = true
  /\ flt (fst (DefaultPRNG.randomFloat g)) f_one = true.
Proof.
  destruct (randomFloat_unit g) as [_ H1]. split; [|exact H1].
  rewrite randomFloat_exact. destruct (mantissa g); reflexivity.
Qed.

(** C9, as stated, fails at the bound 0: the interval [0, 0) is empty, and
    [randomInt(0)] returns 0. *)
Lemma randomInt_at_zero_bound :
  fst (DefaultPRNG.randomInt 0 DefaultPRNG.default) = Some 0 /\ ~ (0 <= 0 < 0).
Proof. split; [reflexivity|lia]. Qed.

(** C9 (amended): for every generator state and every bound of 32 bits,
    [DefaultPRNG::randomInt(bound)] is the float output scaled by the bound
    and truncated; it lies in [0, bound) when the bound is positive, and is
    0 when the bound is 0. *)
Theorem randomInt_range (bound : Z) (g : DefaultPRNG.t) :
  0 <= bound < 2 ^ 32 ->
  exists v, fst (DefaultPRNG.randomInt bound g) = Some v
            /\ (0 < bound -> 0 <= v < bound) /\ (bound = 0 -> v = 0).
Proof.
  intros Hb. destruct (Z.eq_dec bound 0) as [->|N].
  - exists 0. rewrite randomInt_zero. repeat split; lia.
  - destruct (randomInt_below bound g ltac:(lia)) as (v & E & Hv).
    exists v. repeat split; auto; lia.
Qed.

Lemma randomInt_range_witness :
  exists v, fst (DefaultPRNG.randomInt 10 DefaultPRNG.default) = Some v
            /\ (0 < 10 -> 0 <= v < 10) /\ (10 = 0 -> v = 0).
Proof. apply (randomInt_range 10 DefaultPRNG.default). lia. Defined.

(** C3, as stated, fails: with [是圆形 = true] the doubled count 4 is kept
    (the claim has it scaled to 3), with [是圆形 = false] it is scaled to 3
    (the claim has it kept). *)
Lemma target_scaled_for_square_only :
  目标点数 2 true = Some 4 /\ 目标点数 2 false = Some 3.
Proof. split; reflexivity. Qed.

(** C3 (amended): the internal target is the requested count doubled
    (modulo 2^32); when [是圆形 = false] it is further scaled by PI/4 (the
    integer part of the binary64 product, within one of
    [n * Pi_4_mantissa / 2^53]); when [是圆形 = true] no scaling is
    applied. *)
Theorem target_points_spec :
  (forall 点数量, 目标点数 点数量 true = Some (wrap32 (点数量 * 2)))
  /\ (forall 点数量 t,
        目标点数 点数量 false = Some t ->
        0 <= t < 2 ^ 31
        /\ 2 ^ 53 * t <= Pi_4_mantissa * wrap32 (点数量 * 2) + 2 ^ 31
        /\ Pi_4_mantissa * wrap32 (点数量 * 2) < 2 ^ 53 * (t + 1) + 2 ^ 31).
Proof.
  split; [exact 目标点数_圆形|]. intros n t Ht. exact (目标点数_方形 n t Ht).
Qed.

Lemma target_points_spec_witness :
  目标点数 100 true = Some 200
  /\ 0 <= 157 < 2 ^ 31
  /\ 2 ^ 53 * 157 <= Pi_4_mantissa * wrap32 (100 * 2) + 2 ^ 31
  /\ Pi_4_mantissa * wrap32 (100 * 2) < 2 ^ 53 * (157 + 1) + 2 ^ 31.
Proof.
  split; [exact (proj1 target_points_spec 100)|].
  exact (proj2 target_points_spec 100 157 eq_refl).
Defined.

(** C8: when the internal target is zero, [生成泊松点集] returns the empty
    sequence at once: no fuel is consumed, the generator is not advanced,
    and neither the minimal distance nor the grid size is consulted (the
    grid would be undefined for the default distance, [网格边长_of_zero_target]). *)
Theorem zero_target_returns_empty {G : Type} `{PRNG G} (L : Libm) (fuel : nat)
    (点数量 : Z) (是圆形 : bool) (新增点数量 : Z) (最小距离 : float) (g : G) :
  目标点数 点数量 是圆形 = Some 0 ->
  生成泊松点集 L fuel 点数量 是圆形 新增点数量 最小距离 g = Ok ([], g).
Proof.
  intros E. unfold 生成泊松点集, bind, defined. rewrite E. reflexivity.
Qed.

Lemma zero_target_returns_empty_witness :
  生成泊松点集 libm_model 0 0 true 30 f_minus_one DefaultPRNG.default
  = Ok ([], DefaultPRNG.default).
Proof. apply zero_target_returns_empty. reflexivity. Defined.

Lemma 网格边长_of_zero_target :
  网格边长 (单格尺寸_of (有效最小距离 0 f_minus_one)) = None.
Proof. reflexivity. Qed.

(** C10 fails on the code: for the default arguments of a one-point request
    the cell size is 0.5 and the grid 2 x 2, and the point (1, 0.5), which
    is in the unit square and in the unit circle, is mapped to the cell
    (2, 1): [要插入] indexes the outer vector outside its bounds. *)
Theorem insert_outside_grid :
  let 最小距离 := 有效最小距离 2 f_minus_one in
  let 单格尺寸 := 单格尺寸_of 最小距离 in
  let p := 点_of f_one f_half in
  目标点数 1 true = Some 2
  /\ 单格尺寸 = f_half
  /\ 网格边长 单格尺寸 = Some 2
  /\ 要是在矩形内 p = true /\ 要是在圆形内 p = true
  /\ 图像到网格 p 单格尺寸 = Some (新网格点 2 1)
  /\ option_map (fun 格 => 要插入 格 p) (网格_构造 2 2 单格尺寸) = Some None.
Proof. cbv zeta. repeat split; reflexivity. Qed.

Lemma 生成Vogel点集_one (L : Libm) :
  生成Vogel点集 L 1 false f_zero (点_of f_half f_half) = [Vogel_第一点].
Proof.
  unfold 生成Vogel点集, 下标. change (Z.to_nat 1) with 1%nat.
  cbn [seq map]. unfold 采样Vogel盘.
  change (F32.add (F32.mul (F32.of_Z (Z.of_nat 0)) f_golden)
                  (F32.div (F32.mul f_zero f_pi) f_180)) with f_zero.
  rewrite cosf_zero, sinf_zero. reflexivity.
Qed.

(** C2, as stated, fails for the Vogel sampler, which filters nothing:
    with [是圆形 = false] its single point for a count of one is
    (0.5 + sqrt(0.5), 0.5), outside the unit square. *)
Lemma Vogel_point_outside_square :
  生成Vogel点集 libm_model 1 false f_zero (点_of f_half f_half) = [Vogel_第一点]
  /\ 要是在矩形内 Vogel_第一点 = false.
Proof. split; [apply 生成Vogel点集_one|reflexivity]. Qed.

(** C2 (amended): every point returned by [生成泊松点集] satisfies the
    selected region predicate; every point returned by [生成抖动网格点集] lies
    in the unit square and satisfies the selected region predicate; every
    point returned by [生成Hammersley点集], which has no region flag, lies in
    the unit square.  ([生成Vogel点集] applies no filter.) *)
Theorem region_of_samples :
  (forall (G : Type) (R : PRNG G) (L : Libm) fuel 点数量 是圆形 新增点数量 最小距离
          (g : G) out g',
      生成泊松点集 L fuel 点数量 是圆形 新增点数量 最小距离 g = Ok (out, g') ->
      Forall (fun p => 在区域内 是圆形 p = true) out)
  /\ (forall (G : Type) (R : PRNG G) (L : Libm) fuel 点数量 是圆形 抖动半径 中心点
             (g : G) out g',
      生成抖动网格点集 L fuel 点数量 是圆形 抖动半径 中心点 g = Ok (out, g') ->
      Forall (fun p => 要是在矩形内 p = true /\ 在区域内 是圆形 p = true) out)
  /\ (forall 点数量,
      0 <= 点数量 < 2 ^ 32 ->
      Forall (fun p => 要是在矩形内 p = true) (生成Hammersley点集 点数量)).
Proof.
  repeat split.
  - intros G R L fuel n c k d g out g' E.
    apply 生成泊松点集_inv in E as (t & _ & [(_ & -> & _)|(_ & p & g1 & 格 & F & E)]).
    + constructor.
    + apply 首个点_在区域内 in F. apply 主循环_spec in E as [_ Hreg].
      apply Hreg. cbn [采样点集]. constructor; [exact F|constructor].
  - intros G R L fuel n c r ctr g out g' E.
    exact (生成抖动网格点集_spec L _ _ _ _ _ _ _ _ E).
  - intros N HN. unfold 生成Hammersley点集. apply Forall_forall.
    intros p Hp. apply in_map_iff in Hp as (i & <- & Hi). apply 下标_In in Hi.
    apply hammersley2d_in_square; lia.
Qed.

Lemma Poisson_run_default_seed :
  生成泊松点集 libm_model 20 10 true 0 f_minus_one DefaultPRNG.default
  = Ok ([点_of (S754_finite false 14536768 (-29)) (S754_finite false 9322782 (-24))],
        DefaultPRNG.Build 1783894177).
Proof. vm_compute. reflexivity. Qed.

Lemma jitter_run_seed0 :
  生成抖动网格点集 libm_model 3 4 true f_jitter (点_of f_half f_half) seed0
  = Ok ([点_of (S754_finite false 8589952 (-31)) f_half;
         点_of (S754_finite false 8455717 (-24)) f_half], seed0).
Proof. vm_compute. reflexivity. Qed.

Lemma Poisson_run_seed0 (fuel : nat) :
  生成泊松点集 libm_model (4 + fuel) 1 false 30 f_minus_one seed0
  = Ok ([点_of f_zero f_zero; 点_of f_one f_zero], seed0).
Proof.
  apply (生成泊松点集_mono libm_model 4); [lia|]. vm_compute. reflexivity.
Qed.

Lemma region_of_samples_witness :
  Forall (fun p => 在区域内 true p = true)
         [点_of (S754_finite false 14536768 (-29)) (S754_finite false 9322782 (-24))]
  /\ Forall (fun p => 要是在矩形内 p = true /\ 在区域内 true p = true)
            [点_of (S754_finite false 8589952 (-31)) f_half;
             点_of (S754_finite false 8455717 (-24)) f_half]
  /\ Forall (fun p => 要是在矩形内 p = true) (生成Hammersley点集 4).
Proof.
  destruct region_of_samples as (P & J & Hm). repeat split.
  - exact (P _ _ libm_model 20%nat 10 true 0 f_minus_one DefaultPRNG.default _ _
             Poisson_run_default_seed).
  - exact (J _ _ libm_model 3%nat 4 true f_jitter (点_of f_half f_half) seed0 _ _
             jitter_run_seed0).
  - apply Hm. lia.
Defined.

(** C4, as stated, fails: for a request of one point in the square the
    internal target is 1, and from the seed 0 the sampler returns two
    points. *)
Lemma Poisson_exceeds_target :
  目标点数 1 false = Some 1
  /\ 生成泊松点集 libm_model 4 1 false 30 f_minus_one seed0
     = Ok ([点_of f_zero f_zero; 点_of f_one f_zero], seed0).
Proof. split; [reflexivity|exact (Poisson_run_seed0 0)]. Qed.

(** The same run, whatever the platform's [cos] and [sin] are. *)
Lemma Poisson_exceeds_target_any_libm (L : Libm) :
  生成泊松点集 L 4 1 false 30 f_minus_one seed0
  = Ok ([点_of f_zero f_zero; 点_of f_one f_zero], seed0).
Proof. rewrite 生成泊松点集_seed0. exact (Poisson_run_seed0 0). Qed.

(** C4 (amended): the size of the sequence returned by [生成泊松点集] never
    exceeds the internal target by more than [新增点数量], the number of
    candidates of one pass of the main loop. *)
Theorem Poisson_size_bound {G : Type} `{PRNG G} (L : Libm) (fuel : nat)
    (点数量 : Z) (是圆形 : bool) (新增点数量 : Z) (最小距离 : float) (g : G)
    (n : Z) (out : list 点) (g' : G) :
  0 <= 新增点数量 ->
  目标点数 点数量 是圆形 = Some n ->
  生成泊松点集 L fuel 点数量 是圆形 新增点数量 最小距离 g = Ok (out, g') ->
  Z.of_nat (length out) <= n + 新增点数量.
Proof.
  intros Hk Hn E. pose proof (目标点数_range _ _ _ Hn) as Rn.
  apply 生成泊松点集_inv in E as (t & Ht & [(_ & -> & _)|(N0 & p & g1 & 格 & _ & E)]).
  - cbn [length]. lia.
  - rewrite Hn in Ht. injection Ht as <-.
    apply 主循环_spec in E as [Hlen _]. cbn [采样点集 length] in Hlen.
    rewrite Z2Nat.id in Hlen by assumption. apply Hlen. lia.
Qed.

Lemma Poisson_size_bound_witness :
  Z.of_nat (length [点_of f_zero f_zero; 点_of f_one f_zero]) <= 1 + 30.
Proof.
  apply (Poisson_size_bound libm_model 4 1 false 30 f_minus_one seed0 1 _ seed0);
    [lia|reflexivity|exact (Poisson_run_seed0 0)].
Defined.

Lemma 生成Hammersley点集_nth N i :
  0 <= i < N ->
  nth_error (生成Hammersley点集 N) (Z.to_nat i) = Some (hammersley2d i N).
Proof.
  intros Hi. unfold 生成Hammersley点集.
  rewrite nth_error_map, 下标_nth by assumption. reflexivity.
Qed.

(** C7, as stated, fails at the top of the range: the reversal of
    33554431 = 2^25 - 1 is 2^32 - 128, which rounds to 2^32 in binary32, so
    the point of that index has y = 1, outside [0, 1). *)
Lemma Hammersley_reaches_one :
  nth_error (生成Hammersley点集 33554432) (Z.to_nat 33554431)
  = Some (点_of f_one f_one)
  /\ bitrev 32 33554431 = 2 ^ 32 - 128
  /\ flt f_one f_one = false.
Proof.
  split; [|split; reflexivity].
  rewrite 生成Hammersley点集_nth by lia. vm_compute. reflexivity.
Qed.

(** C7 (amended): [生成Hammersley点集(count)] returns exactly [count] points;
    the point of index [i] has x = [float(i) / float(count)] and y = the
    32-bit reversal of [i] converted to binary32 and scaled by 2^-32, a
    value of [0, 1] that is below 1 for every index below 2^25 - 1; and
    [生成Hammersley点集(4)] is (0, 0), (0.25, 0.5), (0.5, 0.25), (0.75, 0.75). *)
Theorem Hammersley_points :
  (forall 点数量, length (生成Hammersley点集 点数量) = Z.to_nat 点数量)
  /\ (forall 点数量 i,
        0 <= i < 点数量 -> 点数量 < 2 ^ 32 ->
        nth_error (生成Hammersley点集 点数量) (Z.to_nat i)
        = Some (点_of (F32.div (F32.of_Z i) (F32.of_Z 点数量))
                      (scale32 (bitrev 32 i)))
        /\ fle f_zero (scale32 (bitrev 32 i)) = true
        /\ fle (scale32 (bitrev 32 i)) f_one = true
        /\ (i < 2 ^ 25 - 1 -> flt (scale32 (bitrev 32 i)) f_one = true))
  /\ 生成Hammersley点集 4
     = [点_of f_zero f_zero; 点_of f_quarter f_half; 点_of f_half f_quarter;
        点_of f_three_quarters f_three_quarters].
Proof.
  split; [|split].
  - intros N. unfold 生成Hammersley点集. now rewrite length_map, 下标_length.
  - intros N i Hi HN.
    pose proof (bitrev_range 32 i) as HR. change (Z.of_nat 32) with 32 in HR.
    destruct (scale32_le_one (bitrev 32 i) HR) as [Y0 Y1].
    repeat split; try assumption.
    + rewrite 生成Hammersley点集_nth by assumption. unfold hammersley2d.
      rewrite radicalInverse_VdC_bitrev by lia. reflexivity.
    + intros Hlt. apply scale32_lt_one. apply bitrev32_below. lia.
  - vm_compute. reflexivity.
Qed.

Lemma Hammersley_points_witness :
  nth_error (生成Hammersley点集 4) (Z.to_nat 1)
  = Some (点_of (F32.div (F32.of_Z 1) (F32.of_Z 4)) (scale32 (bitrev 32 1)))
  /\ fle f_zero (scale32 (bitrev 32 1)) = true
  /\ fle (scale32 (bitrev 32 1)) f_one = true
  /\ (1 < 2 ^ 25 - 1 -> flt (scale32 (bitrev 32 1)) f_one = true).
Proof.
  apply (proj1 (proj2 Hammersley_points) 4 1); lia.
Defined.

(** ** Why the minimal distance is not an invariant of the grid

    [要插入] overwrites.  For the count 34 on the square the internal target
    is 53, and the cell side is the binary32 quotient of the minimal
    distance by the root of two, slightly above their real quotient: the
    origin P and the point Q just inside the opposite corner of the first
    cell share that cell, and their computed distance is exactly the minimal
    distance, not below it.  So Q passes the neighbourhood test and replaces
    P in the grid; after that a candidate equal to P passes the test too,
    although P is already a sample. *)

(** X19: a sample can be lost.  For the count 34 on the square (internal
    target 53, a grid of 11 x 11 cells) the minimal distance, the cell size
    and the distances between the two points below are the same whichever
    overload of [sqrt] is called (the two scans call [获取距离] on the
    pairs (P, Q) and (Q, P) only).  On the fresh grid: P = (0, 0) is
    inserted; Q, in the same cell, is in the square and passes the scan (its
    computed distance to P equals the minimal distance); Q is inserted in
    place of P; then a candidate equal to P passes the scan, although its
    distance to the sample P is +0. *)
Lemma overwritten_sample_is_forgotten :
  let 最小距离 := 有效最小距离 53 f_minus_one in
  let 单格尺寸 := 单格尺寸_of 最小距离 in
  let P := 点_of f_zero f_zero in
  let Q := 点_of (S754_finite false 13036377 (-27)) (S754_finite false 13036377 (-27)) in
  目标点数 34 false = Some 53
  /\ 网格边长 单格尺寸 = Some 11
  /\ (有效最小距离_双精度 53 f_minus_one = 最小距离
      /\ 单格尺寸_双精度 最小距离 = 单格尺寸
      /\ 获取距离_双精度 P Q = 获取距离 P Q
      /\ 获取距离_双精度 Q P = 获取距离 Q P
      /\ 获取距离_双精度 P P = 获取距离 P P)
  /\ exists 格0 格1 格2,
    网格_构造 11 11 单格尺寸 = Some 格0
    /\ 要插入 格0 P = Some 格1
    /\ 要是在矩形内 Q = true
    /\ 要是在邻近区域内 格1 Q 最小距离 单格尺寸 = Some false
    /\ 要插入 格1 Q = Some 格2
    /\ 要是在邻近区域内 格2 P 最小距离 单格尺寸 = Some false
    /\ flt (获取距离 P P) 最小距离 = true.
Proof.
  cbv zeta.
  split; [vm_compute; reflexivity|].
  split; [vm_compute; reflexivity|].
  split; [repeat split; vm_compute; reflexivity|].
  eexists. eexists. eexists.
  split; [vm_compute; reflexivity|].
  split; [vm_compute; reflexivity|].
  repeat split; vm_compute; reflexivity.
Qed.

(* ================================================================== *)
(** * The acceleration grid *)

(** ** Vectors *)

Lemma list_set_Some {A} (a : A) : forall v n v',
  list_set v n a = Some v' ->
  (n < length v)%nat /\ length v' = length v /\ nth_error v' n = Some a
  /\ forall m, m <> n -> nth_error v' m = nth_error v m.
Proof.
  induction v as [|h t IH]; intros [|n] v' E; cbn in E; try discriminate.
  - injection E as <-. cbn. repeat split; try lia.
    intros [|m] Hm; [congruence|reflexivity].
  - destruct (list_set t n a) as [t'|] eqn:Et; [|discriminate].
    injection E as <-. destruct (IH _ _ Et) as (L & Len & Hn & Ho).
    cbn. repeat split; try lia; auto.
    intros [|m] Hm; [reflexivity|]. cbn. apply Ho. congruence.
Qed.

Lemma list_set_defined {A} (a : A) : forall v n,
  (n < length v)%nat -> exists v', list_set v n a = Some v'.
Proof.
  induction v as [|h t IH]; intros [|n] L; cbn in L; try lia.
  - eexists; reflexivity.
  - destruct (IH n) as [t' E]; [lia|]. cbn. rewrite E. eexists; reflexivity.
Qed.

Lemma list_set_twice {A} (a b : A) : forall v n v',
  list_set v n a = Some v' -> list_set v' n b = list_set v n b.
Proof.
  induction v as [|h t IH]; intros [|n] v' E; cbn in E; try discriminate.
  - injection E as <-. reflexivity.
  - destruct (list_set t n a) as [t'|] eqn:Et; [|discriminate].
    injection E as <-. cbn. now rewrite (IH _ _ Et).
Qed.

Lemma vec_get_Some {A} (v : list A) i x :
  vec_get v i = Some x -> 0 <= i < Z.of_nat (length v).
Proof.
  unfold vec_get. destruct (i <? 0) eqn:N; [discriminate|].
  apply Z.ltb_ge in N. intros E.
  assert (Z.to_nat i < length v)%nat by (apply nth_error_Some; congruence).
  lia.
Qed.

Lemma vec_get_defined {A} (v : list A) i :
  0 <= i < Z.of_nat (length v) -> exists x, vec_get v i = Some x.
Proof.
  intros Hi. unfold vec_get.
  destruct (i <? 0) eqn:N; [apply Z.ltb_lt in N; lia|].
  destruct (nth_error v (Z.to_nat i)) eqn:E; [eauto|].
  apply nth_error_None in E. lia.
Qed.

Lemma vec_set_Some {A} (v : list A) i a v' :
  vec_set v i a = Some v' ->
  0 <= i < Z.of_nat (length v) /\ length v' = length v
  /\ vec_get v' i = Some a
  /\ forall k, k <> i -> vec_get v' k = vec_get v k.
Proof.
  unfold vec_set, vec_get. destruct (i <? 0) eqn:N; [discriminate|].
  apply Z.ltb_ge in N. intros E.
  destruct (list_set_Some _ _ _ _ E) as (L & Len & Hn & Ho).
  repeat split; try lia; auto.
  intros k Hk. destruct (k <? 0) eqn:Nk; [reflexivity|].
  apply Z.ltb_ge in Nk. apply Ho. lia.
Qed.

Lemma vec_set_twice {A} (v : list A) i a b v' :
  vec_set v i a = Some v' -> vec_set v' i b = vec_set v i b.
Proof.
  unfold vec_set. destruct (i <? 0); [discriminate|]. apply list_set_twice.
Qed.

(** ** Insertion *)

Lemma 要插入_inv 格 p 格' :
  要插入 格 p = Some 格' ->
  exists c row row',
    图像到网格 p (单格_ 格) = Some c
    /\ vec_get (网格_ 格) (格_x c) = Some row
    /\ vec_set row (格_y c) p = Some row'
    /\ vec_set (网格_ 格) (格_x c) row' = Some (网格_ 格')
    /\ 宽_ 格' = 宽_ 格 /\ 高_ 格' = 高_ 格 /\ 单格_ 格' = 单格_ 格.
Proof.
  unfold 要插入. intros E.
  destruct (图像到网格 p (单格_ 格)) as [c|]; [|discriminate].
  destruct (vec_get (网格_ 格) (格_x c)) as [row|] eqn:Er; [|discriminate].
  destruct (vec_set row (格_y c) p) as [row'|] eqn:Es; [|discriminate].
  destruct (vec_set (网格_ 格) (格_x c) row') as [rows|] eqn:Eo; [|discriminate].
  injection E as <-. exists c, row, row'. cbn. auto 10.
Qed.

Lemma 格子_要插入 格 p 格' c :
  要插入 格 p = Some 格' ->
  图像到网格 p (单格_ 格) = Some c ->
  格子 格' (格_x c) (格_y c) = Some p
  /\ forall i j, (i, j) <> (格_x c, 格_y c) -> 格子 格' i j = 格子 格 i j.
Proof.
  intros E Ec. apply 要插入_inv in E.
  destruct E as (c' & row & row' & Ec' & Er & Es & Eo & _).
  rewrite Ec in Ec'. injection Ec' as <-.
  destruct (vec_set_Some _ _ _ _ Es) as (_ & _ & Hs & Hso).
  destruct (vec_set_Some _ _ _ _ Eo) as (_ & _ & Ho & Hoo).
  unfold 格子. split.
  - now rewrite Ho.
  - intros i j Hij. destruct (Z.eq_dec i (格_x c)) as [->|Hi].
    + rewrite Ho, Er. apply Hso. congruence.
    + now rewrite Hoo.
Qed.

Lemma 方阵_要插入 n 格 p 格' :
  方阵 n 格 -> 要插入 格 p = Some 格' -> 方阵 n 格'.
Proof.
  intros (W & Hh & L & R) E. apply 要插入_inv in E.
  destruct E as (c & row & row' & _ & Er & Es & Eo & W' & H' & _).
  destruct (vec_set_Some _ _ _ _ Es) as (_ & Ls & _).
  destruct (vec_set_Some _ _ _ _ Eo) as (Ho & Lo & Hg & Hgo).
  unfold 方阵. rewrite W', H', Lo. repeat split; auto.
  apply Forall_forall. intros r Hr.
  apply In_nth_error in Hr. destruct Hr as [k Hk].
  rewrite Forall_forall in R.
  assert (Hlen : (k < length (网格_ 格'))%nat) by (apply nth_error_Some; congruence).
  destruct (Z.eq_dec (Z.of_nat k) (格_x c)) as [Hkc|Hkc].
  - unfold vec_get in Hg. destruct (格_x c <? 0); [discriminate|].
    rewrite <- Hkc, Nat2Z.id, Hk in Hg. injection Hg as ->.
    rewrite Ls. apply R. unfold vec_get in Er.
    destruct (格_x c <? 0); [discriminate|]. now apply nth_error_In in Er.
  - specialize (Hgo (Z.of_nat k) Hkc). unfold vec_get in Hgo.
    destruct (Z.of_nat k <? 0) eqn:N; [apply Z.ltb_lt in N; lia|].
    rewrite Nat2Z.id, Hk in Hgo. symmetry in Hgo.
    apply R. now apply nth_error_In in Hgo.
Qed.

Lemma 方阵_格子 n 格 i j :
  方阵 n 格 -> 0 <= i < n -> 0 <= j < n -> exists P, 格子 格 i j = Some P.
Proof.
  intros (_ & _ & L & R) Hi Hj. unfold 格子.
  destruct (vec_get_defined (网格_ 格) i) as [row Er]; [lia|]. rewrite Er.
  apply vec_get_defined. rewrite Forall_forall in R.
  unfold vec_get in Er. destruct (i <? 0); [discriminate|].
  apply nth_error_In in Er. rewrite (R _ Er). lia.
Qed.

Lemma 网格_构造_方阵 n 单格 格 :
  网格_构造 n n 单格 = Some 格 ->
  方阵 n 格 /\ 单格_ 格 = 单格
  /\ forall i j P, 格子 格 i j = Some P -> P = 空点.
Proof.
  unfold 网格_构造. destruct (0 <=? n) eqn:N; cbn [andb]; [|discriminate].
  apply Z.leb_le in N. intros E. injection E as <-.
  unfold 方阵. cbn [宽_ 高_ 单格_ 网格_]. repeat split.
  - rewrite repeat_length. lia.
  - apply Forall_forall. intros r Hr. apply repeat_spec in Hr. subst r.
    rewrite repeat_length. lia.
  - intros i j P. unfold 格子, vec_get. cbn [网格_].
    destruct (i <? 0); [discriminate|].
    destruct (nth_error _ (Z.to_nat i)) as [row|] eqn:Er; [|discriminate].
    apply nth_error_In, repeat_spec in Er. subst row.
    destruct (j <? 0); [discriminate|]. intros Ej.
    now apply nth_error_In, repeat_spec in Ej.
Qed.

(** ** The scan *)

Lemma In_邻域 c i : In i (邻域 c) <-> c - D <= i <= c + D.
Proof.
  unfold 邻域. rewrite in_map_iff. split.
  - intros (k & <- & Hk). apply in_seq in Hk. unfold D in *. lia.
  - intros Hi. exists (Z.to_nat (i - (c - D))). split; [lia|].
    apply in_seq. unfold D in *. lia.
Qed.

Lemma 扫描_spec 格 p d : forall cells,
  (forall i j, In (i, j) cells -> 0 <= i < 宽_ 格 -> 0 <= j < 高_ 格 ->
               exists P, 格子 格 i j = Some P) ->
  exists b, 扫描 格 p d cells = Some b
    /\ (b = true <->
        exists i j, In (i, j) cells /\ 0 <= i < 宽_ 格 /\ 0 <= j < 高_ 格
                    /\ 过近 格 p d i j).
Proof.
  induction cells as [|[i j] rest IH]; intros Hall; cbn [扫描].
  - exists false. split; [reflexivity|]. split; [discriminate|].
    intros (i & j & [] & _).
  - destruct IH as (b & Eb & Hb).
    { intros i' j' Hin. apply Hall. now right. }
    destruct ((0 <=? i) && (i <? 宽_ 格) && (0 <=? j) && (j <? 高_ 格)) eqn:B.
    + apply andb_true_iff in B. destruct B as [B Bj2].
      apply andb_true_iff in B. destruct B as [B Bj1].
      apply andb_true_iff in B. destruct B as [Bi1 Bi2].
      apply Z.leb_le in Bi1, Bj1. apply Z.ltb_lt in Bi2, Bj2.
      destruct (Hall i j) as [P EP]; [now left|lia|lia|].
      unfold 格子 in EP.
      destruct (vec_get (网格_ 格) i) as [row|] eqn:Er; [|discriminate].
      rewrite EP.
      destruct (是有效的 P && flt (获取距离 P p) d) eqn:T.
      * exists true. split; [reflexivity|]. split; [|reflexivity].
        intros _. exists i, j. split; [now left|]. repeat split; try lia.
        apply andb_true_iff in T. destruct T as [T1 T2].
        exists P. unfold 格子. rewrite Er. auto.
      * exists b. split; [exact Eb|]. rewrite Hb. split.
        -- intros (i' & j' & Hin & R). exists i', j'. split; [now right|exact R].
        -- intros (i' & j' & [Hin|Hin] & Hi & Hj & P' & EP' & V & C).
           ++ injection Hin as <- <-. unfold 格子 in EP'.
              rewrite Er, EP in EP'. injection EP' as <-.
              rewrite V, C in T. discriminate.
           ++ exists i', j'. split; [exact Hin|]. repeat split; try lia.
              exists P'. auto.
    + exists b. split; [exact Eb|]. rewrite Hb. split.
      * intros (i' & j' & Hin & R). exists i', j'. split; [now right|exact R].
      * intros (i' & j' & [Hin|Hin] & Hi & Hj & R).
        -- injection Hin as <- <-.
           assert ((0 <=? i) && (i <? 宽_ 格) && (0 <=? j) && (j <? 高_ 格) = true).
           { rewrite !andb_true_iff, !Z.leb_le, !Z.ltb_lt. lia. }
           congruence.
        -- exists i', j'. auto.
Qed.

(** ** The distance *)

Lemma round_aux_sign prec emax s m e l :
  binary_round_aux prec emax s m e l
  = (if s then SFopp (binary_round_aux prec emax false m e l)
     else binary_round_aux prec emax false m e l).
Proof.
  destruct s; [|reflexivity]. unfold binary_round_aux.
  destruct (shr_fexp prec emax m e l) as [mrs' e'].
  destruct (shr_fexp prec emax _ e' loc_Exact) as [mrs'' e''].
  destruct (shr_m mrs''); try reflexivity.
  destruct (e'' <=? emax - prec); reflexivity.
Qed.

Lemma round_sign prec emax s p e :
  binary_round prec emax s p e
  = (if s then SFopp (binary_round prec emax false p e)
     else binary_round prec emax false p e).
Proof.
  unfold binary_round.
  destruct (shl_align p e (fexp prec emax (Z.pos (digits2_pos p) + e))) as [mz ez].
  apply round_aux_sign.
Qed.

Lemma mul_opp_opp prec emax x :
  SFmul prec emax (SFopp x) (SFopp x) = SFmul prec emax x x.
Proof.
  destruct x as [s|s| |s m e]; cbn [SFopp SFmul]; try reflexivity;
    now destruct s.
Qed.

Lemma normalize_opp prec emax n e :
  binary_normalize prec emax (- n) e false
  = match n with
    | 0 => S754_zero false
    | _ => SFopp (binary_normalize prec emax n e false)
    end.
Proof.
  destruct n as [|p|p]; cbn [Z.opp binary_normalize]; try reflexivity.
  - now rewrite (round_sign prec emax true).
  - rewrite (round_sign prec emax true).
    destruct (binary_round prec emax false p e) as [[]|[]| |[] ? ?]; reflexivity.
Qed.

Lemma sub_square_sym prec emax a b :
  SFmul prec emax (SFsub prec emax a b) (SFsub prec emax a b)
  = SFmul prec emax (SFsub prec emax b a) (SFsub prec emax b a).
Proof.
  destruct a as [sa|sa| |sa ma ea], b as [sb|sb| |sb mb eb];
    try reflexivity;
    try (destruct sa, sb; reflexivity);
    try (destruct sa; reflexivity);
    try (destruct sb; reflexivity).
  cbn [SFsub]. rewrite (Z.min_comm eb ea).
  set (ez := Z.min ea eb).
  set (A := cond_Zopp sa (Z.pos (fst (shl_align ma ea ez)))).
  set (B := cond_Zopp sb (Z.pos (fst (shl_align mb eb ez)))).
  replace (B - A) with (- (A - B)) by lia.
  rewrite normalize_opp. destruct (A - B) eqn:E; try reflexivity;
    now rewrite mul_opp_opp.
Qed.

Lemma 获取距离_sym P Q : 获取距离 P Q = 获取距离 Q P.
Proof.
  unfold 获取距离, F32.mul, F32.sub.
  now rewrite (sub_square_sym _ _ (点_x P)), (sub_square_sym _ _ (点_y P)).
Qed.

(** A coordinate that is a number: a zero or a finite float. *)
Lemma to_int_div_number x c z :
  to_int (F32.div x c) = Some z ->
  match x with S754_zero _ | S754_finite _ _ _ => True | _ => False end.
Proof.
  destruct x as [s|s| |s m e]; auto.
  - destruct c as [?|?| |? ? ?]; discriminate.
  - destruct c as [?|?| |? ? ?]; discriminate.
Qed.

Lemma sub_self x :
  match x with S754_zero _ | S754_finite _ _ _ => True | _ => False end ->
  F32.sub x x = S754_zero false.
Proof.
  destruct x as [s|s| |s m e]; intros []; unfold F32.sub; cbn [SFsub].
  - now destruct s.
  - now rewrite Z.sub_diag.
Qed.

Lemma 获取距离_self p c g :
  图像到网格 p c = Some g -> 获取距离 p p = f_zero.
Proof.
  unfold 图像到网格.
  destruct (to_int (F32.div (点_x p) c)) as [zx|] eqn:Ex; [|discriminate].
  destruct (to_int (F32.div (点_y p) c)) as [zy|] eqn:Ey; [|discriminate].
  intros _. apply to_int_div_number in Ex, Ey.
  unfold 获取距离. rewrite (sub_self _ Ex), (sub_self _ Ey). reflexivity.
Qed.

(** ** The range of a cell index

    A rounded mantissa has at most [prec] digits, so an integral binary32
    value below [2 ^ 31] is at most [2 ^ 31 - 128]: the upper bounds
    [g.x + D] and [g.y + D] of the scan never overflow.  The lower bounds
    do, for the index [- 2 ^ 31]. *)

Section Digits.
  Variables prec emax : Z.
  Hypothesis Hprec : 0 < prec.

Lemma shr_fexp_digits m e l R e' :
    0 <= m -> shr_fexp prec emax m e l = (R, e') -> 0 <= shr_m R < 2 ^ prec.
  Proof.
    intros Hm. unfold shr_fexp.
    assert (Hd : 0 <= Zdigits2 m /\ m < 2 ^ Zdigits2 m).
    { destruct m as [|p|p]; [cbn; lia| |lia]. cbn [Zdigits2].
      pose proof (digits2_pos_bounds p). lia. }
    destruct Hd as [Hd0 Hd].
    set (d := Zdigits2 m) in *.
    assert (Hn : d - prec <= fexp prec emax (d + e) - e) by (unfold fexp; lia).
    set (n := fexp prec emax (d + e) - e) in *.
    assert (HR : exists r s, shr_record_of_loc m l = Build_shr_record m r s)
      by (destruct l as [|[]]; cbn; eauto).
    destruct HR as (r & s & ->).
    destruct n as [|np|np] eqn:En; cbn [shr]; intros E; injection E as <- _.
    - cbn [shr_m]. split; [assumption|].
      apply Z.lt_le_trans with (1 := Hd). apply Z.pow_le_mono_r; lia.
    - rewrite iter_pos_nat. destruct (Pos2Nat.is_succ np) as [k Hk]. rewrite Hk.
      rewrite iter_shr_1 by assumption. cbn [shr_m].
      assert (Ek : Z.of_nat (S k) = Zpos np) by lia. rewrite Ek.
      split; [apply Z.div_pos; lia|].
      apply Z.div_lt_upper_bound; [lia|].
      rewrite <- Z.pow_add_r by lia.
      apply Z.lt_le_trans with (1 := Hd). apply Z.pow_le_mono_r; lia.
    - cbn [shr_m]. split; [assumption|].
      apply Z.lt_le_trans with (1 := Hd). apply Z.pow_le_mono_r; lia.
  Qed.

Lemma round_nearest_even_nonneg m l : 0 <= m -> 0 <= round_nearest_even m l.
  Proof.
    intros Hm. unfold round_nearest_even.
    destruct l as [|[]]; try destruct (Z.even m); lia.
  Qed.

Lemma round_aux_digits s m e l s' m' e' :
    0 <= m ->
    binary_round_aux prec emax s m e l = S754_finite s' m' e' ->
    Zpos m' < 2 ^ prec.
  Proof.
    intros Hm. unfold binary_round_aux.
    destruct (shr_fexp prec emax m e l) as [R1 e1] eqn:E1.
    pose proof (shr_fexp_digits _ _ _ _ _ Hm E1) as [H1 _].
    destruct (shr_fexp prec emax _ e1 loc_Exact) as [R2 e2] eqn:E2.
    apply shr_fexp_digits in E2; [|now apply round_nearest_even_nonneg].
    destruct (shr_m R2) as [|q|q]; try discriminate.
    destruct (e2 <=? emax - prec); [|discriminate].
    intros E. injection E as _ <- _. lia.
  Qed.

Lemma div_digits x y s m e :
    SFdiv prec emax x y = S754_finite s m e -> Zpos m < 2 ^ prec.
  Proof.
    unfold SFdiv. destruct x as [sx|sx| |sx mx ex], y as [sy|sy| |sy my ey];
      try discriminate.
    destruct (SFdiv_core_binary prec emax (Zpos mx) ex (Zpos my) ey)
      as [[mz ez] lz] eqn:Ec.
    apply round_aux_digits.
    unfold SFdiv_core_binary in Ec.
    destruct (Z.div_eucl _ (Zpos my)) as [q r] eqn:Eq in Ec.
    injection Ec as <- _ _.
    match type of Eq with Z.div_eucl ?a ?b = _ =>
      pose proof (Z.div_eucl_eq a b ltac:(lia)) as Hq;
      pose proof (Z.mod_pos_bound a b ltac:(lia)) as Hr;
      assert (Ha : 0 <= a) end.
    { destruct (_ - _)%Z as [|sp|sp] in |- *; try lia.
      rewrite Z.shiftl_mul_pow2 by lia. lia. }
    unfold Z.modulo in Hr. rewrite Eq in Hq, Hr. nia.
  Qed.
End Digits.

Lemma to_int_div_range x c z :
  to_int (F32.div x c) = Some z -> - 2 ^ 31 <= z <= 2 ^ 31 - 128.
Proof.
  unfold to_int. destruct (F32.div x c) as [s|s| |s m e] eqn:E; cbn [ftrunc];
    try discriminate.
  - intros Ez. injection Ez as <-. lia.
  - apply (div_digits F32.prec F32.emax) in E; [|reflexivity].
    change (2 ^ F32.prec) with 16777216 in E.
    destruct ((- 2 ^ 31 <=? _) && _) eqn:B; [|discriminate].
    intros Ez. injection Ez as <-.
    apply andb_true_iff in B. destruct B as [B1 B2].
    apply Z.leb_le in B1. apply Z.ltb_lt in B2.
    split; [assumption|].
    destruct s; cbn [cond_Zopp] in *.
    { assert (0 <= Z.shiftl (Zpos m) e) by (apply Z.shiftl_nonneg; lia). lia. }
    destruct (Z.le_gt_cases 8 e) as [He|He].
    + rewrite Z.shiftl_mul_pow2 in * by lia.
      replace e with (e - 8 + 8) in * by lia.
      rewrite Z.pow_add_r in * by lia. change (2 ^ 8) with 256 in *.
      assert (0 < 2 ^ (e - 8)) by (apply Z.pow_pos_nonneg; lia).
      generalize dependent (2 ^ (e - 8)). intros K. intros. nia.
    + destruct (Z.le_gt_cases 0 e) as [He0|He0].
      * rewrite Z.shiftl_mul_pow2 by lia.
        assert (2 ^ e <= 2 ^ 7) by (apply Z.pow_le_mono_r; lia).
        assert (0 < 2 ^ e) by (apply Z.pow_pos_nonneg; lia).
        change (2 ^ 7) with 128 in *. nia.
      * rewrite Z.shiftl_div_pow2 by lia.
        assert (0 < 2 ^ (- e)) by (apply Z.pow_pos_nonneg; lia).
        assert (Zpos m / 2 ^ (- e) <= Zpos m) by (apply Z.div_le_upper_bound; nia).
        lia.
Qed.

Lemma 图像到网格_范围 p cell c :
  图像到网格 p cell = Some c ->
  - 2 ^ 31 <= 格_x c <= 2 ^ 31 - 128 /\ - 2 ^ 31 <= 格_y c <= 2 ^ 31 - 128.
Proof.
  unfold 图像到网格.
  destruct (to_int (F32.div (点_x p) cell)) as [X|] eqn:EX; [|discriminate].
  destruct (to_int (F32.div (点_y p) cell)) as [Y|] eqn:EY; [|discriminate].
  intros E. injection E as <-. cbn [格_x 格_y].
  split; eapply to_int_div_range; eassumption.
Qed.

Lemma 计数器有定义_spec p cell c :
  图像到网格 p cell = Some c ->
  计数器有定义 (格_x c) = (- 2 ^ 31 + D <=? 格_x c)
  /\ 计数器有定义 (格_y c) = (- 2 ^ 31 + D <=? 格_y c).
Proof.
  intros Ec. apply 图像到网格_范围 in Ec. unfold 计数器有定义, D.
  destruct Ec as [Hx Hy].
  split.
  - destruct (Z.leb_spec (- 2 ^ 31 + 5) (格_x c)).
    + apply andb_true_iff. rewrite Z.leb_le, Z.ltb_lt. lia.
    + apply andb_false_iff. left. apply Z.leb_gt. lia.
  - destruct (Z.leb_spec (- 2 ^ 31 + 5) (格_y c)).
    + apply andb_true_iff. rewrite Z.leb_le, Z.ltb_lt. lia.
    + apply andb_false_iff. left. apply Z.leb_gt. lia.
Qed.

Lemma 要是在邻近区域内_溢出 格 p d cell c :
  图像到网格 p cell = Some c ->
  格_x c < - 2 ^ 31 + D \/ 格_y c < - 2 ^ 31 + D ->
  要是在邻近区域内 格 p d cell = None.
Proof.
  intros Ec Hc. unfold 要是在邻近区域内. rewrite Ec.
  destruct (计数器有定义_spec _ _ _ Ec) as [-> ->].
  replace ((- 2 ^ 31 + D <=? 格_x c) && (- 2 ^ 31 + D <=? 格_y c)) with false;
    [reflexivity|].
  symmetry. apply andb_false_iff. rewrite !Z.leb_gt. exact Hc.
Qed.

Lemma 要是在邻近区域内_方阵 n 格 p d cell c :
  方阵 n 格 -> 图像到网格 p cell = Some c ->
  - 2 ^ 31 + D <= 格_x c -> - 2 ^ 31 + D <= 格_y c ->
  exists b, 要是在邻近区域内 格 p d cell = Some b
    /\ (b = true <->
        exists i j, 窗口内 格 (格_x c) (格_y c) i j /\ 过近 格 p d i j).
Proof.
  intros Sq Ec Lx Ly. unfold 要是在邻近区域内. rewrite Ec.
  destruct (计数器有定义_spec _ _ _ Ec) as [-> ->].
  apply Z.leb_le in Lx, Ly. rewrite Lx, Ly. cbn [andb].
  destruct (扫描_spec 格 p d (list_prod (邻域 (格_x c)) (邻域 (格_y c))))
    as (b & Eb & Hb).
  { intros i j _ Hi Hj. pose proof Sq as (W & Hh & _).
    apply (方阵_格子 n); auto; lia. }
  exists b. split; [exact Eb|]. rewrite Hb. unfold 窗口内.
  split; intros (i & j & R); exists i, j.
  - destruct R as (Hin & Hi & Hj & C). apply in_prod_iff in Hin.
    rewrite !In_邻域 in Hin. tauto.
  - destruct R as ((Hi & Hj & Bi & Bj) & C). split; [|tauto].
    apply in_prod_iff. rewrite !In_邻域. tauto.
Qed.

Lemma 扫描_false 格 p d : forall cells,
  扫描 格 p d cells = Some false ->
  forall i j, In (i, j) cells -> 0 <= i < 宽_ 格 -> 0 <= j < 高_ 格 ->
  exists P, 格子 格 i j = Some P
            /\ (是有效的 P = true -> flt (获取距离 P p) d = false).
Proof.
  induction cells as [|[i0 j0] rest IH]; intros E i j Hin Hi Hj; [destruct Hin|].
  cbn [扫描] in E.
  destruct ((0 <=? i0) && (i0 <? 宽_ 格) && (0 <=? j0) && (j0 <? 高_ 格)) eqn:B.
  - destruct (vec_get (网格_ 格) i0) as [row|] eqn:Er; [|discriminate].
    destruct (vec_get row j0) as [P|] eqn:EP; [|discriminate].
    destruct (是有效的 P && flt (获取距离 P p) d) eqn:T; [discriminate|].
    destruct Hin as [Hin|Hin]; [|now apply IH].
    injection Hin as <- <-. exists P. unfold 格子. rewrite Er. split; [exact EP|].
    intros V. rewrite V in T. exact T.
  - destruct Hin as [Hin|Hin]; [|now apply IH].
    injection Hin as <- <-.
    assert ((0 <=? i0) && (i0 <? 宽_ 格) && (0 <=? j0) && (j0 <? 高_ 格) = true).
    { rewrite !andb_true_iff, !Z.leb_le, !Z.ltb_lt. lia. }
    congruence.
Qed.

Lemma 扫描_None 格 p d : forall cells,
  (forall i j P, 格子 格 i j = Some P -> 是有效的 P = false) ->
  (exists i j, In (i, j) cells /\ 0 <= i < 宽_ 格 /\ 0 <= j < 高_ 格
               /\ 格子 格 i j = None) ->
  扫描 格 p d cells = None.
Proof.
  intros cells Hinv. induction cells as [|[i0 j0] rest IH];
    intros (i & j & Hin & Hi & Hj & En); [destruct Hin|].
  cbn [扫描].
  destruct ((0 <=? i0) && (i0 <? 宽_ 格) && (0 <=? j0) && (j0 <? 高_ 格)) eqn:B.
  - destruct (vec_get (网格_ 格) i0) as [row|] eqn:Er; [|reflexivity].
    destruct (vec_get row j0) as [P|] eqn:EP; [|reflexivity].
    rewrite (Hinv i0 j0 P) by (unfold 格子; now rewrite Er). cbn [andb].
    apply IH. destruct Hin as [Hin|Hin].
    + injection Hin as <- <-. unfold 格子 in En. rewrite Er, EP in En.
      discriminate.
    + exists i, j. auto.
  - apply IH. destruct Hin as [Hin|Hin].
    + injection Hin as <- <-.
      assert ((0 <=? i0) && (i0 <? 宽_ 格) && (0 <=? j0) && (j0 <? 高_ 格) = true).
      { rewrite !andb_true_iff, !Z.leb_le, !Z.ltb_lt. lia. }
      congruence.
    + exists i, j. auto.
Qed.

Lemma 网格_构造_格子 宽 高 单格 格 :
  网格_构造 宽 高 单格 = Some 格 ->
  宽_ 格 = 宽 /\ 高_ 格 = 高
  /\ (forall i j P, 格子 格 i j = Some P -> P = 空点)
  /\ (forall i j, 高 <= i \/ 宽 <= j -> 格子 格 i j = None).
Proof.
  unfold 网格_构造. destruct ((0 <=? 宽) && (0 <=? 高)) eqn:N; [|discriminate].
  apply andb_true_iff in N. destruct N as [Nw Nh]. apply Z.leb_le in Nw, Nh.
  intros E. injection E as <-. cbn [宽_ 高_]. repeat split.
  - intros i j P. unfold 格子, vec_get. cbn [网格_].
    destruct (i <? 0); [discriminate|].
    destruct (nth_error _ (Z.to_nat i)) as [row|] eqn:Er; [|discriminate].
    apply nth_error_In, repeat_spec in Er. subst row.
    destruct (j <? 0); [discriminate|]. intros Ej.
    now apply nth_error_In, repeat_spec in Ej.
  - intros i j Hij. unfold 格子, vec_get. cbn [网格_].
    destruct (i <? 0) eqn:Ni; [reflexivity|]. apply Z.ltb_ge in Ni.
    destruct (nth_error _ (Z.to_nat i)) as [row|] eqn:Er; [|reflexivity].
    assert (Li : (Z.to_nat i < Z.to_nat 高)%nat).
    { rewrite <- (repeat_length (repeat 空点 (Z.to_nat 宽)) (Z.to_nat 高)).
      apply nth_error_Some. congruence. }
    apply nth_error_In, repeat_spec in Er. subst row.
    destruct (j <? 0) eqn:Nj; [reflexivity|]. apply Z.ltb_ge in Nj.
    apply nth_error_None. rewrite repeat_length. lia.
Qed.

(* ------------------------------------------------------------------ *)

(** X1: [要插入] stores the point in the cell that [图像到网格] computes for
    it, and changes nothing else: every other cell, the two dimensions and
    the cell size are as before. *)
Theorem insert_stores_in_own_cell 格 p 格' :
  要插入 格 p = Some 格' ->
  exists c, 图像到网格 p (单格_ 格) = Some c
    /\ 格子 格' (格_x c) (格_y c) = Some p
    /\ (forall i j, (i, j) <> (格_x c, 格_y c) -> 格子 格' i j = 格子 格 i j)
    /\ 宽_ 格' = 宽_ 格 /\ 高_ 格' = 高_ 格 /\ 单格_ 格' = 单格_ 格.
Proof.
  intros E. destruct (要插入_inv _ _ _ E)
    as (c & row & row' & Ec & _ & _ & _ & W & Hh & S).
  exists c. destruct (格子_要插入 _ _ _ _ E Ec) as (Hown & Hother).
  auto 10.
Qed.

Lemma insert_stores_in_own_cell_witness :
  exists c, 图像到网格 小点 (单格_ 小网格) = Some c
    /\ 格子 (新网格 2 2 f_half [[空点; 小点]; [空点; 空点]]) (格_x c) (格_y c)
       = Some 小点
    /\ (forall i j, (i, j) <> (格_x c, 格_y c) ->
          格子 (新网格 2 2 f_half [[空点; 小点]; [空点; 空点]]) i j
          = 格子 小网格 i j)
    /\ 宽_ (新网格 2 2 f_half [[空点; 小点]; [空点; 空点]]) = 宽_ 小网格
    /\ 高_ (新网格 2 2 f_half [[空点; 小点]; [空点; 空点]]) = 高_ 小网格
    /\ 单格_ (新网格 2 2 f_half [[空点; 小点]; [空点; 空点]]) = 单格_ 小网格.
Proof.
  apply (insert_stores_in_own_cell 小网格 小点). vm_compute. reflexivity.
Defined.

(** X2: the grid keeps one sample for each cell: inserting [q] into the cell
    that already holds [p] replaces [p], and the grid is the one that
    inserting [q] alone gives. *)
Theorem insert_overwrites 格 p q 格1 :
  要插入 格 p = Some 格1 ->
  图像到网格 q (单格_ 格) = 图像到网格 p (单格_ 格) ->
  要插入 格1 q = 要插入 格 q.
Proof.
  intros E Eq. destruct (要插入_inv _ _ _ E)
    as (c & row & row' & Ec & Er & Es & Eo & W & Hh & S).
  unfold 要插入. rewrite S, Eq, Ec, Er, W, Hh.
  destruct (vec_set_Some _ _ _ _ Eo) as (_ & _ & Hg & _). rewrite Hg.
  rewrite (vec_set_twice _ _ _ q _ Es).
  destruct (vec_set row (格_y c) q) as [row''|]; [|reflexivity].
  now rewrite (vec_set_twice _ _ _ row'' _ Eo).
Qed.

Lemma insert_overwrites_witness :
  要插入 (新网格 2 2 f_half [[空点; 小点]; [空点; 空点]]) (点_of f_zero f_half)
  = 要插入 小网格 (点_of f_zero f_half).
Proof.
  apply (insert_overwrites 小网格 小点); vm_compute; reflexivity.
Defined.

(** X3: on a square grid the scan [要是在邻近区域内] reads allocated cells
    only.  For a point whose two cell indices are at least [- 2 ^ 31 + D] it
    returns, and it returns true exactly when some cell of the 11 x 11
    window that passes the bounds test holds a valid sample that [获取距离]
    puts closer than [最小距离].  For a point with a cell index below that
    (the index [- 2 ^ 31] of a point far to the left or below) the loop
    bound [g.x - D] or [g.y - D] overflows [int]: the scan is undefined. *)
Theorem scan_finds_close_sample n 格 p d cell c :
  方阵 n 格 -> 图像到网格 p cell = Some c ->
  (- 2 ^ 31 + D <= 格_x c /\ - 2 ^ 31 + D <= 格_y c ->
   exists b, 要是在邻近区域内 格 p d cell = Some b
     /\ (b = true <->
         exists i j, 窗口内 格 (格_x c) (格_y c) i j /\ 过近 格 p d i j))
  /\ (格_x c < - 2 ^ 31 + D \/ 格_y c < - 2 ^ 31 + D ->
      要是在邻近区域内 格 p d cell = None).
Proof.
  intros Sq Ec. split.
  - intros [Lx Ly]. now apply (要是在邻近区域内_方阵 n).
  - now apply 要是在邻近区域内_溢出.
Qed.

Lemma 小网格_方阵 : 方阵 2 小网格.
Proof.
  unfold 方阵, 小网格. cbn [宽_ 高_ 网格_ length]. repeat split.
  repeat constructor.
Qed.

Lemma scan_finds_close_sample_witness :
  (exists b, 要是在邻近区域内 小网格 小点 f_one f_half = Some b
     /\ (b = true <->
         exists i j, 窗口内 小网格 0 1 i j /\ 过近 小网格 小点 f_one i j))
  /\ 要是在邻近区域内 小网格 远点 f_one f_half = None.
Proof.
  split.
  - apply (scan_finds_close_sample 2 小网格 小点 f_one f_half (新网格点 0 1)).
    + exact 小网格_方阵.
    + vm_compute. reflexivity.
    + cbn [格_x 格_y]. unfold D. lia.
  - apply (scan_finds_close_sample 2 小网格 远点 f_one f_half
             (新网格点 (- 2 ^ 31) 0)).
    + exact 小网格_方阵.
    + vm_compute. reflexivity.
    + left. cbn [格_x]. unfold D. lia.
Defined.

(** X4: a sample just inserted is found again: on a square grid, after
    [要插入] of a valid point, the scan for the same point with a positive
    [最小距离] answers true.  (The computed distance of a point to itself
    is +0.) *)
Theorem inserted_sample_blocks_itself n 格 p 格' d :
  方阵 n 格 -> 要插入 格 p = Some 格' -> 是有效的 p = true ->
  flt f_zero d = true ->
  要是在邻近区域内 格' p d (单格_ 格) = Some true.
Proof.
  intros Sq E V Hd.
  destruct (要插入_inv _ _ _ E) as (c & row & row' & Ec & Er & Es & Eo & W & Hh & _).
  pose proof (方阵_要插入 _ _ _ _ Sq E) as Sq'.
  destruct (格子_要插入 _ _ _ _ E Ec) as (Hown & _).
  destruct (vec_get_Some _ _ _ Er) as [Hx1 Hx2].
  destruct (vec_set_Some _ _ _ _ Es) as ((Hy1 & Hy2) & _).
  destruct (要是在邻近区域内_方阵 n 格' p d (单格_ 格) c Sq' Ec) as (b & Eb & Hb);
    [unfold D; lia ..|].
  rewrite Eb. f_equal. apply Hb.
  destruct Sq as (Wn & Hn & Ln & Rn). rewrite Forall_forall in Rn.
  assert (Hrow : Z.of_nat (length row) = n).
  { apply Rn. unfold vec_get in Er. destruct (格_x c <? 0); [discriminate|].
    now apply nth_error_In in Er. }
  exists (格_x c), (格_y c). split.
  - unfold 窗口内, D. rewrite W, Hh, Wn, Hn. lia.
  - exists p. repeat split; auto.
    now rewrite (获取距离_self p _ _ Ec).
Qed.

Lemma inserted_sample_blocks_itself_witness :
  要是在邻近区域内 (新网格 2 2 f_half [[空点; 小点]; [空点; 空点]]) 小点 f_one
    (单格_ 小网格) = Some true.
Proof.
  apply (inserted_sample_blocks_itself 2 小网格 小点).
  - exact 小网格_方阵.
  - vm_compute. reflexivity.
  - reflexivity.
  - reflexivity.
Defined.

(** X5: a grid fresh from the constructor holds no sample: on it the scan
    answers false for every point whose two cell indices are at least
    [- 2 ^ 31 + D]; for a point with a smaller cell index the scan is
    undefined, its loop bound overflows [int]. *)
Theorem fresh_grid_has_no_neighbour n 单格 格 p d cell c :
  网格_构造 n n 单格 = Some 格 -> 图像到网格 p cell = Some c ->
  要是在邻近区域内 格 p d cell
  = if (- 2 ^ 31 + D <=? 格_x c) && (- 2 ^ 31 + D <=? 格_y c)
    then Some false else None.
Proof.
  intros E Ec. destruct (网格_构造_方阵 _ _ _ E) as (Sq & _ & Hempty).
  destruct (Z.leb_spec (- 2 ^ 31 + D) (格_x c)) as [Lx|Lx];
    [destruct (Z.leb_spec (- 2 ^ 31 + D) (格_y c)) as [Ly|Ly]|]; cbn [andb];
    try (apply (要是在邻近区域内_溢出 _ _ _ _ c Ec); lia).
  destruct (要是在邻近区域内_方阵 n 格 p d cell c Sq Ec Lx Ly) as (b & Eb & Hb).
  rewrite Eb. f_equal. destruct b; [|reflexivity].
  destruct (proj1 Hb eq_refl) as (i & j & _ & P & EP & V & _).
  rewrite (Hempty _ _ _ EP) in V. discriminate.
Qed.

Lemma fresh_grid_has_no_neighbour_witness :
  要是在邻近区域内 小网格 小点 f_one f_half = Some false
  /\ 要是在邻近区域内 小网格 远点 f_one f_half = None.
Proof.
  split.
  - apply (fresh_grid_has_no_neighbour 2 f_half 小网格 小点 f_one f_half
             (新网格点 0 1)); vm_compute; reflexivity.
  - apply (fresh_grid_has_no_neighbour 2 f_half 小网格 远点 f_one f_half
             (新网格点 (- 2 ^ 31) 0)); vm_compute; reflexivity.
Defined.

(** X6: the bounds test of the scan compares the row index with [宽_] and
    the column index with [高_], while the constructor allocates [高_] rows
    of [宽_] cells.  On a fresh grid that is not square, a scan whose window
    holds a cell that passes the test and lies outside the allocation reads
    outside the vectors. *)
Theorem scan_of_oblong_grid_reads_outside 宽 高 单格 格 p d cell c i j :
  网格_构造 宽 高 单格 = Some 格 -> 图像到网格 p cell = Some c ->
  窗口内 格 (格_x c) (格_y c) i j -> 高 <= i \/ 宽 <= j ->
  要是在邻近区域内 格 p d cell = None.
Proof.
  intros E Ec (Wi & Wj & Bi & Bj) Hout.
  destruct (网格_构造_格子 _ _ _ _ E) as (W & Hh & Hempty & Hnone).
  unfold 要是在邻近区域内. rewrite Ec.
  destruct (计数器有定义_spec _ _ _ Ec) as [-> ->].
  replace ((- 2 ^ 31 + D <=? 格_x c) && (- 2 ^ 31 + D <=? 格_y c)) with true
    by (symmetry; apply andb_true_iff; rewrite !Z.leb_le; unfold D in *; lia).
  apply 扫描_None.
  - intros i' j' P EP. now rewrite (Hempty _ _ _ EP).
  - exists i, j. split; [|auto].
    apply in_prod_iff. rewrite !In_邻域. auto.
Qed.

Lemma scan_of_oblong_grid_reads_outside_witness :
  要是在邻近区域内 (新网格 2 1 f_half [[空点; 空点]]) 小点 f_one f_half = None.
Proof.
  apply (scan_of_oblong_grid_reads_outside 2 1 f_half _ 小点 f_one f_half
           (新网格点 0 1) 1 0).
  - reflexivity.
  - vm_compute. reflexivity.
  - unfold 窗口内, D. cbn [宽_ 高_ 格_x 格_y]. lia.
  - lia.
Defined.

(* ================================================================== *)
(** * What the Poisson sampler keeps *)

Lemma 要是在邻近区域内_false 格 p d cell c :
  要是在邻近区域内 格 p d cell = Some false ->
  图像到网格 p cell = Some c ->
  forall i j P, 窗口内 格 (格_x c) (格_y c) i j ->
    格子 格 i j = Some P -> 是有效的 P = true ->
    flt (获取距离 P p) d = false.
Proof.
  unfold 要是在邻近区域内. intros E Ec. rewrite Ec in E.
  destruct (计数器有定义 (格_x c) && 计数器有定义 (格_y c)); [|discriminate].
  intros i j P (Wi & Wj & Bi & Bj) EP V.
  destruct (扫描_false _ _ _ _ E i j) as (P' & EP' & HP'); auto.
  - apply in_prod_iff. rewrite !In_邻域. auto.
  - rewrite EP in EP'. injection EP' as <-. auto.
Qed.

Lemma 分离_要插入 格 p d 格' :
  分离 d 格 ->
  要是在邻近区域内 格 p d (单格_ 格) = Some false ->
  要插入 格 p = Some 格' ->
  分离 d 格'.
Proof.
  intros Sep Scan E.
  destruct (要插入_inv _ _ _ E) as (c & row & row' & Ec & _ & _ & _ & W & Hh & _).
  destruct (格子_要插入 _ _ _ _ E Ec) as (Hown & Hother).
  pose proof (要是在邻近区域内_false _ _ _ _ _ Scan Ec) as Far.
  assert (Win : forall a b a' b', 窗口内 格' a b a' b' -> 窗口内 格 a b a' b').
  { unfold 窗口内. intros a b a' b'. now rewrite W, Hh. }
  intros i j i' j' P Q EP EQ VP VQ Hne W1 W2.
  apply Win in W1, W2.
  destruct (Z.eq_dec i (格_x c)) as [Hi|Hi], (Z.eq_dec j (格_y c)) as [Hj|Hj];
    try (rewrite (Hother i j) in EP by congruence);
    destruct (Z.eq_dec i' (格_x c)) as [Hi'|Hi'],
             (Z.eq_dec j' (格_y c)) as [Hj'|Hj'];
    try (rewrite (Hother i' j') in EQ by congruence);
    try (subst; congruence);
    try (now apply (Sep i j i' j'));
    try (subst i j; rewrite Hown in EP; injection EP as <-;
         rewrite 获取距离_sym; now apply (Far i' j'));
    try (subst i' j'; rewrite Hown in EQ; injection EQ as <-;
         now apply (Far i j)).
Qed.

Section Batch.
  Context {G : Type} `{PRNG G}.
  Variable libm : Libm.

Lemma 尝试新点_分离 c d cur st g st' g' :
    尝试新点 libm c d (单格_ (网格值 st)) cur st g = Ok (st', g') ->
    分离 d (网格值 st) ->
    分离 d (网格值 st') /\ 单格_ (网格值 st') = 单格_ (网格值 st).
  Proof.
    unfold 尝试新点. intros E Sep. bind_inv E as (p & g1 & _ & E).
    revert E; destruct (在区域内 c p) eqn:R; intros E.
    - bind_inv E as (near & g2 & E1 & E). apply defined_Ok in E1 as [E1 _].
      destruct near; cbn [negb] in E.
      + apply ret_Ok in E. injection E as <- <-. auto.
      + bind_inv E as (格 & g3 & E2 & E). apply defined_Ok in E2 as [E2 _].
        apply ret_Ok in E. injection E as <- <-. cbn [网格值]. split.
        * eapply 分离_要插入; eauto.
        * now destruct (要插入_inv _ _ _ E2) as (? & ? & ? & _ & _ & _ & _ & _ & _ & S).
    - apply ret_Ok in E. injection E as <- <-. auto.
  Qed.

Lemma 新增循环_分离 i c d cur : forall st g st' g',
    新增循环 libm i c d (单格_ (网格值 st)) cur st g = Ok (st', g') ->
    分离 d (网格值 st) ->
    分离 d (网格值 st') /\ 单格_ (网格值 st') = 单格_ (网格值 st).
  Proof.
    induction i as [|i IH]; intros st g st' g' E Sep; cbn [新增循环] in E.
    - apply ret_Ok in E. injection E as <- <-. auto.
    - bind_inv E as (st1 & g1 & E0 & E).
      destruct (尝试新点_分离 _ _ _ _ _ _ _ E0 Sep) as (Sep1 & S1).
      rewrite <- S1 in E. destruct (IH _ _ _ _ E Sep1) as (Sep2 & S2).
      split; [exact Sep2|congruence].
  Qed.
End Batch.

Lemma 要插入_在网格内 n 格 p 格' :
  方阵 n 格 -> 要插入 格 p = Some 格' -> 在网格内 n (单格_ 格) p.
Proof.
  intros (_ & _ & Ln & Rn) E.
  destruct (要插入_inv _ _ _ E) as (c & row & row' & Ec & Er & Es & _).
  exists c. split; [exact Ec|].
  pose proof (vec_get_Some _ _ _ Er) as Hx.
  destruct (vec_set_Some _ _ _ _ Es) as (Hy & _).
  rewrite Forall_forall in Rn.
  assert (Z.of_nat (length row) = n).
  { apply Rn. unfold vec_get in Er. destruct (格_x c <? 0); [discriminate|].
    now apply nth_error_In in Er. }
  lia.
Qed.

Lemma 采样不变式_首个 n cell d 格0 p 格1 :
  网格_构造 n n cell = Some 格0 -> 要插入 格0 p = Some 格1 ->
  是有效的 p = true ->
  采样不变式 n d cell [p] 格1.
Proof.
  intros E0 E1 V. destruct (网格_构造_方阵 _ _ _ E0) as (Sq & S & Hempty).
  destruct (要插入_inv _ _ _ E1) as (c & row & row' & Ec & _ & _ & _ & _ & _ & S1).
  destruct (格子_要插入 _ _ _ _ E1 Ec) as (Hown & Hother).
  split; [eapply 方阵_要插入; eauto|]. split; [congruence|].
  split; [|split].
  - intros i j i' j' P Q EP EQ VP VQ Hne _ _.
    destruct (Z.eq_dec i (格_x c)) as [Hi|Hi], (Z.eq_dec j (格_y c)) as [Hj|Hj];
      try (rewrite (Hother i j) in EP by congruence;
           rewrite (Hempty _ _ _ EP) in VP; discriminate).
    destruct (Z.eq_dec i' (格_x c)) as [Hi'|Hi'],
             (Z.eq_dec j' (格_y c)) as [Hj'|Hj'];
      try (rewrite (Hother i' j') in EQ by congruence;
           rewrite (Hempty _ _ _ EQ) in VQ; discriminate).
  - repeat constructor; [exact V|].
    rewrite <- S. eapply 要插入_在网格内; eauto.
  - intros _ q c' [<-|[]] Ec'. rewrite S in Ec. rewrite Ec in Ec'.
    injection Ec' as <-. exact Hown.
Qed.

Lemma 采样不变式_要插入 n d out 格 p 格' :
  采样不变式 n d (单格_ 格) out 格 ->
  要是在邻近区域内 格 p d (单格_ 格) = Some false ->
  要插入 格 p = Some 格' -> 是有效的 p = true ->
  采样不变式 n d (单格_ 格) (out ++ [p]) 格'.
Proof.
  intros (Sq & _ & Sep & Val & Stored) Scan E V.
  destruct (要插入_inv _ _ _ E) as (c & row & row' & Ec & _ & _ & _ & _ & _ & S1).
  destruct (格子_要插入 _ _ _ _ E Ec) as (Hown & Hother).
  split; [eapply 方阵_要插入; eauto|]. split; [exact S1|].
  split; [eapply 分离_要插入; eauto|].
  split.
  { apply Forall_app; split; [exact Val|]. repeat constructor; [exact V|].
    eapply 要插入_在网格内; eauto. }
  intros ND q c' Hin Ec'. rewrite map_app in ND. cbn [map] in ND.
  apply in_app_or in Hin. destruct Hin as [Hin|[<-|[]]].
  - assert (ND' := NoDup_remove_1 _ _ _ ND). rewrite app_nil_r in ND'.
    assert (Hnot := NoDup_remove_2 _ _ _ ND). rewrite app_nil_r in Hnot.
    rewrite Hother; [now apply Stored|].
    intros Heq. injection Heq as Hx Hy. apply Hnot.
    rewrite Ec. apply in_map_iff. exists q. split; [|exact Hin].
    rewrite Ec'. destruct c, c'. cbn in Hx, Hy. congruence.
  - rewrite Ec in Ec'. injection Ec' as <-. exact Hown.
Qed.

Lemma NoDup_map_nth {A B} (f : A -> B) (l : list A) :
  NoDup (map f l) ->
  forall a b x y, nth_error l a = Some x -> nth_error l b = Some y ->
                  f x = f y -> a = b.
Proof.
  induction l as [|q l IH]; intros ND [|a] [|b] x y Ea Eb Hf;
    try discriminate; try reflexivity; cbn in Ea, Eb, ND;
    apply NoDup_cons_iff in ND; destruct ND as [Hq ND].
  - injection Ea as ->. exfalso. apply Hq. rewrite Hf. apply in_map.
    eapply nth_error_In; eauto.
  - injection Eb as ->. exfalso. apply Hq. rewrite <- Hf. apply in_map.
    eapply nth_error_In; eauto.
  - f_equal. eapply IH; eauto.
Qed.

Section Loop.
  Context {G : Type} `{PRNG G}.
  Variable libm : Libm.

Lemma 在周围生成随机点_有效 cur d g p g' :
    在周围生成随机点 libm cur d g = Ok (p, g') -> 是有效的 p = true.
  Proof.
    unfold 在周围生成随机点. intros E.
    bind_inv E as (R1 & g1 & _ & E). bind_inv E as (R2 & g2 & _ & E).
    apply ret_Ok in E. injection E as <- _. reflexivity.
  Qed.

Lemma 尝试新点_不变式 n c d cur st g st' g' :
    尝试新点 libm c d (单格_ (网格值 st)) cur st g = Ok (st', g') ->
    采样不变式 n d (单格_ (网格值 st)) (采样点集 st) (网格值 st) ->
    采样不变式 n d (单格_ (网格值 st)) (采样点集 st') (网格值 st').
  Proof.
    unfold 尝试新点. intros E Inv. bind_inv E as (p & g1 & Ep & E).
    apply 在周围生成随机点_有效 in Ep.
    revert E; destruct (在区域内 c p) eqn:R; intros E.
    - bind_inv E as (near & g2 & E1 & E). apply defined_Ok in E1 as [E1 _].
      destruct near; cbn [negb] in E.
      + apply ret_Ok in E. injection E as <- <-. exact Inv.
      + bind_inv E as (格 & g3 & E2 & E). apply defined_Ok in E2 as [E2 _].
        apply ret_Ok in E. injection E as <- <-. cbn [网格值 采样点集].
        eapply 采样不变式_要插入; eauto.
    - apply ret_Ok in E. injection E as <- <-. exact Inv.
  Qed.

Lemma 新增循环_不变式 n i c d cur : forall st g st' g',
    新增循环 libm i c d (单格_ (网格值 st)) cur st g = Ok (st', g') ->
    采样不变式 n d (单格_ (网格值 st)) (采样点集 st) (网格值 st) ->
    采样不变式 n d (单格_ (网格值 st)) (采样点集 st') (网格值 st').
  Proof.
    induction i as [|i IH]; intros st g st' g' E Inv; cbn [新增循环] in E.
    - apply ret_Ok in E. injection E as <- <-. exact Inv.
    - bind_inv E as (st1 & g1 & E0 & E).
      pose proof (尝试新点_不变式 n _ _ _ _ _ _ _ E0 Inv) as Inv1.
      assert (S1 : 单格_ (网格值 st1) = 单格_ (网格值 st)) by apply Inv1.
      rewrite <- S1 in E, Inv1. rewrite <- S1. eapply IH; eauto.
  Qed.

Lemma 主循环_不变式 n fuel t c k d : forall st g out g',
    主循环 libm fuel t c k d (单格_ (网格值 st)) st g = Ok (out, g') ->
    采样不变式 n d (单格_ (网格值 st)) (采样点集 st) (网格值 st) ->
    exists 格, 采样不变式 n d (单格_ (网格值 st)) out 格.
  Proof.
    induction fuel as [|fuel IH]; intros st g out g' E Inv; cbn [主循环] in E.
    - destruct (继续 t st); [discriminate|]. apply ret_Ok in E.
      injection E as <- <-. eauto.
    - destruct (继续 t st).
      + bind_inv E as ([cur rest] & g1 & _ & E).
        bind_inv E as (st1 & g2 & E1 & E2).
        pose proof (新增循环_不变式 n _ _ _ _
                      (新状态 rest (采样点集 st) (网格值 st)) _ _ _ E1 Inv) as Inv1.
        cbn [网格值 采样点集] in Inv1.
        assert (S1 : 单格_ (网格值 st1) = 单格_ (网格值 st)) by apply Inv1.
        rewrite <- S1 in E2, Inv1. rewrite <- S1. eapply IH; eauto.
      + apply ret_Ok in E. injection E as <- <-. eauto.
  Qed.

Lemma 首个点_有效 fuel c : forall g p g',
    首个点 fuel c g = Ok (p, g') -> 是有效的 p = true.
  Proof.
    induction fuel as [|fuel IH]; intros g p g' E; cbn [首个点] in E; [discriminate|].
    bind_inv E as (X & g1 & _ & E). bind_inv E as (Y & g2 & _ & E).
    destruct (在区域内 c (点_of X Y)).
    - apply ret_Ok in E. injection E as <- _. reflexivity.
    - eauto.
  Qed.

Lemma 生成泊松点集_不变式 fuel 点数量 c k d g out g' t :
    生成泊松点集 libm fuel 点数量 c k d g = Ok (out, g') ->
    目标点数 点数量 c = Some t ->
    out = [] \/
    exists n 格, 网格边长 (单格尺寸_of (有效最小距离 t d)) = Some n
                 /\ 采样不变式 n (有效最小距离 t d)
                      (单格尺寸_of (有效最小距离 t d)) out 格.
  Proof.
    unfold 生成泊松点集. intros E Et. rewrite Et in E.
    bind_inv E as (t' & g0 & E0 & E). apply defined_Ok in E0 as [E0 ->].
    injection E0 as <-.
    destruct (t =? 0).
    - apply ret_Ok in E. injection E as <- _. now left.
    - right.
      bind_inv E as (w & g1 & E1 & E). apply defined_Ok in E1 as [E1 ->].
      bind_inv E as (h & g1 & E2 & E). apply defined_Ok in E2 as [E2 ->].
      rewrite E1 in E2. injection E2 as <-.
      bind_inv E as (格0 & g1 & E3 & E). apply defined_Ok in E3 as [E3 ->].
      bind_inv E as (首个 & g1 & E4 & E).
      bind_inv E as (格1 & g2 & E5 & E). apply defined_Ok in E5 as [E5 ->].
      apply 首个点_有效 in E4.
      pose proof (采样不变式_首个 w _ (有效最小距离 t d) _ _ _ E3 E5 E4) as Inv.
      assert (S1 : 单格_ 格1 = 单格尺寸_of (有效最小距离 t d)) by apply Inv.
      exists w.
      pose proof (主循环_不变式 w fuel t c k (有效最小距离 t d)
                    (新状态 [首个] [首个] 格1)) as Hx.
      cbn [网格值 采样点集] in Hx. rewrite S1 in Hx.
      destruct (Hx _ _ _ E Inv) as [格 Inv'].
      exists 格. split; [exact E1|exact Inv'].
  Qed.
End Loop.

(** X7: the separation [生成泊松点集] guarantees.  If no two returned points
    fall in the same grid cell, then any two of them whose cells are at most
    5 apart in each direction are not closer than the minimal distance in
    force, as [获取距离] measures it.  (A point inserted into an occupied cell
    replaces the sample stored there, which later candidates are then not
    compared with.) *)
Theorem Poisson_separation_of_distinct_cells {G : Type} `{PRNG G} (L : Libm)
    (fuel : nat) (点数量 : Z) (是圆形 : bool) (新增点数量 : Z) (最小距离 : float)
    (g : G) (out : list 点) (g' : G) (t : Z) (a b : nat) (pa pb : 点)
    (ca cb : 网格点) :
  生成泊松点集 L fuel 点数量 是圆形 新增点数量 最小距离 g = Ok (out, g') ->
  目标点数 点数量 是圆形 = Some t ->
  NoDup (map (fun p => 图像到网格 p (单格尺寸_of (有效最小距离 t 最小距离))) out) ->
  nth_error out a = Some pa -> nth_error out b = Some pb -> a <> b ->
  图像到网格 pa (单格尺寸_of (有效最小距离 t 最小距离)) = Some ca ->
  图像到网格 pb (单格尺寸_of (有效最小距离 t 最小距离)) = Some cb ->
  Z.abs (格_x ca - 格_x cb) <= D -> Z.abs (格_y ca - 格_y cb) <= D ->
  flt (获取距离 pa pb) (有效最小距离 t 最小距离) = false.
Proof.
  intros E Et ND Ea Eb Hab Eca Ecb Hx Hy.
  destruct (生成泊松点集_不变式 L _ _ _ _ _ _ _ _ _ E Et) as [->|(n & 格 & _ & Inv)].
  { destruct a; discriminate. }
  destruct Inv as (Sq & S & Sep & Val & Stored).
  specialize (Stored ND).
  pose proof (Stored pa ca (nth_error_In _ _ Ea) Eca) as Sa.
  pose proof (Stored pb cb (nth_error_In _ _ Eb) Ecb) as Sb.
  rewrite Forall_forall in Val.
  assert (Ba : 0 <= 格_x ca < n /\ 0 <= 格_y ca < n).
  { unfold 格子 in Sa. destruct (vec_get (网格_ 格) (格_x ca)) as [row|] eqn:Er;
      [|discriminate].
    destruct Sq as (_ & _ & Ln & Rn). rewrite Forall_forall in Rn.
    pose proof (vec_get_Some _ _ _ Er). pose proof (vec_get_Some _ _ _ Sa).
    assert (Z.of_nat (length row) = n).
    { apply Rn. unfold vec_get in Er. destruct (格_x ca <? 0); [discriminate|].
      now apply nth_error_In in Er. }
    lia. }
  assert (Bb : 0 <= 格_x cb < n /\ 0 <= 格_y cb < n).
  { unfold 格子 in Sb. destruct (vec_get (网格_ 格) (格_x cb)) as [row|] eqn:Er;
      [|discriminate].
    destruct Sq as (_ & _ & Ln & Rn). rewrite Forall_forall in Rn.
    pose proof (vec_get_Some _ _ _ Er). pose proof (vec_get_Some _ _ _ Sb).
    assert (Z.of_nat (length row) = n).
    { apply Rn. unfold vec_get in Er. destruct (格_x cb <? 0); [discriminate|].
      now apply nth_error_In in Er. }
    lia. }
  destruct Sq as (Wn & Hn & _).
  apply (Sep (格_x ca) (格_y ca) (格_x cb) (格_y cb)); auto.
  - apply Val. eapply nth_error_In; eauto.
  - apply Val. eapply nth_error_In; eauto.
  - intros Heq. injection Heq as Hx' Hy'.
    assert (Hc : 图像到网格 pa (单格尺寸_of (有效最小距离 t 最小距离))
                 = 图像到网格 pb (单格尺寸_of (有效最小距离 t 最小距离))).
    { rewrite Eca, Ecb. destruct ca, cb. cbn in Hx', Hy'. congruence. }
    exact (Hab (NoDup_map_nth _ _ ND _ _ _ _ Ea Eb Hc)).
  - unfold 窗口内. rewrite Wn, Hn. unfold D in *. lia.
  - unfold 窗口内. rewrite Wn, Hn. unfold D in *. lia.
Qed.

Lemma Poisson_separation_of_distinct_cells_witness :
  flt (获取距离 (点_of f_zero f_zero) (点_of f_one f_zero))
      (有效最小距离 1 f_minus_one) = false.
Proof.
  apply (Poisson_separation_of_distinct_cells libm_model 4 1 false 30 f_minus_one
           seed0 [点_of f_zero f_zero; 点_of f_one f_zero] seed0 1 0 1
           (点_of f_zero f_zero) (点_of f_one f_zero)
           (新网格点 0 0) (新网格点 1 0)).
  - exact (Poisson_run_seed0 0).
  - reflexivity.
  - vm_compute. repeat constructor; cbn; intuition discriminate.
  - reflexivity.
  - reflexivity.
  - discriminate.
  - vm_compute. reflexivity.
  - vm_compute. reflexivity.
  - vm_compute. discriminate.
  - vm_compute. discriminate.
Defined.

(** X18: when [生成泊松点集] returns, every returned point was stored in an
    allocated cell: both cell indices [(int)(x / 单格尺寸)] and
    [(int)(y / 单格尺寸)] are computable and lie in [0, 网格宽).  (A point
    whose index falls outside makes [要插入] write outside the grid, and
    the run undefined.) *)
Theorem Poisson_points_in_grid {G : Type} `{PRNG G} (L : Libm) (fuel : nat)
    (点数量 : Z) (是圆形 : bool) (新增点数量 : Z) (最小距离 : float) (g : G)
    (out : list 点) (g' : G) (t : Z) (p : 点) :
  生成泊松点集 L fuel 点数量 是圆形 新增点数量 最小距离 g = Ok (out, g') ->
  目标点数 点数量 是圆形 = Some t ->
  In p out ->
  是有效的 p = true
  /\ exists w, 网格边长 (单格尺寸_of (有效最小距离 t 最小距离)) = Some w
              /\ 在网格内 w (单格尺寸_of (有效最小距离 t 最小距离)) p.
Proof.
  intros E Et Hin.
  destruct (生成泊松点集_不变式 L _ _ _ _ _ _ _ _ _ E Et) as [->|(n & 格 & En & Inv)].
  { destruct Hin. }
  destruct Inv as (_ & _ & _ & Val & _). rewrite Forall_forall in Val.
  destruct (Val p Hin) as (V & Hg). split; [exact V|]. exists n. auto.
Qed.

Lemma Poisson_points_in_grid_witness :
  是有效的 (点_of f_one f_zero) = true
  /\ exists w, 网格边长 (单格尺寸_of (有效最小距离 1 f_minus_one)) = Some w
              /\ 在网格内 w (单格尺寸_of (有效最小距离 1 f_minus_one))
                   (点_of f_one f_zero).
Proof.
  apply (Poisson_points_in_grid libm_model 4 1 false 30 f_minus_one seed0
           [点_of f_zero f_zero; 点_of f_one f_zero] seed0 1).
  - exact (Poisson_run_seed0 0).
  - reflexivity.
  - right. left. reflexivity.
Defined.

(* ================================================================== *)
(** * The work list, termination and the generator stream *)

(** ** Taking a point out of the work list *)

Lemma vec_erase_length {A} (l : list A) i x :
  vec_get l i = Some x -> length (vec_erase l i) = pred (length l).
Proof.
  intros E. apply vec_get_Some in E. unfold vec_erase.
  rewrite length_app, length_firstn, length_skipn. lia.
Qed.

Lemma to_signed32_small n : 0 <= n < 2 ^ 31 -> to_signed32 n = n.
Proof.
  intros Hn. unfold to_signed32, wrap32. rewrite Z.mod_small by lia.
  destruct (n <? 2 ^ 31) eqn:E; [reflexivity|]. apply Z.ltb_ge in E. lia.
Qed.

(** X8: with the default generator, [随机取出] always succeeds on a list of
    1 to 2^31 - 1 points: it returns the point of some index and the list
    without it.  The index is drawn by [randomInt(size - 1)], whose range
    excludes [size - 1]: the last point of a list of two or more is never
    the one taken. *)
Theorem pop_random_never_takes_last (l : list 点) (g : DefaultPRNG.t) :
  l <> [] -> Z.of_nat (length l) < 2 ^ 31 ->
  exists i p g',
    随机取出 l g = Ok ((p, firstn i l ++ skipn (S i) l), g')
    /\ nth_error l i = Some p
    /\ (length l = 1 /\ i = 0 \/ S i < length l)%nat.
Proof.
  intros Hne Hlen.
  assert (Hpos : 0 < Z.of_nat (length l)) by (destruct l; [congruence|cbn; lia]).
  unfold 随机取出, bind, draw_int.
  rewrite to_signed32_small by lia.
  assert (Hb : wrap32 (Z.of_nat (length l) - 1) = Z.of_nat (length l) - 1).
  { unfold wrap32. apply Z.mod_small. lia. }
  rewrite Hb. cbn [randomInt DefaultPRNG_PRNG].
  destruct (Z.eq_dec (Z.of_nat (length l)) 1) as [H1|H1].
  - rewrite H1. change (1 - 1) with 0.
    pose proof (randomInt_zero g) as Hz.
    destruct (DefaultPRNG.randomInt 0 g) as [r g1]. cbn [fst] in Hz. subst r.
    change (to_signed32 0) with 0.
    destruct l as [|p [|q l]]; cbn in H1; try lia.
    exists 0%nat, p, g1. cbn. auto.
  - destruct (randomInt_below (Z.of_nat (length l) - 1) g) as (v & Ev & Hv);
      [lia|].
    destruct (DefaultPRNG.randomInt (Z.of_nat (length l) - 1) g) as [r g1].
    cbn [fst] in Ev. subst r.
    rewrite to_signed32_small by lia.
    destruct (vec_get_defined l v) as [p Ep]; [lia|].
    unfold defined, ret. rewrite Ep.
    exists (Z.to_nat v), p, g1. unfold vec_erase. split; [reflexivity|].
    split; [|lia].
    unfold vec_get in Ep. destruct (v <? 0); [discriminate|exact Ep].
Qed.

Lemma pop_random_never_takes_last_witness :
  exists i p g',
    随机取出 [点_of f_zero f_zero; 点_of f_one f_zero] DefaultPRNG.default
    = Ok ((p, firstn i [点_of f_zero f_zero; 点_of f_one f_zero]
              ++ skipn (S i) [点_of f_zero f_zero; 点_of f_one f_zero]), g')
    /\ nth_error [点_of f_zero f_zero; 点_of f_one f_zero] i = Some p
    /\ (length [点_of f_zero f_zero; 点_of f_one f_zero] = 1 /\ i = 0
        \/ S i < length [点_of f_zero f_zero; 点_of f_one f_zero])%nat.
Proof.
  apply pop_random_never_takes_last; [discriminate|cbn; lia].
Defined.

(** ** Termination of the main loop *)

Section Termination.
  Context {G : Type} `{PRNG G}.
  Variable libm : Libm.

Lemma 随机取出_长度 (l : list 点) (g : G) :
    随机取出 l g <> OutOfFuel
    /\ forall p rest g', 随机取出 l g = Ok ((p, rest), g') ->
                         length rest = pred (length l).
  Proof.
    unfold 随机取出, bind, draw_int, defined, ret.
    destruct (randomInt _ g) as [[v|] g1]; [|split; [discriminate|discriminate]].
    destruct (vec_get l (to_signed32 v)) as [p|] eqn:Ep;
      [|split; [discriminate|discriminate]].
    split; [discriminate|]. intros p' rest g' E. injection E as _ <- _.
    eapply vec_erase_length; eauto.
  Qed.

Lemma 在周围生成随机点_Ok cur d (g : G) :
    exists p g', 在周围生成随机点 libm cur d g = Ok (p, g').
  Proof.
    unfold 在周围生成随机点, bind, draw_float, ret.
    destruct (randomFloat g) as [R1 g1]. destruct (randomFloat g1) as [R2 g2].
    eauto.
  Qed.

Lemma 尝试新点_长度 c d cell cur st (g : G) :
    尝试新点 libm c d cell cur st g <> OutOfFuel
    /\ forall st' g', 尝试新点 libm c d cell cur st g = Ok (st', g') ->
         (length (待处理列表 st') + length (采样点集 st)
          = length (待处理列表 st) + length (采样点集 st')
          /\ length (采样点集 st) <= length (采样点集 st')
             <= S (length (采样点集 st)))%nat.
  Proof.
    unfold 尝试新点, bind.
    destruct (在周围生成随机点_Ok cur d g) as (p & g1 & ->).
    destruct (在区域内 c p).
    - unfold defined, ret.
      destruct (要是在邻近区域内 (网格值 st) p d cell) as [[|]|]; cbn [negb].
      + split; [discriminate|]. intros st' g' E. injection E as <- _. lia.
      + destruct (要插入 (网格值 st) p) as [格|].
        * split; [discriminate|]. intros st' g' E. injection E as <- _.
          cbn [待处理列表 采样点集]. rewrite !length_app. cbn [length]. lia.
        * split; discriminate.
      + split; discriminate.
    - unfold ret. split; [discriminate|]. intros st' g' E. injection E as <- _.
      lia.
  Qed.

Lemma 新增循环_长度 i c d cell cur : forall st (g : G),
    新增循环 libm i c d cell cur st g <> OutOfFuel
    /\ forall st' g', 新增循环 libm i c d cell cur st g = Ok (st', g') ->
         (length (待处理列表 st') + length (采样点集 st)
          = length (待处理列表 st) + length (采样点集 st')
          /\ length (采样点集 st) <= length (采样点集 st')
             <= length (采样点集 st) + i)%nat.
  Proof.
    induction i as [|i IH]; intros st g; cbn [新增循环].
    - unfold ret. split; [discriminate|]. intros st' g' E. injection E as <- _.
      lia.
    - unfold bind. destruct (尝试新点_长度 c d cell cur st g) as (N1 & L1).
      destruct (尝试新点 libm c d cell cur st g) as [[st1 g1]| |];
        [|split; discriminate|congruence].
      specialize (L1 _ _ eq_refl). destruct (IH st1 g1) as (N2 & L2).
      split; [exact N2|]. intros st' g' E. specialize (L2 _ _ E). lia.
  Qed.

Lemma 主循环_终止 t c k d cell : forall fuel st (g : G),
    Z.of_nat (length (采样点集 st)) <= t + Z.of_nat (Z.to_nat k) ->
    Z.of_nat (length (待处理列表 st)) + t + Z.of_nat (Z.to_nat k)
      - Z.of_nat (length (采样点集 st)) <= Z.of_nat fuel ->
    主循环 libm fuel t c k d cell st g <> OutOfFuel.
  Proof.
    induction fuel as [|fuel IH]; intros st g Hs Hf; cbn [主循环].
    - destruct (继续 t st) eqn:C; [|discriminate].
      unfold 继续 in C. apply andb_true_iff in C. destruct C as [C1 C2].
      apply Z.leb_le in C2. apply negb_true_iff, Nat.eqb_neq in C1. lia.
    - destruct (继续 t st) eqn:C; [|discriminate].
      unfold 继续 in C. apply andb_true_iff in C. destruct C as [C1 C2].
      apply Z.leb_le in C2. apply negb_true_iff, Nat.eqb_neq in C1.
      unfold bind at 1.
      destruct (随机取出_长度 (待处理列表 st) g) as (N0 & L0).
      destruct (随机取出 (待处理列表 st) g) as [[[cur rest] g1]| |];
        [|discriminate|congruence].
      specialize (L0 _ _ _ eq_refl).
      unfold bind.
      destruct (新增循环_长度 (Z.to_nat k) c d cell cur
                  (新状态 rest (采样点集 st) (网格值 st)) g1) as (N1 & L1).
      destruct (新增循环 libm (Z.to_nat k) c d cell cur
                  (新状态 rest (采样点集 st) (网格值 st)) g1) as [[st1 g2]| |];
        [|discriminate|congruence].
      specialize (L1 _ _ eq_refl). cbn [待处理列表 采样点集] in L1.
      apply IH; lia.
  Qed.

Lemma 生成泊松点集_终止 fuel 点数量 c k d (g : G) t p g1 :
    目标点数 点数量 c = Some t -> 0 <= t ->
    首个点 fuel c g = Ok (p, g1) ->
    t + Z.of_nat (Z.to_nat k) <= Z.of_nat fuel ->
    生成泊松点集 libm fuel 点数量 c k d g <> OutOfFuel.
  Proof.
    intros Et Ht Ep Hf. unfold 生成泊松点集, bind at 1. rewrite Et.
    cbn [defined]. destruct (t =? 0) eqn:T0; [discriminate|].
    apply Z.eqb_neq in T0. unfold bind at 1.
    destruct (网格边长 (单格尺寸_of (有效最小距离 t d))) as [w|];
      cbn [defined]; [|discriminate].
    unfold bind at 1. cbn [defined]. unfold bind at 1.
    destruct (网格_构造 w w (单格尺寸_of (有效最小距离 t d))) as [格0|];
      cbn [defined]; [|discriminate].
    unfold bind at 1. rewrite Ep. unfold bind at 1.
    destruct (要插入 格0 p) as [格1|]; cbn [defined]; [|discriminate].
    apply 主循环_终止; cbn [待处理列表 采样点集 length]; lia.
  Qed.
End Termination.

(** ** The first point in square mode *)

Lemma 要是在矩形内_unit X Y :
  fle f_zero X = true -> flt X f_one = true ->
  fle f_zero Y = true -> flt Y f_one = true ->
  要是在矩形内 (点_of X Y) = true.
Proof.
  intros X0 X1 Y0 Y1. unfold 要是在矩形内. cbn [点_x 点_y 点_of].
  rewrite X0, Y0. cbn [andb].
  assert (L : forall x, flt x f_one = true -> fle x f_one = true).
  { intros x. unfold flt, fle, SFltb, SFleb.
    destruct (SFcompare x f_one) as [[]|]; congruence. }
  now rewrite (L X X1), (L Y Y1).
Qed.

Lemma 首个点_方形 fuel (g : DefaultPRNG.t) :
  首个点 (S fuel) false g
  = Ok (点_of (fst (DefaultPRNG.randomFloat g))
              (fst (DefaultPRNG.randomFloat (snd (DefaultPRNG.randomFloat g)))),
        snd (DefaultPRNG.randomFloat (snd (DefaultPRNG.randomFloat g)))).
Proof.
  cbn [首个点]. unfold bind, draw_float. cbn [randomFloat DefaultPRNG_PRNG].
  destruct (randomFloat_unit g) as [X0 X1].
  destruct (randomFloat_unit (snd (DefaultPRNG.randomFloat g))) as [Y0 Y1].
  destruct (DefaultPRNG.randomFloat g) as [X g1]. cbn [fst snd] in *.
  destruct (DefaultPRNG.randomFloat g1) as [Y g2]. cbn [fst snd] in *.
  cbn [在区域内]. now rewrite 要是在矩形内_unit.
Qed.

(** X9: the main loop of [生成泊松点集] is bounded.  Every pass takes one
    point out of the work list and every point added to it is also added
    to the sample set, which stops the loop once it exceeds the target: for
    any generator, once the first point is drawn, target + 新增点数量 passes
    are enough, and the sampler returns or meets undefined behaviour. *)
Theorem Poisson_main_loop_bounded {G : Type} `{PRNG G} (L : Libm) (fuel : nat)
    (点数量 : Z) (是圆形 : bool) (新增点数量 : Z) (最小距离 : float) (g : G)
    (t : Z) (p : 点) (g1 : G) :
  目标点数 点数量 是圆形 = Some t ->
  首个点 fuel 是圆形 g = Ok (p, g1) ->
  t + Z.of_nat (Z.to_nat 新增点数量) <= Z.of_nat fuel ->
  生成泊松点集 L fuel 点数量 是圆形 新增点数量 最小距离 g <> OutOfFuel.
Proof.
  intros Et Ep Hf. eapply 生成泊松点集_终止; eauto.
  apply 目标点数_range in Et. lia.
Qed.

Lemma Poisson_main_loop_bounded_witness :
  生成泊松点集 libm_model 4 1 true 2 f_minus_one DefaultPRNG.default <> OutOfFuel.
Proof.
  apply (Poisson_main_loop_bounded libm_model 4 1 true 2 f_minus_one
           DefaultPRNG.default 2
           (点_of (S754_finite false 14536768 (-29))
                  (S754_finite false 9322782 (-24)))
           (DefaultPRNG.Build 3880198287)).
  - reflexivity.
  - vm_compute. reflexivity.
  - vm_compute. discriminate.
Defined.

(** X10: in square mode with the default generator the first point is never
    drawn twice (both coordinates are in [0, 1)), so the sampler always
    terminates: with fuel for target + 新增点数量 passes it returns or meets
    undefined behaviour. *)
Theorem Poisson_square_terminates (L : Libm) (fuel : nat) (点数量 : Z)
    (新增点数量 : Z) (最小距离 : float) (g : DefaultPRNG.t) (t : Z) :
  目标点数 点数量 false = Some t ->
  t + Z.of_nat (Z.to_nat 新增点数量) <= Z.of_nat fuel ->
  生成泊松点集 L fuel 点数量 false 新增点数量 最小距离 g <> OutOfFuel.
Proof.
  intros Et Hf. pose proof (目标点数_range _ _ _ Et) as Ht.
  destruct (Z.eq_dec t 0) as [->|T0].
  - unfold 生成泊松点集, bind. rewrite Et. cbn [defined]. discriminate.
  - destruct fuel as [|fuel]; [cbn in Hf; lia|].
    eapply 生成泊松点集_终止; eauto; [lia|apply 首个点_方形].
Qed.

Lemma Poisson_square_terminates_witness :
  生成泊松点集 libm_model 31 1 false 30 f_minus_one DefaultPRNG.default
  <> OutOfFuel.
Proof.
  apply (Poisson_square_terminates libm_model 31 1 30 f_minus_one
           DefaultPRNG.default 1).
  - reflexivity.
  - vm_compute. discriminate.
Defined.

Section Growth.
  Context {G : Type} `{PRNG G}.
  Variable libm : Libm.

Lemma 主循环_增长 t c k d cell : forall fuel st (g : G) out g',
    主循环 libm fuel t c k d cell st g = Ok (out, g') ->
    (length (采样点集 st) <= length out)%nat.
  Proof.
    induction fuel as [|fuel IH]; intros st g out g' E; cbn [主循环] in E.
    - destruct (继续 t st); [discriminate|]. apply ret_Ok in E.
      injection E as <- _. lia.
    - destruct (继续 t st).
      + bind_inv E as ([cur rest] & g1 & _ & E).
        bind_inv E as (st1 & g2 & E1 & E2).
        apply IH in E2.
        destruct (新增循环_长度 libm (Z.to_nat k) c d cell cur
                    (新状态 rest (采样点集 st) (网格值 st)) g1) as (_ & L1).
        specialize (L1 _ _ E1). cbn [采样点集] in L1. lia.
      + apply ret_Ok in E. injection E as <- _. lia.
  Qed.
End Growth.

(** X20: [生成泊松点集] returns the empty sequence for a zero target only:
    for any other target the result holds one point at least (the sample
    set starts with the first point and only grows). *)
Theorem Poisson_empty_iff_zero_target {G : Type} `{PRNG G} (L : Libm)
    (fuel : nat) (点数量 : Z) (是圆形 : bool) (新增点数量 : Z) (最小距离 : float)
    (g : G) (out : list 点) (g' : G) (t : Z) :
  生成泊松点集 L fuel 点数量 是圆形 新增点数量 最小距离 g = Ok (out, g') ->
  目标点数 点数量 是圆形 = Some t ->
  (out = [] <-> t = 0).
Proof.
  unfold 生成泊松点集. intros E Et. rewrite Et in E.
  bind_inv E as (t' & g0 & E0 & E). apply defined_Ok in E0 as [E0 ->].
  injection E0 as <-.
  destruct (Z.eqb_spec t 0) as [T0|T0].
  - apply ret_Ok in E. injection E as <- _. tauto.
  - split; [|tauto]. intros ->. exfalso.
    bind_inv E as (w & g1 & _ & E). bind_inv E as (h & g2 & _ & E).
    bind_inv E as (格0 & g3 & _ & E). bind_inv E as (首个 & g4 & _ & E).
    bind_inv E as (格1 & g5 & _ & E).
    apply 主循环_增长 in E. cbn in E. lia.
Qed.

Lemma Poisson_empty_iff_zero_target_witness :
  [点_of f_zero f_zero; 点_of f_one f_zero] = [] <-> 1 = 0.
Proof.
  apply (Poisson_empty_iff_zero_target libm_model 4 1 false 30 f_minus_one seed0
           _ seed0 1); [exact (Poisson_run_seed0 0)|reflexivity].
Defined.

(** ** The stream of the default generator *)

Lemma mantissa_mod g : mantissa g = (DefaultPRNG.seed_ g * 521167) mod 2 ^ 23.
Proof.
  unfold mantissa, wrap32. change 0x007fffff with (Z.ones 23).
  rewrite Z.land_ones by lia.
  apply Z.mod_mod_divide. exists (2 ^ 9). reflexivity.
Qed.

Lemma randomFloat_mantissa g1 g2 :
  mantissa g1 = mantissa g2 ->
  fst (DefaultPRNG.randomFloat g1) = fst (DefaultPRNG.randomFloat g2).
Proof. intros E. now rewrite !randomFloat_exact, E. Qed.

Lemma seed_after g :
  DefaultPRNG.seed_ (snd (DefaultPRNG.randomFloat g))
  = wrap32 (DefaultPRNG.seed_ g * 521167).
Proof. reflexivity. Qed.

Lemma 连续取_seed n : forall g,
  DefaultPRNG.seed_ (连续取 n g) mod 2 ^ 32
  = (DefaultPRNG.seed_ g * 521167 ^ Z.of_nat n) mod 2 ^ 32.
Proof.
  induction n as [|n IH]; intros g.
  - cbn [连续取 Nat.iter]. now rewrite Z.pow_0_r, Z.mul_1_r.
  - change (连续取 (S n) g) with (snd (DefaultPRNG.randomFloat (连续取 n g))).
    rewrite seed_after. unfold wrap32.
    rewrite Z.mod_mod by lia. rewrite Z.mul_mod, IH, <- Z.mul_mod by lia.
    rewrite Nat2Z.inj_succ, (Z.pow_succ_r 521167) by lia. f_equal. lia.
Qed.

Lemma 连续平方_spec k a m :
  0 < m -> 连续平方 k a m = a ^ (2 ^ Z.of_nat k) mod m.
Proof.
  intros Hm. induction k as [|k IH].
  - cbn [连续平方]. now rewrite Z.pow_0_r, Z.pow_1_r.
  - cbn [连续平方]. cbv zeta. rewrite IH.
    rewrite <- (Z.mul_mod (a ^ 2 ^ Z.of_nat k) (a ^ 2 ^ Z.of_nat k) m) by lia.
    f_equal.
    rewrite Nat2Z.inj_succ, (Z.pow_succ_r 2) by lia.
    rewrite (Z.mul_comm 2), Z.pow_mul_r by lia. now rewrite Z.pow_2_r.
Qed.

Lemma step_order : 521167 ^ (2 ^ 21) mod 2 ^ 23 = 1.
Proof.
  pose proof (连续平方_spec 21 521167 (2 ^ 23) ltac:(lia)) as E.
  change (Z.of_nat 21) with 21 in E. rewrite <- E. vm_compute. reflexivity.
Qed.

Lemma randomFloat_repeats (P : Z) (g : DefaultPRNG.t) :
  0 <= P -> 521167 ^ P mod 2 ^ 23 = 1 ->
  fst (DefaultPRNG.randomFloat (连续取 (Z.to_nat P) g))
  = fst (DefaultPRNG.randomFloat g).
Proof.
  intros HP Ord. apply randomFloat_mantissa. rewrite !mantissa_mod.
  set (s := DefaultPRNG.seed_ (连续取 (Z.to_nat P) g)).
  assert (Hs : s mod 2 ^ 23 = (DefaultPRNG.seed_ g * 521167 ^ P) mod 2 ^ 23).
  { assert (Dv : (2 ^ 23 | 2 ^ 32)) by (exists (2 ^ 9); reflexivity).
    rewrite <- (Z.mod_mod_divide s _ _ Dv).
    unfold s. rewrite 连续取_seed, Z2Nat.id by lia.
    now apply Z.mod_mod_divide. }
  rewrite Z.mul_mod, Hs by lia.
  rewrite (Z.mul_mod (DefaultPRNG.seed_ g) (521167 ^ P)), Ord by lia.
  rewrite Z.mul_1_r, Z.mod_mod by lia. now rewrite <- Z.mul_mod by lia.
Qed.

(** X11: the floats of the default generator repeat after 2^21 draws,
    whatever the seed: [randomFloat] uses the 23 low bits of the seed only,
    on which the multiplier 521167 has an order that divides 2^21. *)
Theorem randomFloat_period (g : DefaultPRNG.t) :
  fst (DefaultPRNG.randomFloat (连续取 (Z.to_nat (2 ^ 21)) g))
  = fst (DefaultPRNG.randomFloat g).
Proof.
  apply randomFloat_repeats; [apply Z.pow_nonneg; discriminate|exact step_order].
Qed.

(** *** Seeds that are multiples of 2^23 *)

Lemma degenerate_step g :
  DefaultPRNG.seed_ g mod 2 ^ 23 = 0 ->
  fst (DefaultPRNG.randomFloat g) = f_zero
  /\ DefaultPRNG.seed_ (snd (DefaultPRNG.randomFloat g)) mod 2 ^ 23 = 0.
Proof.
  intros Hs.
  assert (Hm : (DefaultPRNG.seed_ g * 521167) mod 2 ^ 23 = 0).
  { now rewrite Z.mul_mod, Hs by lia. }
  split.
  - rewrite randomFloat_exact, mantissa_mod, Hm. reflexivity.
  - rewrite seed_after. unfold wrap32.
    rewrite Z.mod_mod_divide by (exists (2 ^ 9); reflexivity). exact Hm.
Qed.

Lemma 首个点_degenerate fuel : forall g,
  DefaultPRNG.seed_ g mod 2 ^ 23 = 0 -> 首个点 fuel true g = OutOfFuel.
Proof.
  induction fuel as [|fuel IH]; intros g Hs; cbn [首个点]; [reflexivity|].
  unfold bind, draw_float. cbn [randomFloat DefaultPRNG_PRNG].
  destruct (degenerate_step g Hs) as (X0 & Hs1).
  destruct (DefaultPRNG.randomFloat g) as [X g1]. cbn [fst snd] in *. subst X.
  destruct (degenerate_step g1 Hs1) as (Y0 & Hs2).
  destruct (DefaultPRNG.randomFloat g1) as [Y g2]. cbn [fst snd] in *. subst Y.
  change (在区域内 true (点_of f_zero f_zero)) with false. cbv iota.
  now apply IH.
Qed.

Lemma 连续取_degenerate n : forall g,
  DefaultPRNG.seed_ g mod 2 ^ 23 = 0 ->
  DefaultPRNG.seed_ (连续取 n g) mod 2 ^ 23 = 0.
Proof.
  induction n as [|n IH]; intros g Hs; [exact Hs|].
  change (连续取 (S n) g) with (snd (DefaultPRNG.randomFloat (连续取 n g))).
  apply degenerate_step. now apply IH.
Qed.

(** X12: a default generator whose seed is a multiple of 2^23 (0, for one)
    returns +0 at every draw.  In circle mode the first point (0, 0) is then
    rejected for ever: once the grid is built, [生成泊松点集] never returns,
    whatever the fuel. *)
Theorem Poisson_circle_never_returns (L : Libm) (fuel : nat) (点数量 : Z)
    (新增点数量 : Z) (最小距离 : float) (g : DefaultPRNG.t) (t w : Z) :
  DefaultPRNG.seed_ g mod 2 ^ 23 = 0 ->
  目标点数 点数量 true = Some t -> t <> 0 ->
  网格边长 (单格尺寸_of (有效最小距离 t 最小距离)) = Some w -> 0 <= w ->
  (forall n, fst (DefaultPRNG.randomFloat (连续取 n g)) = f_zero)
  /\ 生成泊松点集 L fuel 点数量 true 新增点数量 最小距离 g = OutOfFuel.
Proof.
  intros Hs Et T0 Ew Hw. split.
  { intros n. apply degenerate_step. now apply 连续取_degenerate. }
  unfold 生成泊松点集, bind at 1. rewrite Et.
  cbn [defined]. apply Z.eqb_neq in T0. rewrite T0.
  unfold bind at 1. rewrite Ew. cbn [defined].
  unfold bind at 1. cbn [defined]. unfold bind at 1.
  unfold 网格_构造. apply Z.leb_le in Hw. rewrite Hw. cbn [andb defined].
  unfold bind at 1. now rewrite 首个点_degenerate.
Qed.

Lemma Poisson_circle_never_returns_witness :
  (forall n, fst (DefaultPRNG.randomFloat (连续取 n seed0)) = f_zero)
  /\ 生成泊松点集 libm_model 1000 1 true 30 f_minus_one seed0 = OutOfFuel.
Proof.
  apply (Poisson_circle_never_returns libm_model 1000 1 30 f_minus_one seed0 2 2).
  - reflexivity.
  - reflexivity.
  - discriminate.
  - vm_compute. reflexivity.
  - discriminate.
Defined.

(** X13: [randomFloat] is exact: scaled by 2^23 it is the integer held in
    the 23 low bits of the updated seed.  So it is a multiple of 2^-23 in
    [0, 1), and the seed becomes [seed * 521167] modulo 2^32. *)
Theorem randomFloat_is_mantissa (g : DefaultPRNG.t) :
  F32.mul (fst (DefaultPRNG.randomFloat g)) (F32.of_Z (2 ^ 23))
  = F32.of_Z (mantissa g)
  /\ mantissa g = (DefaultPRNG.seed_ g * 521167) mod 2 ^ 23
  /\ DefaultPRNG.getSeed (snd (DefaultPRNG.randomFloat g))
     = (DefaultPRNG.seed_ g * 521167) mod 2 ^ 32
  /\ fle f_zero (fst (DefaultPRNG.randomFloat g)) = true
  /\ flt (fst (DefaultPRNG.randomFloat g)) f_one = true.
Proof.
  split; [|split; [apply mantissa_mod|split; [reflexivity|apply randomFloat_unit]]].
  rewrite randomFloat_exact. pose proof (mantissa_range g) as Hm.
  destruct (mantissa g) as [|p|p]; try lia; [reflexivity|].
  pose proof (digits2_pos_bounds p) as [Dlo Dhi].
  pose proof (digits_between p 0 23 ltac:(lia) ltac:(lia)) as Hd.
  set (d := Zpos (digits2_pos p)) in *.
  pose proof (pow2_pos (24 - d) ltac:(lia)) as P24.
  assert (Hpf : 2 ^ 23 <= Zpos p * 2 ^ (24 - d) < 2 ^ 24).
  { split.
    - replace 23 with ((d - 1) + (24 - d)) at 1 by lia. rewrite pow2_split by lia. nia.
    - replace 24 with (d + (24 - d)) at 2 by lia. rewrite pow2_split by lia. nia. }
  unfold F32.of_Z, SFof_Z. cbn [binary_normalize].
  rewrite (binary_round_exact F32.prec F32.emax ltac:(reflexivity) false p 0 d)
    by (unfold F32.prec, F32.emax, emin; fold d; lia).
  change (binary_round F32.prec F32.emax false 8388608 0)
    with (S754_finite false 8388608 0).
  unfold F32.prec at 1 2. unfold F32.prec.
  destruct (Zpos p * 2 ^ (24 - d)) as [|pf|pf] eqn:Epf; try lia.
  cbn [Z.to_pos]. unfold F32.mul. fold F32.prec.
  assert (HP : Zpos (pf * 8388608) = Zpos pf * 2 ^ 23) by (rewrite Pos2Z.inj_mul; reflexivity).
  assert (HD : Zpos (digits2_pos (pf * 8388608)) = 47).
  { apply digits2_pos_unique. rewrite HP.
    change (2 ^ (47 - 1)) with (2 ^ 23 * 2 ^ 23). change (2 ^ 47) with (2 ^ 24 * 2 ^ 23).
    lia. }
  change (binary_normalize F32.prec F32.emax (2 ^ 23) 0 false)
    with (S754_finite false 8388608 0).
  rewrite (mul_exact F32.prec F32.emax ltac:(reflexivity) false pf (d - 47)
             false 8388608 0 23).
  - cbn [xorb]. change (Zpos 8388608) with (2 ^ 23).
    rewrite Z.div_mul by lia.
    replace (d - 47 + 0 + 23) with (0 - (F32.prec - d))
      by (unfold F32.prec; lia). reflexivity.
  - rewrite HD. reflexivity.
  - lia.
  - change (Zpos 8388608) with (2 ^ 23). apply Z.mod_mul. lia.
  - unfold F32.prec, F32.emax, emin. lia.
Qed.

(** X14: a minimal distance of zero (+0 or -0) or NaN is not replaced by
    the default (only a negative one is), and makes the cell size zero or
    NaN: the grid dimension [(int)ceil(1.0f / 单格尺寸)] is then the
    conversion of an infinity or of a NaN to [int], which is undefined.
    This happens before any point is drawn, for every non-zero target. *)
Theorem zero_distance_is_undefined {G : Type} `{PRNG G} (L : Libm) (fuel : nat)
    (点数量 : Z) (是圆形 : bool) (新增点数量 : Z) (最小距离 : float) (g : G)
    (t : Z) :
  目标点数 点数量 是圆形 = Some t -> t <> 0 ->
  (exists s, 最小距离 = S754_zero s) \/ 最小距离 = S754_nan ->
  生成泊松点集 L fuel 点数量 是圆形 新增点数量 最小距离 g = Undefined.
Proof.
  intros Et T0 Hd. unfold 生成泊松点集, bind at 1. rewrite Et. cbn [defined].
  apply Z.eqb_neq in T0. rewrite T0. unfold bind at 1.
  destruct Hd as [[[|] ->]| ->]; reflexivity.
Qed.

Lemma zero_distance_is_undefined_witness :
  生成泊松点集 libm_model 5 10 true 30 f_zero DefaultPRNG.default = Undefined.
Proof.
  apply (zero_distance_is_undefined libm_model 5 10 true 30 f_zero
           DefaultPRNG.default 20).
  - reflexivity.
  - discriminate.
  - left. exists false. reflexivity.
Defined.


(* ================================================================== *)
(** * Hammersley points and the jittered grid *)

(** ** Hammersley points are distinct *)

Lemma bitrev32_inj i j :
  0 <= i < 2 ^ 32 -> 0 <= j < 2 ^ 32 -> bitrev 32 i = bitrev 32 j -> i = j.
Proof.
  intros Hi Hj E. apply Z.bits_inj'. intros k Hk.
  destruct (Z.lt_ge_cases k 32) as [L|L].
  - pose proof (bitrev_spec 32 i (31 - k) ltac:(lia)) as Bi.
    pose proof (bitrev_spec 32 j (31 - k) ltac:(lia)) as Bj.
    change (Z.of_nat 32) with 32 in *.
    replace (31 - k <? 32) with true in * by (symmetry; apply Z.ltb_lt; lia).
    replace (32 - 1 - (31 - k)) with k in * by lia.
    now rewrite <- Bi, <- Bj, E.
  - now rewrite !testbit_high.
Qed.

Lemma bitrev32_low i : 0 <= i < 2 ^ 24 -> bitrev 32 i mod 2 ^ 8 = 0.
Proof.
  intros Hi. apply Z.bits_inj'. intros k Hk. rewrite Z.bits_0.
  destruct (Z.lt_ge_cases k 8) as [L|L].
  - rewrite Z.mod_pow2_bits_low by lia.
    rewrite bitrev_spec by lia. change (Z.of_nat 32) with 32.
    replace (k <? 32) with true by (symmetry; apply Z.ltb_lt; lia).
    apply (testbit_above i 24); lia.
  - apply Z.mod_pow2_bits_high. lia.
Qed.

Lemma bitrev32_zero i : 0 <= i < 2 ^ 32 -> bitrev 32 i = 0 -> i = 0.
Proof.
  intros Hi E. apply (bitrev32_inj i 0); [lia|lia|]. rewrite E. reflexivity.
Qed.

Lemma norm32_exact b :
  0 < b < 2 ^ 32 -> b mod 2 ^ 8 = 0 ->
  fst (norm32 b) * 2 ^ (snd (norm32 b) + 23) = b * 2 ^ 23.
Proof.
  intros Hb Hlow. unfold norm32. pose proof (log2_bounds b ltac:(lia)) as [Llo Lhi].
  assert (Hd : 0 <= Z.log2 b < 32).
  { split; [apply Z.log2_nonneg|]. apply Z.log2_lt_pow2; lia. }
  set (d := Z.log2 b + 1) in *.
  destruct (Z.leb_spec d 24) as [L|L]; cbn [fst snd].
  - rewrite <- Z.mul_assoc, <- pow2_split by lia. do 2 f_equal. lia.
  - assert (Hn : 1 <= d - 24 <= 8) by lia.
    assert (Hmod : b mod 2 ^ (d - 24) = 0).
    { apply Z.mod_divide; [apply Z.pow_nonzero; lia|].
      apply Z.divide_trans with (2 ^ 8).
      - exists (2 ^ (8 - (d - 24))). rewrite <- pow2_split by lia. f_equal. lia.
      - apply Z.mod_divide; [lia|exact Hlow]. }
    rewrite rne_exact by lia.
    pose proof (pow2_pos (d - 24) ltac:(lia)) as Pn.
    assert (Hb2 : b = 2 ^ (d - 24) * (b / 2 ^ (d - 24))).
    { apply Z.div_exact; lia. }
    assert (Hq : b / 2 ^ (d - 24) < 2 ^ 24).
    { apply Z.div_lt_upper_bound; [lia|]. rewrite <- pow2_split by lia.
      replace (d - 24 + 24) with d by lia. exact Lhi. }
    destruct (Z.ltb_spec (b / 2 ^ (d - 24)) (2 ^ 24)) as [_|C]; [|lia].
    cbn [fst snd]. replace (d - 24 + 23) with ((d - 24) + 23) by lia.
    rewrite pow2_split by lia. rewrite Hb2 at 2. ring.
Qed.

Lemma scale32_inj a b :
  0 <= a < 2 ^ 32 -> 0 <= b < 2 ^ 32 ->
  a mod 2 ^ 8 = 0 -> b mod 2 ^ 8 = 0 ->
  scale32 a = scale32 b -> a = b.
Proof.
  intros Ha Hb La Lb E.
  destruct (Z.eq_dec a 0) as [->|Na], (Z.eq_dec b 0) as [->|Nb]; auto.
  - rewrite (scale32_exact b) in E by lia. discriminate.
  - rewrite (scale32_exact a) in E by lia. discriminate.
  - rewrite (scale32_exact a), (scale32_exact b) in E by lia.
    pose proof (norm32_exact a ltac:(lia) La) as Xa.
    pose proof (norm32_exact b ltac:(lia) Lb) as Xb.
    pose proof (norm32_bounds a ltac:(lia)) as Ba.
    pose proof (norm32_bounds b ltac:(lia)) as Bb.
    destruct (norm32 a) as [Ma Ea], (norm32 b) as [Mb Eb].
    cbn [fst snd] in *. injection E as EM EE.
    assert (Ma = Mb).
    { destruct Ba as [Ba _], Bb as [Bb _].
      rewrite <- (Z2Pos.id Ma), <- (Z2Pos.id Mb), EM by lia. reflexivity. }
    assert (Ea = Eb) by lia. subst Mb Eb.
    assert (a * 2 ^ 23 = b * 2 ^ 23) by congruence. lia.
Qed.

Lemma radicalInverse_VdC_inj i j :
  0 <= i < 2 ^ 24 -> 0 <= j < 2 ^ 24 ->
  radicalInverse_VdC i = radicalInverse_VdC j -> i = j.
Proof.
  intros Hi Hj E. rewrite !radicalInverse_VdC_bitrev in E by lia.
  apply bitrev32_inj; try lia.
  apply scale32_inj; auto using bitrev32_low.
  - apply (bitrev_range 32).
  - apply (bitrev_range 32).
Qed.

Lemma 下标_NoDup n : NoDup (下标 n).
Proof.
  unfold 下标. apply NoDup_map_NoDup_ForallPairs; [|apply seq_NoDup].
  intros x y _ _. apply Nat2Z.inj.
Qed.

(** X16: up to 2^24 Hammersley points are pairwise distinct.  For an index
    below 2^24 the reversed word is a multiple of 2^8, so its conversion to
    [float] and the scaling by 2^-32 are exact, and the second coordinate
    determines the index. *)
Theorem Hammersley_points_distinct (点数量 : Z) :
  0 <= 点数量 <= 2 ^ 24 -> NoDup (生成Hammersley点集 点数量).
Proof.
  intros HN. unfold 生成Hammersley点集.
  apply NoDup_map_NoDup_ForallPairs; [|apply 下标_NoDup].
  intros i j Hi Hj E. apply 下标_In in Hi, Hj.
  unfold hammersley2d, 点_of in E. injection E as _ Ey.
  apply radicalInverse_VdC_inj; auto; lia.
Qed.

Lemma Hammersley_points_distinct_witness : NoDup (生成Hammersley点集 4).
Proof. apply Hammersley_points_distinct. lia. Defined.

(** ** The integer square root the jittered grid takes *)

Section Value.
  Variables prec emax : Z.
  Hypothesis Hprec : 0 < prec.

  (** Rounding a mantissa that already has [prec] digits keeps it or adds
      one unit in the last place. *)
Lemma round_aux_value s p e l :
    Zpos (digits2_pos p) = prec ->
    emin prec emax <= e -> e + 1 <= emax - prec ->
    exists m' e',
      binary_round_aux prec emax s (Zpos p) e l = S754_finite s m' e'
      /\ e <= e' <= e + 1
      /\ Zpos p <= Zpos m' * 2 ^ (e' - e) <= Zpos p + 1.
  Proof.
    intros Hd Hemin Hemax.
    pose proof (digits2_pos_bounds p) as [Dlo Dhi]. rewrite Hd in Dlo, Dhi.
    unfold binary_round_aux, shr_fexp. cbn [Zdigits2]. rewrite Hd.
    replace (fexp prec emax (prec + e) - e) with 0 by (unfold fexp; lia).
    cbn [shr].
    assert (HR : shr_m (shr_record_of_loc (Zpos p) l) = Zpos p)
      by (destruct l as [|[]]; reflexivity).
    pose proof (round_nearest_even_bounds (shr_m (shr_record_of_loc (Zpos p) l))
                  (loc_of_shr_record (shr_record_of_loc (Zpos p) l))) as HM.
    set (M := round_nearest_even _ _) in *. rewrite HR in HM.
    assert (Ppos : 0 < 2 ^ (prec - 1)) by (apply Z.pow_pos_nonneg; lia).
    destruct M as [|q|q] eqn:EM; try lia.
    cbn [Zdigits2 shr_record_of_loc].
    destruct (Z.ltb_spec (Zpos q) (2 ^ prec)) as [L|L].
    - rewrite (digits2_pos_unique q prec) by lia.
      replace (fexp prec emax (prec + e) - e) with 0 by (unfold fexp; lia).
      cbn [shr shr_m].
      replace (e <=? emax - prec) with true by (symmetry; apply Z.leb_le; lia).
      exists q, e. rewrite Z.sub_diag, Z.pow_0_r. repeat split; lia.
    - assert (Eq : Zpos q = 2 ^ prec) by lia.
      rewrite (digits2_pos_unique q (prec + 1)).
      2:{ replace (prec + 1 - 1) with prec by lia. rewrite Z.pow_add_r by lia. lia. }
      replace (fexp prec emax (prec + 1 + e) - e) with 1 by (unfold fexp; lia).
      cbn [shr iter_pos]. rewrite shr_1_spec by lia.
      cbn [shr_m]. rewrite Eq.
      assert (E2 : 2 ^ prec = 2 ^ (prec - 1) * 2).
      { replace prec with (prec - 1 + 1) at 1 by lia. now rewrite Z.pow_add_r by lia. }
      rewrite E2, Z.div_mul by lia.
      destruct (2 ^ (prec - 1)) as [|h|h] eqn:Eh; try lia.
      replace (e + 1 <=? emax - prec) with true by (symmetry; apply Z.leb_le; lia).
      exists h, (e + 1). replace (e + 1 - e) with 1 by lia.
      rewrite Z.pow_1_r. repeat split; lia.
  Qed.
End Value.

Lemma sqrt_scaled n k :
  0 <= n < 2 ^ 32 -> 17 <= k ->
  Z.sqrt n * 2 ^ k <= Z.sqrt (n * 2 ^ (2 * k))
  /\ Z.sqrt (n * 2 ^ (2 * k)) + 1 < (Z.sqrt n + 1) * 2 ^ k.
Proof.
  intros Hn Hk.
  assert (HK : 2 ^ 17 <= 2 ^ k) by (apply Z.pow_le_mono_r; lia).
  replace (2 * k) with (k + k) by lia. rewrite Z.pow_add_r by lia.
  set (K := 2 ^ k) in *.
  pose proof (Z.sqrt_spec n ltac:(lia)) as [R1 R2].
  assert (Hr : 0 <= Z.sqrt n < 2 ^ 16).
  { split; [apply Z.sqrt_nonneg|].
    apply Z.sqrt_lt_square; [lia|lia|]. change (2 ^ 16 * 2 ^ 16) with (2 ^ 32). lia. }
  set (r := Z.sqrt n) in *.
  assert (Hm : 0 <= n * (K * K)) by (apply Z.mul_nonneg_nonneg; nia).
  pose proof (Z.sqrt_spec (n * (K * K)) Hm) as [Q1 Q2].
  pose proof (Z.sqrt_nonneg (n * (K * K))) as Q0.
  set (q := Z.sqrt (n * (K * K))) in *.
  unfold Z.succ in *. change (2 ^ 17) with 131072 in HK.
  change (2 ^ 16) with 65536 in Hr.
  split.
  - destruct (Z.le_gt_cases (r * K) q) as [|C]; [assumption|exfalso].
    assert ((q + 1) * (q + 1) <= (r * K) * (r * K)).
    { apply Z.mul_le_mono_nonneg; lia. }
    assert ((r * K) * (r * K) <= n * (K * K)).
    { replace (r * K * (r * K)) with ((r * r) * (K * K)) by ring.
      apply Z.mul_le_mono_nonneg_r; nia. }
    lia.
  - destruct (Z.lt_ge_cases (q + 1) ((r + 1) * K)) as [|C]; [assumption|exfalso].
    set (T := (r + 1) * K) in *.
    assert (HT : 0 < T) by (unfold T; nia).
    assert (A1 : (T - 1) * (T - 1) <= q * q).
    { apply Z.mul_le_mono_nonneg; lia. }
    assert (A2 : n * (K * K) <= T * T - K * K).
    { assert (n <= (r + 1) * (r + 1) - 1) by lia.
      replace (T * T - K * K) with (((r + 1) * (r + 1) - 1) * (K * K))
        by (unfold T; ring).
      apply Z.mul_le_mono_nonneg_r; nia. }
    assert (A3 : K * K + 1 <= 2 * T) by lia.
    assert (A4 : 2 * T <= 131072 * K) by (unfold T; nia).
    nia.
Qed.

Lemma shiftl_if m s :
  0 <= s ->
  match s with 0 => m | Zpos _ => Z.shiftl m s | Zneg _ => 0 end = m * 2 ^ s.
Proof.
  intros Hs. destruct s as [|p|p]; try lia.
  apply Z.shiftl_mul_pow2. lia.
Qed.

Lemma F64_sqrt_floor n :
  0 <= n < 2 ^ 32 -> to_u32 (F64.sqrt (F64.of_Z n)) = Some (Z.sqrt n).
Proof.
  intros Hn. destruct (Z.eq_dec n 0) as [->|N0]; [reflexivity|].
  rewrite F64_of_Z_exact by lia. cbv zeta.
  pose proof (log2_bounds n ltac:(lia)) as [Llo Lhi].
  assert (Hd : 1 <= Z.log2 n + 1 <= 32).
  { split; [pose proof (Z.log2_nonneg n); lia|].
    assert (Z.log2 n < 32) by (apply Z.log2_lt_pow2; lia). lia. }
  set (d := Z.log2 n + 1) in *. replace (Z.log2 n) with (d - 1) in Llo by lia.
  pose proof (pow2_pos (53 - d) ltac:(lia)) as P53.
  assert (Hm : 2 ^ 52 <= n * 2 ^ (53 - d) < 2 ^ 53).
  { split.
    - replace 52 with ((d - 1) + (53 - d)) by lia. rewrite pow2_split by lia. nia.
    - replace 53 with (d + (53 - d)) at 2 by lia. rewrite pow2_split by lia. nia. }
  destruct (n * 2 ^ (53 - d)) as [|p|p] eqn:Ep; try lia. cbn [Z.to_pos].
  unfold F64.sqrt, SFsqrt, SFsqrt_core_binary. cbn [Zdigits2].
  rewrite (digits2_pos_unique p 53) by (change (53 - 1) with 52; lia).
  set (h := (d + 1) / 2).
  assert (Hh : 2 * h = d \/ 2 * h = d + 1).
  { unfold h. pose proof (Z.div_mod (d + 1) 2 ltac:(lia)).
    pose proof (Z.mod_pos_bound (d + 1) 2 ltac:(lia)). lia. }
  assert (E' : Z.min (fexp F64.prec F64.emax (Z.div2 (53 + (d - 53) + 1)))
                     (Z.div2 (d - 53)) = h - 53).
  { rewrite !Z.div2_div. unfold fexp, emin, F64.prec, F64.emax.
    replace (53 + (d - 53) + 1) with (d + 1) by lia. fold h.
    pose proof (Z.div_mod (d - 53) 2 ltac:(lia)).
    pose proof (Z.mod_pos_bound (d - 53) 2 ltac:(lia)). lia. }
  rewrite E'. set (k := 53 - h).
  assert (Hk : 37 <= k <= 52) by (unfold k; lia).
  rewrite shiftl_if by lia.
  assert (Em : Zpos p * 2 ^ (d - 53 - 2 * (h - 53)) = n * 2 ^ (2 * k)).
  { rewrite <- Ep, <- Z.mul_assoc, <- pow2_split by lia. do 2 f_equal.
    unfold k. lia. }
  rewrite Em.
  destruct (sqrt_scaled n k ltac:(lia) ltac:(lia)) as [S1 S2].
  pose proof (Z.sqrtrem_sqrt (n * 2 ^ (2 * k))) as Eq.
  destruct (Z.sqrtrem (n * 2 ^ (2 * k))) as [q r]. cbn [fst] in Eq. subst q.
  set (q := Z.sqrt (n * 2 ^ (2 * k))) in *.
  set (l := if r =? 0 then loc_Exact
            else loc_Inexact (if r <=? q then Lt else Gt)).
  (* the root has 53 digits *)
  assert (Hq : 2 ^ 52 <= q < 2 ^ 53).
  { assert (B : 2 ^ 104 <= n * 2 ^ (2 * k) < 2 ^ 106).
    { split.
      - apply Z.le_trans with (2 ^ (d - 1) * 2 ^ (2 * k)).
        + rewrite <- pow2_split by lia. apply Z.pow_le_mono_r; unfold k; lia.
        + apply Z.mul_le_mono_nonneg_r; [apply Z.pow_nonneg|]; lia.
      - apply Z.lt_le_trans with (2 ^ d * 2 ^ (2 * k)).
        + apply Z.mul_lt_mono_pos_r; [apply pow2_pos|]; lia.
        + rewrite <- pow2_split by lia. apply Z.pow_le_mono_r; unfold k; lia. }
    split.
    - change (2 ^ 52) with (Z.sqrt (2 ^ 104)). apply Z.sqrt_le_mono. lia.
    - apply Z.sqrt_lt_square; [lia|lia|]. change (2 ^ 53 * 2 ^ 53) with (2 ^ 106). lia. }
  destruct q as [|pq|pq] eqn:Eq; try lia.
  destruct (round_aux_value F64.prec F64.emax ltac:(reflexivity) false pq (h - 53) l)
    as (m' & e' & -> & He' & Hv).
  { apply digits2_pos_unique. change (F64.prec - 1) with 52.
    change F64.prec with 53. lia. }
  { unfold emin, F64.prec, F64.emax. lia. }
  { unfold F64.prec, F64.emax. lia. }
  unfold to_u32, ftrunc. cbn [cond_Zopp].
  rewrite Z.shiftl_div_pow2 by lia.
  assert (Ediv : Zpos m' / 2 ^ (- e') = Z.sqrt n).
  { pose proof (pow2_pos (e' - (h - 53)) ltac:(lia)) as Pd.
    pose proof (pow2_pos (- e') ltac:(lia)) as Pe.
    rewrite <- (Z.div_mul_cancel_r _ _ (2 ^ (e' - (h - 53)))) by lia.
    rewrite <- pow2_split by lia.
    replace (- e' + (e' - (h - 53))) with k by (unfold k; lia).
    pose proof (pow2_pos k ltac:(lia)) as Pk.
    symmetry. apply Z.div_unique with
      (Zpos m' * 2 ^ (e' - (h - 53)) - Z.sqrt n * 2 ^ k); lia. }
  rewrite Ediv.
  assert (Hr : 0 <= Z.sqrt n < 2 ^ 32).
  { split; [apply Z.sqrt_nonneg|].
    apply Z.le_lt_trans with n; [apply Z.sqrt_le_lin|]; lia. }
  replace (0 <=? Z.sqrt n) with true by (symmetry; apply Z.leb_le; lia).
  replace (Z.sqrt n <? 2 ^ 32) with true by (symmetry; apply Z.ltb_lt; lia).
  reflexivity.
Qed.

Section JitterSize.
  Context {G : Type} `{PRNG G}.
  Variable libm : Libm.

Lemma 抖动循环_长度 fuel size c r ctr : forall cells acc (g : G) out g',
    抖动循环 libm fuel cells size c r ctr acc g = Ok (out, g') ->
    (length acc <= length out <= length acc + length cells)%nat
    /\ (c = false -> length out = (length acc + length cells)%nat).
  Proof.
    induction cells as [|[x y] rest IH]; intros acc g out g' E; cbn [抖动循环] in E.
    - apply ret_Ok in E. injection E as <- _. cbn [length]. lia.
    - bind_inv E as (p & g1 & _ & E). apply IH in E. destruct E as (L & Hc).
      cbn [length]. destruct c; cbn [andb] in *.
      + split; [|discriminate].
        destruct (negb (要是在圆形内 p)); [|rewrite length_app in L; cbn in L]; lia.
      + specialize (Hc eq_refl). rewrite length_app in *. cbn [length] in *. lia.
  Qed.
End JitterSize.

(** X17: [生成抖动网格点集] lays a grid of [s] x [s] cells, where [s] is
    the integer square root of [点数量] (the truncated [double] square root
    is exact for every 32-bit count): it returns at most [s * s] points, and
    exactly [s * s] when [是圆形] is false. *)
Theorem jittered_grid_size {G : Type} `{PRNG G} (L : Libm) (fuel : nat)
    (点数量 : Z) (是圆形 : bool) (抖动半径 : float) (中心点 : 点) (g : G)
    (out : list 点) (g' : G) :
  0 <= 点数量 < 2 ^ 32 ->
  生成抖动网格点集 L fuel 点数量 是圆形 抖动半径 中心点 g = Ok (out, g') ->
  Z.of_nat (length out) <= Z.sqrt 点数量 * Z.sqrt 点数量
  /\ (是圆形 = false -> Z.of_nat (length out) = Z.sqrt 点数量 * Z.sqrt 点数量).
Proof.
  intros Hn E. unfold 生成抖动网格点集 in E. rewrite F64_sqrt_floor in E by lia.
  bind_inv E as (s & g0 & E0 & E). apply defined_Ok in E0 as [E0 ->].
  injection E0 as <-.
  apply 抖动循环_长度 in E. destruct E as (Hl & Hc).
  rewrite length_prod, 下标_length in *. cbn [length] in *.
  pose proof (Z.sqrt_nonneg 点数量).
  split; [|intros C; specialize (Hc C)]; nia.
Qed.

Lemma jittered_grid_size_witness :
  Z.of_nat (length [点_of (S754_finite false 8589952 (-31)) f_half;
                    点_of (S754_finite false 8455717 (-24)) f_half])
  <= Z.sqrt 4 * Z.sqrt 4
  /\ (true = false ->
      Z.of_nat (length [点_of (S754_finite false 8589952 (-31)) f_half;
                        点_of (S754_finite false 8455717 (-24)) f_half])
      = Z.sqrt 4 * Z.sqrt 4).
Proof.
  apply (jittered_grid_size libm_model 3 4 true f_jitter (点_of f_half f_half)
           seed0 _ seed0); [lia|exact jitter_run_seed0].
Defined.

(** ** The set-up of the Poisson sampler with the default distance *)

Lemma div_shape p1 e1 p2 e2 :
  normal32 p1 -> normal32 p2 -> -100 <= e1 - e2 <= 100 ->
  exists m' e',
    F32.div (S754_finite false p1 e1) (S754_finite false p2 e2)
    = S754_finite false m' e'
    /\ normal32 m' /\ e1 - e2 - 24 <= e' <= e1 - e2 - 22.
Proof.
  intros H1 H2 He. unfold F32.div, SFdiv.
  rewrite div_core_normal32 by (try assumption; lia). cbn [xorb].
  unfold normal32 in *.
  set (q := Zpos p1 * 2 ^ 24 / Zpos p2).
  assert (Hq : 2 ^ 23 <= q < 2 ^ 25).
  { unfold q. split.
    - apply Z.div_le_lower_bound; [lia|]. change (2 ^ 24) with (2 * 2 ^ 23). nia.
    - apply Z.div_lt_upper_bound; [lia|]. change (2 ^ 25) with (2 * 2 ^ 24).
      change (2 ^ 23) with 8388608 in *. change (2 ^ 24) with 16777216 in *. nia. }
  destruct q as [|pq|pq] eqn:Eq'; try lia.
  pose proof (digits_between pq 23 25 ltac:(lia) Hq) as Hdq.
  destruct (round_aux_shape F32.prec F32.emax ltac:(reflexivity) false pq
              (e1 - e2 - 24) (new_location (Zpos p2) (Zpos p1 * 2 ^ 24 mod Zpos p2))
              (Zpos (digits2_pos pq) - 24))
    as (m' & e' & -> & Hm' & He');
    try (unfold F32.prec, F32.emax, emin; lia).
  exists m', e'. split; [reflexivity|]. split; [exact Hm'|]. lia.
Qed.

Lemma sqrt_shape m e :
  normal32 m -> -100 <= e <= 100 ->
  exists m' e',
    F32.sqrt (S754_finite false m e) = S754_finite false m' e'
    /\ normal32 m' /\ (e + 25) / 2 - 24 <= e' <= (e + 25) / 2 - 23.
Proof.
  intros Hm He. unfold normal32 in Hm.
  unfold F32.sqrt, SFsqrt, SFsqrt_core_binary. cbn [Zdigits2].
  rewrite (digits2_pos_unique m 24) by (change (24 - 1) with 23; lia).
  set (h := (e + 25) / 2).
  assert (Hh : 2 * h = e + 25 \/ 2 * h = e + 24).
  { unfold h. pose proof (Z.div_mod (e + 25) 2 ltac:(lia)).
    pose proof (Z.mod_pos_bound (e + 25) 2 ltac:(lia)). lia. }
  assert (E' : Z.min (fexp F32.prec F32.emax (Z.div2 (24 + e + 1))) (Z.div2 e)
               = h - 24).
  { rewrite !Z.div2_div. unfold fexp, emin, F32.prec, F32.emax.
    replace (24 + e + 1) with (e + 25) by lia. fold h.
    pose proof (Z.div_mod e 2 ltac:(lia)).
    pose proof (Z.mod_pos_bound e 2 ltac:(lia)). lia. }
  rewrite E'. rewrite shiftl_if by lia.
  set (s := e - 2 * (h - 24)).
  assert (Hs : s = 23 \/ s = 24) by (unfold s; lia).
  assert (B : 2 ^ 46 <= Zpos m * 2 ^ s < 2 ^ 48).
  { destruct Hs as [-> | ->].
    - change (2 ^ 46) with (2 ^ 23 * 2 ^ 23). change (2 ^ 48) with (2 * 2 ^ 24 * 2 ^ 23).
      change (2 ^ 23) with 8388608 in *. change (2 ^ 24) with 16777216 in *. lia.
    - change (2 ^ 46) with (4194304 * 2 ^ 24). change (2 ^ 48) with (2 ^ 24 * 2 ^ 24).
      change (2 ^ 23) with 8388608 in *. change (2 ^ 24) with 16777216 in *. lia. }
  pose proof (Z.sqrtrem_sqrt (Zpos m * 2 ^ s)) as Eq.
  destruct (Z.sqrtrem (Zpos m * 2 ^ s)) as [q r]. cbn [fst] in Eq. subst q.
  assert (Hq : 2 ^ 23 <= Z.sqrt (Zpos m * 2 ^ s) < 2 ^ 24).
  { split.
    - change (2 ^ 23) with (Z.sqrt (2 ^ 46)). apply Z.sqrt_le_mono. lia.
    - apply Z.sqrt_lt_square; [lia|lia|]. change (2 ^ 24 * 2 ^ 24) with (2 ^ 48). lia. }
  destruct (Z.sqrt (Zpos m * 2 ^ s)) as [|pq|pq] eqn:Eq; try lia.
  match goal with
  | |- context [binary_round_aux _ _ _ _ _ ?l] =>
      destruct (round_aux_shape F32.prec F32.emax ltac:(reflexivity) false pq
                  (h - 24) l 0) as (m' & e' & -> & Hm' & He')
  end.
  - rewrite (digits2_pos_unique pq 24) by (change (24 - 1) with 23; lia).
    reflexivity.
  - lia.
  - unfold emin, F32.prec, F32.emax. lia.
  - unfold F32.prec, F32.emax. lia.
  - exists m', e'. split; [reflexivity|]. split; [exact Hm'|]. lia.
Qed.

Lemma ceil_to_int m e :
  normal32 m -> -30 <= e <= -1 ->
  exists w, to_int (F32.ceil (S754_finite false m e)) = Some w
            /\ 1 <= w /\ (w - 1) * 2 ^ (- e) < 2 ^ 24.
Proof.
  intros Hm He. unfold normal32 in Hm.
  destruct e as [|pe|pe]; try lia.
  unfold F32.ceil, SFceil. cbn [cond_Zopp].
  set (w := - (- Zpos m / 2 ^ Zpos pe)).
  pose proof (pow2_pos (Zpos pe) ltac:(lia)) as Pp.
  assert (P2 : 2 <= 2 ^ Zpos pe).
  { change 2 with (2 ^ 1) at 1. apply Z.pow_le_mono_r; lia. }
  assert (Hw : 1 <= w /\ (w - 1) * 2 ^ Zpos pe < 2 ^ 24).
  { pose proof (Z.div_mod (- Zpos m) (2 ^ Zpos pe) ltac:(lia)) as DM.
    pose proof (Z.mod_pos_bound (- Zpos m) (2 ^ Zpos pe) Pp) as MB.
    unfold w. set (q := - Zpos m / 2 ^ Zpos pe) in *.
    set (P := 2 ^ Zpos pe) in *. clearbody q P. nia. }
  exists w. split; [|exact Hw].
  assert (Hw24 : w < 2 ^ 24).
  { destruct Hw as [_ Hw]. set (P := 2 ^ Zpos pe) in *. clearbody P.
    change (2 ^ 24) with 16777216 in *. nia. }
  destruct Hw as [Hw1 _].
  destruct w as [|pw|pw] eqn:Ew; try lia.
  unfold binary_normalize.
  pose proof (digits2_pos_bounds pw) as [Dlo Dhi].
  pose proof (digits_between pw 0 24 ltac:(lia) ltac:(lia)) as Hd.
  set (d := Zpos (digits2_pos pw)) in *.
  rewrite (binary_round_exact F32.prec F32.emax ltac:(reflexivity) false pw 0 d)
    by (unfold F32.prec, F32.emax, emin; fold d; lia).
  pose proof (pow2_pos (24 - d) ltac:(lia)) as P24.
  unfold mk_float, F32.prec, F32.emax.
  destruct (Zpos pw * 2 ^ (24 - d)) as [|pf|pf] eqn:Epf; try lia.
  replace (0 - (24 - d) <=? 128 - 24) with true by (symmetry; apply Z.leb_le; lia).
  unfold to_int, ftrunc. cbn [cond_Zopp].
  rewrite Z.shiftl_div_pow2 by lia. rewrite <- Epf.
  replace (- (0 - (24 - d))) with (24 - d) by lia.
  rewrite Z.div_mul by lia.
  replace (- 2 ^ 31 <=? Zpos pw) with true by (symmetry; apply Z.leb_le; lia).
  replace (Zpos pw <? 2 ^ 31) with true
    by (symmetry; apply Z.ltb_lt; change (2 ^ 24) with 16777216 in Hw24; lia).
  reflexivity.
Qed.

(** X21: with the default minimal distance the set-up of [生成泊松点集] is
    defined for every non-zero target: the grid dimension
    [(int)ceil(1.0f / 单格尺寸)] is computable, between 1 and 2^20 + 1, and
    the constructor builds the grid. *)
Theorem default_grid_is_defined (t : Z) :
  0 < t < 2 ^ 32 ->
  exists w 格,
    网格边长 (单格尺寸_of (有效最小距离 t f_minus_one)) = Some w
    /\ 1 <= w <= 2 ^ 20 + 1
    /\ 网格_构造 w w (单格尺寸_of (有效最小距离 t f_minus_one)) = Some 格.
Proof.
  intros Ht.
  change (有效最小距离 t f_minus_one)
    with (F32.div (F32.sqrt (F32.of_Z t)) (F32.of_Z t)).
  rewrite (of_Z_norm32 t Ht).
  pose proof (norm32_bounds t Ht) as NB.
  destruct (norm32 t) as [Mt Et]. cbn [fst snd]. destruct NB as [HM HE].
  destruct Mt as [|pt|pt]; try lia. cbn [Z.to_pos].
  assert (Nt : normal32 pt) by exact HM.
  pose proof (Z.div_mod (Et + 25) 2 ltac:(lia)) as DM.
  pose proof (Z.mod_pos_bound (Et + 25) 2 ltac:(lia)) as MB.
  destruct (sqrt_shape pt Et Nt ltac:(lia)) as (ms & es & -> & Ns & Hes).
  destruct (div_shape ms es pt Et Ns Nt ltac:(lia)) as (md & ed & -> & Nd & Hed).
  unfold 单格尺寸_of.
  change (F32.sqrt f_two) with (S754_finite false 11863283 (-23)).
  assert (N2 : normal32 11863283) by (unfold normal32; cbn; lia).
  destruct (div_shape md ed 11863283 (-23) Nd N2 ltac:(lia))
    as (mc & ec & -> & Nc & Hec).
  unfold 网格边长, f_one.
  assert (N1 : normal32 8388608) by (unfold normal32; cbn; lia).
  destruct (div_shape 8388608 (-23) mc ec N1 Nc ltac:(lia))
    as (mw & ew & -> & Nw & Hew).
  destruct (ceil_to_int mw ew Nw ltac:(lia)) as (w & -> & Hw1 & Hw).
  assert (Hw20 : w - 1 < 2 ^ 20).
  { assert (P4 : 2 ^ 4 <= 2 ^ (- ew)) by (apply Z.pow_le_mono_r; lia).
    set (P := 2 ^ (- ew)) in *. clearbody P.
    change (2 ^ 24) with (2 ^ 4 * 2 ^ 20) in Hw. change (2 ^ 4) with 16 in *.
    set (Q := 2 ^ 20) in *. clearbody Q. nia. }
  eexists w, _. split; [reflexivity|]. split; [lia|].
  unfold 网格_构造.
  replace (0 <=? w) with true by (symmetry; apply Z.leb_le; lia).
  reflexivity.
Qed.

Lemma default_grid_is_defined_witness :
  exists w 格,
    网格边长 (单格尺寸_of (有效最小距离 50 f_minus_one)) = Some w
    /\ 1 <= w <= 2 ^ 20 + 1
    /\ 网格_构造 w w (单格尺寸_of (有效最小距离 50 f_minus_one)) = Some 格.
Proof. apply default_grid_is_defined. lia. Defined.
